(** * A forward HTTP/HTTPS proxy: request parsing and session handling

    Shallow embedding of [proxy_server/proxy_server.py] and the properties
    of its head parser ([get_target_host]) and of its connection handler
    ([handle_client], [handle_https], [forward_http], [relay],
    [send_forbidden]).

    Layout: [Py] holds the Python values and builtins the program calls
    (byte strings, [str] as a sequence of code points, exceptions,
    [bytes.decode], [str.split], [str.strip], [int]); [Proxy] holds the
    program itself, function by function; the theorems follow. *)

From Stdlib Require Import List Bool Arith NArith ZArith Lia.
From Stdlib Require Import Strings.String Strings.Ascii Strings.Byte.
Import ListNotations.


(* ================================================================== *)
(** * Python values and builtins                                        *)
(* ================================================================== *)

Module Py.

(** The exceptions the program can meet; all derive from [Exception], so a
    clause [except Exception] catches every one of them. *)
Inductive exn : Set :=
| UnicodeDecodeError
| IndexError
| UnicodeEncodeError
| ValueError
| OSError.

(** Outcome of running a piece of Python: it returns a value, raises, or
    never completes (an [await] on a peer that stays silent). *)
Inductive outcome (A : Type) : Type :=
| Ret (a : A)
| Exc (e : exn)
| Hang.
Arguments Ret {A} a.
Arguments Exc {A} e.
Arguments Hang {A}.

Definition obind {A B} (m : outcome A) (k : A -> outcome B) : outcome B :=
  match m with
  | Ret a => k a
  | Exc e => Exc e
  | Hang => Hang
  end.

(** [try: m  except Exception: h] *)
Definition otry {A} (m : outcome A) (h : exn -> outcome A) : outcome A :=
  match m with
  | Exc e => h e
  | _ => m
  end.

Declare Scope py_scope.
Delimit Scope py_scope with py.
Notation "x <- m ;; k" := (obind m (fun x => k))
  (at level 61, m at next level, right associativity) : py_scope.
Notation "' p <- m ;; k" := (obind m (fun x => let p := x in k))
  (at level 61, p pattern, m at next level, right associativity) : py_scope.

(** [bytes] and [str]: a [str] is a sequence of Unicode code points. *)
Definition bytes := list byte.
Definition pystr := list N.

(** An ASCII literal of the source, as [bytes] and as [str]. *)
Definition blit (s : string) : bytes := list_byte_of_string s.
Definition lit (s : string) : pystr := map Byte.to_N (list_byte_of_string s).

Definition CR : string := String "013"%char EmptyString.
Definition LF : string := String "010"%char EmptyString.
Definition CRLF : string := (CR ++ LF)%string.
Definition TAB : string := String "009"%char EmptyString.

Local Open Scope N_scope.

Definition chr_LF : N := 10.
Definition chr_SP : N := 32.
Definition chr_COLON : N := 58.

Definition pystr_eqb (s t : pystr) : bool :=
  if list_eq_dec N.eq_dec s t then true else false.

(** ** [bytes.decode('utf-8')] (strict error handler) *)

Definition is_cont (x : N) : bool := (0x80 <=? x) && (x <=? 0xBF).
Definition in_range (lo hi x : N) : bool := (lo <=? x) && (x <=? hi).
Definition low6 (x : N) : N := x - 0x80.

Fixpoint utf8_decode (bs : bytes) : option pystr :=
  match bs with
  | [] => Some []
  | b0 :: r0 =>
    let x0 := Byte.to_N b0 in
    if x0 <? 0x80 then option_map (cons x0) (utf8_decode r0)
    else if x0 <? 0xC2 then None
    else if x0 <? 0xE0 then
      match r0 with
      | b1 :: r1 =>
        let x1 := Byte.to_N b1 in
        if is_cont x1
        then option_map (cons ((x0 - 0xC0) * 64 + low6 x1)) (utf8_decode r1)
        else None
      | _ => None
      end
    else if x0 <? 0xF0 then
      match r0 with
      | b1 :: b2 :: r2 =>
        let x1 := Byte.to_N b1 in
        let x2 := Byte.to_N b2 in
        let lo := if x0 =? 0xE0 then 0xA0 else 0x80 in
        let hi := if x0 =? 0xED then 0x9F else 0xBF in
        if in_range lo hi x1 && is_cont x2
        then option_map
               (cons ((x0 - 0xE0) * 4096 + low6 x1 * 64 + low6 x2))
               (utf8_decode r2)
        else None
      | _ => None
      end
    else if x0 <? 0xF5 then
      match r0 with
      | b1 :: b2 :: b3 :: r3 =>
        let x1 := Byte.to_N b1 in
        let x2 := Byte.to_N b2 in
        let x3 := Byte.to_N b3 in
        let lo := if x0 =? 0xF0 then 0x90 else 0x80 in
        let hi := if x0 =? 0xF4 then 0x8F else 0xBF in
        if in_range lo hi x1 && is_cont x2 && is_cont x3
        then option_map
               (cons ((x0 - 0xF0) * 262144 + low6 x1 * 4096
                      + low6 x2 * 64 + low6 x3))
               (utf8_decode r3)
        else None
      | _ => None
      end
    else None
  end.

Definition decode (bs : bytes) : outcome pystr :=
  match utf8_decode bs with
  | Some s => Ret s
  | None => Exc UnicodeDecodeError
  end.

(** ** [str.encode('utf-8')]; the program only encodes an ASCII literal,
    a lone surrogate or a value past U+10FFFF has no encoding. *)

Definition byte_of (x : N) : byte :=
  match Byte.of_N x with Some b => b | None => x00%byte end.

Definition encode_cp (c : N) : option bytes :=
  if c <? 0x80 then Some [byte_of c]
  else if c <? 0x800 then
    Some [byte_of (0xC0 + c / 64); byte_of (0x80 + c mod 64)]
  else if in_range 0xD800 0xDFFF c then None
  else if c <? 0x10000 then
    Some [byte_of (0xE0 + c / 4096); byte_of (0x80 + (c / 64) mod 64);
          byte_of (0x80 + c mod 64)]
  else if c <? 0x110000 then
    Some [byte_of (0xF0 + c / 262144); byte_of (0x80 + (c / 4096) mod 64);
          byte_of (0x80 + (c / 64) mod 64); byte_of (0x80 + c mod 64)]
  else None.

Fixpoint utf8_encode (s : pystr) : option bytes :=
  match s with
  | [] => Some []
  | c :: r =>
    match encode_cp c, utf8_encode r with
    | Some bs, Some rest => Some (bs ++ rest)
    | _, _ => None
    end
  end.

Definition encode (s : pystr) : outcome bytes :=
  match utf8_encode s with
  | Some bs => Ret bs
  | None => Exc UnicodeEncodeError
  end.

(** ** [str.startswith], [bytes.startswith] *)

Fixpoint startswith (s prefix : pystr) : bool :=
  match prefix, s with
  | [], _ => true
  | p :: prefix', c :: s' => (c =? p) && startswith s' prefix'
  | _ :: _, [] => false
  end.

Fixpoint bstartswith (s prefix : bytes) : bool :=
  match prefix, s with
  | [], _ => true
  | p :: prefix', c :: s' => Byte.eqb c p && bstartswith s' prefix'
  | _ :: _, [] => false
  end.

(** ** [str.split(sep)] for a separator of one character: every occurrence
    of [sep] ends a field, so the result has one field more than [s] has
    separators (empty fields included). *)

Fixpoint split (sep : N) (s : pystr) : list pystr :=
  match s with
  | [] => [[]]
  | c :: r =>
    if c =? sep then [] :: split sep r
    else match split sep r with
         | w :: ws => (c :: w) :: ws
         | [] => [[c]]
         end
  end.

(** [l[i]] raises [IndexError] past the end. *)
Definition index {A} (l : list A) (i : nat) : outcome A :=
  match nth_error l i with
  | Some a => Ret a
  | None => Exc IndexError
  end.

(** [a, b = l] raises [ValueError] unless [l] has exactly two items. *)
Definition unpack2 {A} (l : list A) : outcome (A * A) :=
  match l with
  | [a; b] => Ret (a, b)
  | _ => Exc ValueError
  end.

(** ** [str.strip()]: the characters [str.isspace] accepts. *)

Definition isspace (c : N) : bool :=
  in_range 0x09 0x0D c || in_range 0x1C 0x20 c
  || (c =? 0x85) || (c =? 0xA0) || (c =? 0x1680)
  || in_range 0x2000 0x200A c || (c =? 0x2028) || (c =? 0x2029)
  || (c =? 0x202F) || (c =? 0x205F) || (c =? 0x3000).

Fixpoint lstrip_by (f : N -> bool) (s : pystr) : pystr :=
  match s with
  | c :: r => if f c then lstrip_by f r else s
  | [] => []
  end.

Definition strip (s : pystr) : pystr :=
  rev (lstrip_by isspace (rev (lstrip_by isspace s))).

(** ** [int(s)], base 10

    The interpreter supplies two things the program does not define: the
    decimal value of the non-ASCII digits of its Unicode database, and the
    limit on the number of digits of a converted string (0 for no limit). *)

Class Runtime : Type := {
  unicode_decimal : N -> option N;
  int_max_str_digits : N
}.

Section Int.
Context {rt : Runtime}.

Definition isdigit (c : N) : bool := in_range 48 57 c.

(** White space of the C locale, used by the integer parser. *)
Definition c_isspace (c : N) : bool := (c =? 32) || in_range 9 13 c.

Definition todecimal (c : N) : option N :=
  if c <? 128 then (if isdigit c then Some (c - 48) else None)
  else match unicode_decimal c with
       | Some d => if d <? 10 then Some d else None
       | None => None
       end.

(** Non-ASCII spaces become a space, non-ASCII digits their ASCII digit;
    anything else non-ASCII becomes a question mark and ends the text. *)
Fixpoint transform (s : pystr) : pystr :=
  match s with
  | [] => []
  | c :: r =>
    if c <? 127 then c :: transform r
    else if isspace c then 32 :: transform r
    else match todecimal c with
         | Some d => (48 + d) :: transform r
         | None => [63]
         end
  end.

Definition to_ascii (s : pystr) : pystr :=
  if forallb (fun c => c <? 128) s then s else transform s.

(** The digits and single underscores between them: value, number of
    digits and the text that follows; [None] on a doubled or trailing
    underscore. *)
Fixpoint scan_digits (a : pystr) (prev_us : bool) (acc cnt : N)
  : option (N * N * pystr) :=
  match a with
  | [] => if prev_us then None else Some (acc, cnt, [])
  | c :: r =>
    if c =? 95 then (if prev_us then None else scan_digits r true acc cnt)
    else if isdigit c then scan_digits r false (10 * acc + (c - 48)) (cnt + 1)
    else if prev_us then None else Some (acc, cnt, a)
  end.

(** The optional sign in front of the digits. *)
Definition is_sign (c : N) : bool := (c =? 43) || (c =? 45).

Definition negative (a : pystr) : bool :=
  match a with
  | c :: _ => c =? 45
  | [] => false
  end.

Definition after_sign (a : pystr) : pystr :=
  match a with
  | c :: r => if is_sign c then r else a
  | [] => []
  end.

Definition leading_underscore (a : pystr) : bool :=
  match a with
  | c :: _ => c =? 95
  | [] => false
  end.

Definition over_limit (cnt : N) : bool :=
  negb (int_max_str_digits =? 0) && (int_max_str_digits <? cnt).

Definition int (s : pystr) : outcome Z :=
  let a := lstrip_by c_isspace (to_ascii s) in
  let neg := negative a in
  let a := after_sign a in
  if leading_underscore a then Exc ValueError
  else
    match scan_digits a false 0 0 with
    | None => Exc ValueError
    | Some (v, cnt, rest) =>
      if cnt =? 0 then Exc ValueError
      else if negb (forallb c_isspace rest) then Exc ValueError
      else if over_limit cnt then Exc ValueError
      else Ret (if neg then (- Z.of_N v)%Z else Z.of_N v)
    end.

End Int.

End Py.

(* ================================================================== *)
(** * The proxy                                                         *)
(* ================================================================== *)

(** The program talks to two peers, the client and, once connected, the
    destination.  What the peers and the network do is the input of a
    session: the data the client sends, the outcome of each [drain], what
    the connector answers for a host and port, and the order in which the
    two relays of a tunnel take their turns.  What the handler does is
    recorded as a trace of events.  The calls to [print] are left out:
    logging is taken to succeed and has no part in the properties below. *)

Module Proxy.
Import Py.
Local Open Scope py_scope.

Definition BUFFER_SIZE : nat := 4096.
Definition BLOCKED_HOSTS : list pystr := [lit "www.example.com"].

(** What [get_target_host] returns: [Some (host, port)], or [None] for the
    pair [(None, None)] of the not-resolvable result. *)
Definition target : Type := option (pystr * Z).

Section Parser.
Context {rt : Runtime}.

(** The [for line in lines] loop over the header lines. *)
Fixpoint host_loop (lines : list pystr) : outcome target :=
  match lines with
  | [] => Ret None
  | line :: rest =>
    if startswith line (lit "Host:") then
      tok <- index (split chr_SP line) 1 ;;
      Ret (Some (strip tok, 80%Z))
    else host_loop rest
  end.

(** The body of the [try] block. *)
Definition get_target_host_body (request : bytes) : outcome target :=
  request_str <- decode request ;;
  if startswith request_str (lit "CONNECT") then
    target_host_line <- index (split chr_LF request_str) 0 ;;
    target_host_port <- index (split chr_SP target_host_line) 1 ;;
    '(target_host, target_port) <- unpack2 (split chr_COLON target_host_port) ;;
    port <- int target_port ;;
    Ret (Some (target_host, port))
  else
    host_loop (split chr_LF request_str).

Definition get_target_host (request : bytes) : outcome target :=
  otry (get_target_host_body request) (fun _ => Ret None).

End Parser.

(** ** The connections

    What a peer delivers to the successive reads of its stream: some bytes,
    the end of the stream, or a broken connection.  When the list is used
    up the peer stays silent and a read never completes. *)
Inductive arrival : Type :=
| Data (bs : bytes)
| Eof
| Reset.

Definition stream : Type := list arrival.

(** A peer: what it sends, and whether each [drain] towards it returns
    ([true]) or raises because the connection is lost ([false]); once the
    list is used up every [drain] returns.  A [drain] that waits for ever
    on a peer that has stopped reading is not modelled. *)
Record peer : Type := {
  incoming : stream;
  drains : list bool
}.

(** What [asyncio.open_connection] does for a host and port. *)
Inductive connect_result : Type :=
| Accepted (srv : peer)
| Refused
| Unanswered.

Definition connector : Type := pystr -> Z -> connect_result.

(** What the handler does to its two connections, in order. *)
Inductive event : Type :=
| ClientWrite (data : bytes)
| ClientClose
| Dial (host : pystr) (port : Z)
| Opened
| ServerWrite (data : bytes)
| ServerClose.

Record world : Type := {
  client : peer;
  server : option peer;
  net : connector;
  schedule : list bool;
  trace : list event
}.

Definition initial (c : peer) (n : connector) (sched : list bool) : world :=
  {| client := c; server := None; net := n; schedule := sched; trace := [] |}.

Definition emit (e : event) (w : world) : world :=
  {| client := client w; server := server w; net := net w;
     schedule := schedule w; trace := trace w ++ [e] |}.

Definition with_trace (t : list event) (w : world) : world :=
  {| client := client w; server := server w; net := net w;
     schedule := schedule w; trace := t |}.

Definition with_client (c : peer) (w : world) : world :=
  {| client := c; server := server w; net := net w;
     schedule := schedule w; trace := trace w |}.

Definition with_server (s : option peer) (w : world) : world :=
  {| client := client w; server := s; net := net w;
     schedule := schedule w; trace := trace w |}.

(** ** Coroutines: state passing over the world *)

Definition io (A : Type) : Type := world -> outcome A * world.

Definition ret {A} (a : A) : io A := fun w => (Ret a, w).
Definition lift {A} (o : outcome A) : io A := fun w => (o, w).

Definition bind {A B} (m : io A) (k : A -> io B) : io B :=
  fun w =>
    match m w with
    | (Ret a, w') => k a w'
    | (Exc e, w') => (Exc e, w')
    | (Hang, w') => (Hang, w')
    end.

(** [try: m  except Exception: h] *)
Definition try_except {A} (m : io A) (h : exn -> io A) : io A :=
  fun w =>
    match m w with
    | (Exc e, w') => h e w'
    | r => r
    end.

(** [try: m  finally: f] *)
Definition try_finally {A} (m : io A) (f : io unit) : io A :=
  fun w =>
    match m w with
    | (Ret a, w') => bind f (fun _ => ret a) w'
    | (Exc e, w') => bind f (fun _ => lift (Exc e)) w'
    | (Hang, w') => (Hang, w')
    end.

Declare Scope io_scope.
Delimit Scope io_scope with io.
Notation "x <- m ;; k" := (bind m (fun x => k))
  (at level 61, m at next level, right associativity) : io_scope.
Notation "m ;; k" := (bind m (fun _ => k))
  (at level 61, right associativity) : io_scope.

(** The two ends a session talks to. *)
Inductive side : Set := Client | Server.

Definition peer_of (s : side) (w : world) : option peer :=
  match s with
  | Client => Some (client w)
  | Server => server w
  end.

Definition set_peer (s : side) (p : peer) (w : world) : world :=
  match s with
  | Client => with_client p w
  | Server => with_server (Some p) w
  end.

(** [reader.read(n)]: at most [n] of the bytes that are there; what is
    left stays for the next read. *)
Definition read (n : nat) (s : stream) : outcome bytes * stream :=
  match s with
  | [] => (Hang, [])
  | Data bs :: r =>
    if List.length bs <=? n then (Ret bs, r)
    else (Ret (firstn n bs), Data (skipn n bs) :: r)
  | Eof :: _ => (Ret [], s)
  | Reset :: _ => (Exc OSError, s)
  end.

Definition reader_read (s : side) (n : nat) : io bytes :=
  fun w =>
    match peer_of s w with
    | None => (Exc OSError, w)
    | Some p =>
      let '(r, rest) := read n (incoming p) in
      (r, set_peer s {| incoming := rest; drains := drains p |} w)
    end.

Definition write_event (s : side) (data : bytes) : event :=
  match s with
  | Client => ClientWrite data
  | Server => ServerWrite data
  end.

Definition close_event (s : side) : event :=
  match s with
  | Client => ClientClose
  | Server => ServerClose
  end.

Definition writer_write (s : side) (data : bytes) : io unit :=
  fun w => (Ret tt, emit (write_event s data) w).

Definition writer_drain (s : side) : io unit :=
  fun w =>
    match peer_of s w with
    | None => (Exc OSError, w)
    | Some p =>
      match drains p with
      | [] => (Ret tt, w)
      | ok :: rest =>
        (if ok then Ret tt else Exc OSError,
         set_peer s {| incoming := incoming p; drains := rest |} w)
      end
    end.

Definition writer_close (s : side) : io unit :=
  fun w => (Ret tt, emit (close_event s) w).

Definition open_connection (host : pystr) (port : Z) : io unit :=
  fun w =>
    let w1 := emit (Dial host port) w in
    match net w host port with
    | Accepted srv => (Ret tt, emit Opened (with_server (Some srv) w1))
    | Refused => (Exc OSError, w1)
    | Unanswered => (Hang, w1)
    end.

(** [asyncio.gather(a, b)]: each coroutine of a tunnel reads one peer and
    writes to the other, so what both do is an interleaving of what each
    does, picked by the schedule: [true] lets the first go on, [false] the
    second.

    In asyncio the close of a writer also ends the reads on the same
    connection, so that a relay which closes its sink cuts the other
    relay's source short.  That is not computed here: the end of a peer's
    stream is part of the peer, wherever it comes from, and a run in which
    a stream is cut short is the run on the shorter stream.  The
    properties of a tunnel stated below hold for all streams and
    schedules; how much of a stream a tunnel relays depends on when the
    other relay closes, and is left open. *)
Fixpoint merge (sched : list bool) (l1 l2 : list event) : list event :=
  match sched with
  | [] => l1 ++ l2
  | first :: sched' =>
    if first then
      match l1 with
      | x :: l1' => x :: merge sched' l1' l2
      | [] => l2
      end
    else
      match l2 with
      | y :: l2' => y :: merge sched' l1 l2'
      | [] => l1
      end
  end.

Definition join (ra rb : outcome unit) : outcome unit :=
  match ra, rb with
  | Exc e, _ => Exc e
  | _, Exc e => Exc e
  | Ret _, Ret _ => Ret tt
  | _, _ => Hang
  end.

Definition gather (a b : io unit) : io unit :=
  fun w =>
    let '(ra, wa) := a (with_trace [] w) in
    let '(rb, wb) := b (with_trace [] wa) in
    (join ra rb,
     with_trace (trace w ++ merge (schedule w) (trace wa) (trace wb)) wb).

Local Open Scope io_scope.

(** ** The handler *)

Definition forbidden_body : string :=
  "<html><body><h1>403 Forbidden: Access Denied</h1></body></html>".

Definition forbidden_head : string :=
  ("HTTP/1.1 403 Forbidden" ++ CRLF
   ++ "Content-Type: text/html" ++ CRLF
   ++ "Content-Length: 58" ++ CRLF
   ++ CRLF)%string.

Definition forbidden_response : string :=
  (forbidden_head ++ forbidden_body)%string.

Definition send_forbidden : io unit :=
  data <- lift (encode (lit forbidden_response)) ;;
  writer_write Client data ;;
  writer_drain Client ;;
  writer_close Client.

(** The [while True] loop of [relay].  Every turn that goes on has read at
    least one byte, so the bytes still to come (and one) bound the turns;
    [relay] starts the loop with that many. *)
Fixpoint relay_loop (turns : nat) (src dst : side) : io unit :=
  match turns with
  | O => ret tt
  | S turns' =>
    data <- reader_read src BUFFER_SIZE ;;
    match data with
    | [] => ret tt
    | _ :: _ =>
      writer_write dst data ;;
      writer_drain dst ;;
      relay_loop turns' src dst
    end
  end.

Fixpoint pending (s : stream) : nat :=
  match s with
  | [] => 0
  | Data bs :: r => List.length bs + pending r
  | _ :: r => pending r
  end.

Definition turns_of (src : side) (w : world) : nat :=
  match peer_of src w with
  | Some p => S (pending (incoming p))
  | None => 1
  end.

Definition relay (src dst : side) : io unit :=
  try_finally
    (try_except
       (fun w => relay_loop (turns_of src w) src dst w)
       (fun _ => ret tt))
    (writer_close dst).

Definition established : string :=
  ("HTTP/1.1 200 Connection Established" ++ CRLF ++ CRLF)%string.

Definition blocked (host : pystr) : bool :=
  existsb (pystr_eqb host) BLOCKED_HOSTS.

Definition handle_https (target_host : pystr) (target_port : Z) : io unit :=
  if blocked target_host then send_forbidden
  else
    try_except
      (writer_write Client (blit established) ;;
       writer_drain Client ;;
       open_connection target_host target_port ;;
       gather (relay Client Server) (relay Server Client))
      (fun _ => writer_close Client).

Definition forward_http (request : bytes) (target_host : pystr)
           (target_port : Z) : io unit :=
  try_finally
    (try_except
       (open_connection target_host target_port ;;
        writer_write Server request ;;
        writer_drain Server ;;
        relay Server Client)
       (fun _ => ret tt))
    (writer_close Client).

Section Handler.
Context {rt : Runtime}.

Definition handle_client : io unit :=
  try_except
    (request <- reader_read Client BUFFER_SIZE ;;
     _ <- lift (decode request) ;;
     tgt <- lift (get_target_host request) ;;
     match tgt with
     | Some (target_host, target_port) =>
       if blocked target_host then send_forbidden
       else if bstartswith request (blit "CONNECT")
            then handle_https target_host target_port
            else forward_http request target_host target_port
     | None => writer_close Client
     end)
    (fun _ => writer_close Client).

(** One session: the handler run on a fresh connection. *)
Definition session (c : peer) (n : connector) (sched : list bool)
  : outcome unit * world :=
  handle_client (initial c n sched).

End Handler.

End Proxy.

Import Py Proxy.

(** A runtime to run examples with: the default digit limit of CPython, and
    the Arabic-Indic and fullwidth digits as the non-ASCII decimals. *)
Definition sample_runtime : Runtime :=
  {| unicode_decimal := fun c =>
       if in_range 0x660 0x669 c then Some (c - 0x660)%N
       else if in_range 0xFF10 0xFF19 c then Some (c - 0xFF10)%N
       else None;
     int_max_str_digits := 4300 |}.

(** A text with no occurrence of [sep]. *)
Definition free_of (sep : N) (s : pystr) : bool :=
  forallb (fun c => negb (N.eqb c sep)) s.

(** The text before the first [sep] (all of it when there is none). *)
Definition first_field (sep : N) (s : pystr) : pystr :=
  hd [] (split sep s).

(** The value of a text of ASCII digits, most significant first. *)
Definition decimal (ds : pystr) : N :=
  fold_left (fun acc c => (10 * acc + (c - 48))%N) ds 0%N.

(** How a text may go on after a token of the request line. *)
Definition token_ends (rest : pystr) : bool :=
  match rest with
  | [] => true
  | c :: _ => N.eqb c chr_SP || N.eqb c chr_LF
  end.

(** The characters a text that [int] accepts is made of. *)
Definition int_char (c : N) : bool :=
  isdigit c || N.eqb c 95 || is_sign c || c_isspace c.

(** What a trace wrote to one side, write by write. *)
Fixpoint sent_to (s : side) (t : list event) : list bytes :=
  match t with
  | [] => []
  | ClientWrite data :: t' =>
    match s with
    | Client => data :: sent_to s t'
    | Server => sent_to s t'
    end
  | ServerWrite data :: t' =>
    match s with
    | Server => data :: sent_to s t'
    | Client => sent_to s t'
    end
  | _ :: t' => sent_to s t'
  end.

(** The bytes a stream delivers before it ends: its data up to the first
    end of stream, broken connection, empty read or silence. *)
Fixpoint delivered (s : stream) : bytes :=
  match s with
  | Data (b :: bs) :: r => (b :: bs) ++ delivered r
  | _ => []
  end.

(** Every [drain] towards the peer returns. *)
Definition drains_ok (p : peer) : bool := forallb (fun ok => ok) (drains p).

(** The client once the handler has made its first read. *)
Definition after_read (c : peer) (rest : stream) : peer :=
  {| incoming := rest; drains := drains c |}.

(** How a tunnel can go, from the world where the handler has written the
    200 response and its [drain] has returned. *)
Inductive tunnel_run (h : pystr) (p : Z) (n : connector)
          (sched : list bool) : outcome unit -> list event -> Prop :=
| tunnel_refused :
    n h p = Refused ->
    tunnel_run h p n sched (Ret tt) [Dial h p; ClientClose]
| tunnel_unanswered :
    n h p = Unanswered ->
    tunnel_run h p n sched Hang [Dial h p]
| tunnel_relayed srv wsA wsB cA cB r :
    n h p = Accepted srv ->
    cA = [] \/ cA = [ServerClose] ->
    cB = [] \/ cB = [ClientClose] ->
    r = Ret tt /\ cA = [ServerClose] /\ cB = [ClientClose] \/ r = Hang ->
    tunnel_run h p n sched r
      ([Dial h p; Opened]
         ++ merge sched (map (write_event Server) wsA ++ cA)
                        (map (write_event Client) wsB ++ cB)).

(** How a client reads a response: the body is what follows the first
    empty line, and the declared length is the decimal value of the
    [Content-Length] header. *)
Fixpoint message_body (bs : bytes) : bytes :=
  match bs with
  | [] => []
  | _ :: r =>
    if bstartswith bs (blit (CRLF ++ CRLF)) then skipn 4 bs
    else message_body r
  end.

Fixpoint header_value (name : pystr) (lines : list pystr) : option pystr :=
  match lines with
  | [] => None
  | l :: r =>
    if startswith l name then Some (strip (skipn (List.length name) l))
    else header_value name r
  end.

Definition declared_length (response : bytes) : option N :=
  match utf8_decode response with
  | Some s =>
    option_map decimal
               (header_value (lit "Content-Length:") (split chr_LF s))
  | None => None
  end.

(** Peers and connectors to run examples with: a peer that sends one
    piece of data and then ends its stream, a connector that accepts every
    destination with the same server behind it, and one that refuses every
    destination. *)
Definition sending (data : bytes) : peer :=
  {| incoming := [Data data; Eof]; drains := [] |}.

Definition accept_all (srv : peer) : connector := fun _ _ => Accepted srv.

Definition refuse_all : connector := fun _ _ => Refused.

Definition get_example_org : string :=
  ("GET / HTTP/1.1" ++ CRLF ++ "Host: example.org" ++ CRLF ++ CRLF)%string.

Definition get_blocked_host : string :=
  ("GET / HTTP/1.1" ++ CRLF ++ "Host: www.example.com" ++ CRLF ++ CRLF)%string.

Definition get_without_host : string :=
  ("GET / HTTP/1.1" ++ CRLF ++ CRLF)%string.

Definition get_empty_host : string :=
  ("GET / HTTP/1.1" ++ CRLF ++ "Host: " ++ CRLF ++ CRLF)%string.

Definition connect_example_org : string :=
  ("CONNECT example.org:443 HTTP/1.1" ++ CRLF ++ CRLF)%string.

Definition connect_port_70000 : string :=
  ("CONNECT example.org:70000 HTTP/1.1" ++ CRLF ++ CRLF)%string.

(** A client that asks for a tunnel and then sends [ping]. *)
Definition tunnel_client : peer :=
  {| incoming := [Data (blit connect_example_org); Data (blit "ping"); Eof];
     drains := [] |}.

(** A payload that is not text: it does not decode as UTF-8. *)
Definition binary_payload : bytes := [xff; x00; xfe; x80; x0a]%byte.

(** A trace that only writes to one side or closes it. *)
Definition only_side (s : side) (t : list event) : Prop :=
  forall e, In e t -> e = close_event s \/ exists d, e = write_event s d.

(** The destinations a trace calls the connector with, in order. *)
Fixpoint dials (t : list event) : list (pystr * Z) :=
  match t with
  | [] => []
  | Dial h p :: t' => (h, p) :: dials t'
  | _ :: t' => dials t'
  end.

(** A trace in which no write to a side follows a close of that side;
    [closed] tells whether the side has been closed before the trace. *)
Fixpoint ordered (s : side) (closed : bool) (t : list event) : bool :=
  match t with
  | [] => true
  | ClientWrite _ :: t' =>
    match s with
    | Client => negb closed && ordered s closed t'
    | Server => ordered s closed t'
    end
  | ServerWrite _ :: t' =>
    match s with
    | Server => negb closed && ordered s closed t'
    | Client => ordered s closed t'
    end
  | ClientClose :: t' =>
    match s with
    | Client => ordered s true t'
    | Server => ordered s closed t'
    end
  | ServerClose :: t' =>
    match s with
    | Server => ordered s true t'
    | Client => ordered s closed t'
    end
  | _ :: t' => ordered s closed t'
  end.

(** A write of at most [BUFFER_SIZE] bytes, or an event that is no
    write. *)
Definition small (e : event) : Prop :=
  match e with
  | ClientWrite d | ServerWrite d => List.length d <= BUFFER_SIZE
  | _ => True
  end.

Section Runs.
Context {rt : Runtime}.

(** The ways a session can go: what the handler returns and the trace it
    leaves, by what the first read gives, what the parser makes of it and
    what the network does. *)
Inductive session_run (c : peer) (n : connector) (sched : list bool)
  : outcome unit -> list event -> Prop :=
| run_silent rest :
    read BUFFER_SIZE (incoming c) = (Hang, rest) ->
    session_run c n sched Hang []
| run_read_error e rest :
    read BUFFER_SIZE (incoming c) = (Exc e, rest) ->
    session_run c n sched (Ret tt) [ClientClose]
| run_unresolved request rest :
    read BUFFER_SIZE (incoming c) = (Ret request, rest) ->
    get_target_host request = Ret None ->
    session_run c n sched (Ret tt) [ClientClose]
| run_denied request rest h p :
    read BUFFER_SIZE (incoming c) = (Ret request, rest) ->
    get_target_host request = Ret (Some (h, p)) ->
    blocked h = true ->
    session_run c n sched (Ret tt)
                [ClientWrite (blit forbidden_response); ClientClose]
| run_tunnel_lost request rest h p :
    read BUFFER_SIZE (incoming c) = (Ret request, rest) ->
    get_target_host request = Ret (Some (h, p)) ->
    blocked h = false ->
    bstartswith request (blit "CONNECT") = true ->
    hd true (drains c) = false ->
    session_run c n sched (Ret tt)
                [ClientWrite (blit established); ClientClose]
| run_tunnel request rest h p r t :
    read BUFFER_SIZE (incoming c) = (Ret request, rest) ->
    get_target_host request = Ret (Some (h, p)) ->
    blocked h = false ->
    bstartswith request (blit "CONNECT") = true ->
    hd true (drains c) = true ->
    tunnel_run h p n sched r t ->
    session_run c n sched r (ClientWrite (blit established) :: t)
| run_forward_refused request rest h p :
    read BUFFER_SIZE (incoming c) = (Ret request, rest) ->
    get_target_host request = Ret (Some (h, p)) ->
    blocked h = false ->
    bstartswith request (blit "CONNECT") = false ->
    n h p = Refused ->
    session_run c n sched (Ret tt) [Dial h p; ClientClose]
| run_forward_unanswered request rest h p :
    read BUFFER_SIZE (incoming c) = (Ret request, rest) ->
    get_target_host request = Ret (Some (h, p)) ->
    blocked h = false ->
    bstartswith request (blit "CONNECT") = false ->
    n h p = Unanswered ->
    session_run c n sched Hang [Dial h p]
| run_forward request rest h p srv ws closes r :
    read BUFFER_SIZE (incoming c) = (Ret request, rest) ->
    get_target_host request = Ret (Some (h, p)) ->
    blocked h = false ->
    bstartswith request (blit "CONNECT") = false ->
    n h p = Accepted srv ->
    r = Ret tt /\ (closes = [ClientClose; ClientClose]
                   \/ closes = [ClientClose] /\ ws = [])
    \/ r = Hang /\ closes = [] ->
    session_run c n sched r
                (Dial h p :: Opened :: ServerWrite request
                      :: map (write_event Client) ws ++ closes).

End Runs.

(** A coroutine that only adds to the trace, and only events that
    satisfy [Q]. *)
Definition emits {A} (Q : event -> Prop) (m : io A) : Prop :=
  forall w, exists t, trace (snd (m w)) = trace w ++ t /\ Forall Q t.

(** A forward request with a body that is not text, and its head alone. *)
Definition post_example_org : string :=
  ("POST /upload HTTP/1.1" ++ CRLF ++ "Host: example.org" ++ CRLF ++ CRLF)%string.

Definition post_binary_body : bytes := blit post_example_org ++ binary_payload.

(** A [CONNECT] request whose line is well formed and which goes on with
    a byte that is not UTF-8, and one whose port has [digits] digits. *)
Definition connect_then_binary : bytes :=
  blit connect_example_org ++ [xff]%byte.

Definition connect_long_port (digits : nat) : bytes :=
  blit "CONNECT example.org:" ++ repeat "1"%byte digits
       ++ blit (" HTTP/1.1" ++ CRLF ++ CRLF).

(* ================================================================== *)
(** * Facts about the builtins                                          *)
(* ================================================================== *)

Section SplitFacts.

Variable sep : N.

Lemma split_not_nil (s : pystr) : split sep s <> [].
Proof.
  destruct s as [|c r]; simpl; [discriminate|].
  destruct (N.eqb c sep); [discriminate|].
  destruct (split sep r); discriminate.
Qed.

Lemma split_cons_other (c : N) (r : pystr) :
  N.eqb c sep = false ->
  split sep (c :: r) = (c :: hd [] (split sep r)) :: tl (split sep r).
Proof.
  intros Hc. simpl. rewrite Hc.
  destruct (split sep r) eqn:E; [|reflexivity].
  exfalso. exact (split_not_nil r E).
Qed.

Lemma split_app_sep (a b : pystr) :
  free_of sep a = true ->
  split sep (a ++ sep :: b) = a :: split sep b.
Proof.
  induction a as [|c a IH]; intros Hfree.
  - simpl. now rewrite N.eqb_refl.
  - simpl in Hfree. apply andb_true_iff in Hfree as [Hc Ha].
    apply negb_true_iff in Hc.
    change ((c :: a) ++ sep :: b) with (c :: (a ++ sep :: b)).
    rewrite (split_cons_other c _ Hc), (IH Ha). reflexivity.
Qed.

Lemma split_free (a : pystr) :
  free_of sep a = true -> split sep a = [a].
Proof.
  induction a as [|c a IH]; intros Hfree; [reflexivity|].
  simpl in Hfree. apply andb_true_iff in Hfree as [Hc Ha].
  apply negb_true_iff in Hc.
  rewrite (split_cons_other c _ Hc), (IH Ha). reflexivity.
Qed.

Lemma first_field_app (a b : pystr) :
  free_of sep a = true ->
  first_field sep (a ++ b) = a ++ first_field sep b.
Proof.
  unfold first_field.
  induction a as [|c a IH]; intros Hfree; [reflexivity|].
  simpl in Hfree. apply andb_true_iff in Hfree as [Hc Ha].
  apply negb_true_iff in Hc.
  change ((c :: a) ++ b) with (c :: (a ++ b)).
  rewrite (split_cons_other c _ Hc). simpl. now rewrite (IH Ha).
Qed.

Lemma first_field_sep (b : pystr) : first_field sep (sep :: b) = [].
Proof. unfold first_field. simpl. now rewrite N.eqb_refl. Qed.

Lemma index_split_0 (s : pystr) :
  index (split sep s) 0 = Ret (first_field sep s).
Proof.
  unfold index, first_field.
  destruct (split sep s) eqn:E; [|reflexivity].
  exfalso. exact (split_not_nil s E).
Qed.

Lemma free_of_app (a b : pystr) :
  free_of sep (a ++ b) = free_of sep a && free_of sep b.
Proof. apply forallb_app. Qed.

End SplitFacts.

(** Boolean tests on code points, turned into arithmetic for [lia]. *)
Ltac bool_to_prop :=
  repeat match goal with
  | H : (_ && _)%bool = true |- _ => apply andb_true_iff in H; destruct H
  | H : (_ || _)%bool = false |- _ => apply orb_false_iff in H; destruct H
  | H : negb _ = true |- _ => apply negb_true_iff in H
  | H : negb _ = false |- _ => apply negb_false_iff in H
  | H : N.eqb _ _ = true |- _ => apply N.eqb_eq in H
  | H : N.eqb _ _ = false |- _ => apply N.eqb_neq in H
  | H : N.leb _ _ = true |- _ => apply N.leb_le in H
  | H : N.leb _ _ = false |- _ => apply N.leb_gt in H
  | H : N.ltb _ _ = true |- _ => apply N.ltb_lt in H
  | H : N.ltb _ _ = false |- _ => apply N.ltb_ge in H
  end.

Lemma isdigit_bounds (c : N) : isdigit c = true -> (48 <= c <= 57)%N.
Proof. unfold isdigit, in_range. intros H. bool_to_prop. lia. Qed.

Lemma isdigit_not (c d : N) :
  isdigit c = true -> (d < 48 \/ 57 < d)%N -> N.eqb c d = false.
Proof. intros H Hd. apply isdigit_bounds in H. apply N.eqb_neq. lia. Qed.

Lemma digits_free_of (sep : N) (ds : pystr) :
  (sep < 48 \/ 57 < sep)%N ->
  forallb isdigit ds = true -> free_of sep ds = true.
Proof.
  intros Hsep. induction ds as [|c ds IH]; simpl; [reflexivity|].
  intros H. bool_to_prop.
  rewrite (isdigit_not c sep) by assumption. simpl. now apply IH.
Qed.

Lemma lstrip_by_head (f : N -> bool) (c : N) (r : pystr) :
  f c = false -> lstrip_by f (c :: r) = c :: r.
Proof. intros H. simpl. now rewrite H. Qed.

Lemma lstrip_by_app_all (f : N -> bool) (a b : pystr) :
  forallb f a = true -> lstrip_by f (a ++ b) = lstrip_by f b.
Proof.
  induction a as [|c a IH]; simpl; [reflexivity|].
  intros H. apply andb_true_iff in H as [Hc Ha]. rewrite Hc. now apply IH.
Qed.

(** What [lstrip_by] removes is a run of characters that satisfy [f]. *)
Lemma lstrip_by_split (f : N -> bool) (s : pystr) :
  exists a, s = a ++ lstrip_by f s /\ forallb f a = true.
Proof.
  induction s as [|c r [a [Ha Hall]]]; [now exists []|].
  simpl. destruct (f c) eqn:Hc.
  - exists (c :: a). simpl. rewrite Hc, Hall. split; [now f_equal|reflexivity].
  - now exists [].
Qed.

Section IntFacts.
Context {rt : Runtime}.

Lemma to_ascii_digits (ds : pystr) :
  forallb isdigit ds = true -> to_ascii ds = ds.
Proof.
  intros H. unfold to_ascii.
  replace (forallb (fun c => N.ltb c 128) ds) with true; [reflexivity|].
  symmetry. rewrite forallb_forall in *. intros c Hc.
  specialize (H c Hc). apply isdigit_bounds in H. apply N.ltb_lt. lia.
Qed.

Lemma scan_digits_all (ds : pystr) :
  forallb isdigit ds = true ->
  forall acc cnt,
    scan_digits ds false acc cnt
    = Some (fold_left (fun a c => (10 * a + (c - 48))%N) ds acc,
            (cnt + N.of_nat (List.length ds))%N, []).
Proof.
  induction ds as [|c ds IH]; intros H acc cnt.
  - simpl. now rewrite N.add_0_r.
  - simpl in H. apply andb_true_iff in H as [Hc Hds].
    cbn [scan_digits]. rewrite (isdigit_not c 95 Hc) by lia. rewrite Hc.
    rewrite (IH Hds). cbn [fold_left List.length]. do 3 f_equal. lia.
Qed.

(** [int] on a text of ASCII digits is its decimal value, as long as the
    runtime's limit on the number of digits allows the conversion. *)
Lemma int_digits (ds : pystr) :
  forallb isdigit ds = true ->
  ds <> [] ->
  (int_max_str_digits = 0 \/ N.of_nat (List.length ds) <= int_max_str_digits)%N ->
  int ds = Ret (Z.of_N (decimal ds)).
Proof.
  intros Hds Hne Hlim. unfold int.
  rewrite (to_ascii_digits ds Hds).
  destruct ds as [|c r]; [contradiction|].
  pose proof Hds as Hall.
  simpl in Hds. apply andb_true_iff in Hds as [Hc Hr].
  assert (Hsp : c_isspace c = false).
  { unfold c_isspace, in_range. pose proof (isdigit_bounds c Hc).
    apply orb_false_iff. split; [apply N.eqb_neq; lia|].
    apply andb_false_iff. right. apply N.leb_gt. lia. }
  rewrite (lstrip_by_head c_isspace c r Hsp).
  assert (Hsign : is_sign c = false).
  { unfold is_sign. now rewrite (isdigit_not c 43 Hc), (isdigit_not c 45 Hc) by lia. }
  unfold negative, after_sign. rewrite Hsign.
  unfold leading_underscore.
  rewrite (isdigit_not c 45 Hc), (isdigit_not c 95 Hc) by lia.
  rewrite (scan_digits_all (c :: r) Hall).
  replace (N.eqb (0 + N.of_nat (List.length (c :: r))) 0) with false
    by (symmetry; apply N.eqb_neq; simpl; lia).
  cbn [forallb negb].
  replace (over_limit (0 + N.of_nat (List.length (c :: r)))) with false.
  - reflexivity.
  - symmetry. unfold over_limit. destruct Hlim as [H0|Hle].
    + rewrite H0. reflexivity.
    + apply andb_false_iff. right. apply N.ltb_ge. lia.
Qed.

(** [int] refuses a text of more ASCII digits than the runtime's limit. *)
Lemma int_digits_over_limit (ds : pystr) :
  forallb isdigit ds = true ->
  int_max_str_digits <> 0%N ->
  (int_max_str_digits < N.of_nat (List.length ds))%N ->
  int ds = Exc ValueError.
Proof.
  intros Hds Hlim Hover. unfold int.
  rewrite (to_ascii_digits ds Hds).
  destruct ds as [|c r]; [simpl in Hover; lia|].
  pose proof Hds as Hall.
  simpl in Hds. apply andb_true_iff in Hds as [Hc Hr].
  assert (Hsp : c_isspace c = false).
  { unfold c_isspace, in_range. pose proof (isdigit_bounds c Hc).
    apply orb_false_iff. split; [apply N.eqb_neq; lia|].
    apply andb_false_iff. right. apply N.leb_gt. lia. }
  rewrite (lstrip_by_head c_isspace c r Hsp).
  assert (Hsign : is_sign c = false).
  { unfold is_sign. now rewrite (isdigit_not c 43 Hc), (isdigit_not c 45 Hc) by lia. }
  unfold negative, after_sign. rewrite Hsign.
  unfold leading_underscore.
  rewrite (isdigit_not c 45 Hc), (isdigit_not c 95 Hc) by lia.
  rewrite (scan_digits_all (c :: r) Hall).
  replace (N.eqb (0 + N.of_nat (List.length (c :: r))) 0) with false
    by (symmetry; apply N.eqb_neq; simpl; lia).
  cbn [forallb negb].
  replace (over_limit (0 + N.of_nat (List.length (c :: r)))) with true;
    [reflexivity|].
  symmetry. unfold over_limit. apply andb_true_iff. split.
  - apply negb_true_iff, N.eqb_neq. exact Hlim.
  - apply N.ltb_lt. lia.
Qed.

(** [int] either returns or raises: it always completes. *)
Lemma int_completes (s : pystr) : int s <> Hang.
Proof.
  unfold int.
  destruct (leading_underscore _); [discriminate|].
  destruct (scan_digits _ _ _ _) as [[[v cnt] rest]|]; [|discriminate].
  destruct (N.eqb cnt 0); [discriminate|].
  destruct (negb _); [discriminate|].
  destruct (over_limit _); discriminate.
Qed.

Lemma scan_digits_consumed (a : pystr) :
  forall prev acc cnt v n rest,
    scan_digits a prev acc cnt = Some (v, n, rest) ->
    exists used, a = used ++ rest /\ forallb int_char used = true.
Proof.
  induction a as [|c r IH]; intros prev acc cnt v n rest H.
  - simpl in H. destruct prev; [discriminate|].
    inversion H; subst. now exists [].
  - cbn [scan_digits] in H. destruct (N.eqb c 95) eqn:Hus.
    + destruct prev; [discriminate|].
      apply IH in H as [used [Hu Hall]].
      exists (c :: used). split; [simpl; now f_equal|].
      cbn [forallb]. rewrite Hall. unfold int_char. rewrite Hus.
      now rewrite orb_true_r.
    + destruct (isdigit c) eqn:Hd.
      * apply IH in H as [used [Hu Hall]].
        exists (c :: used). split; [simpl; now f_equal|].
        cbn [forallb]. rewrite Hall. unfold int_char. now rewrite Hd.
      * destruct prev; [discriminate|].
        inversion H; subst. now exists [].
Qed.

Lemma c_isspace_int_char (a : pystr) :
  forallb c_isspace a = true -> forallb int_char a = true.
Proof.
  rewrite !forallb_forall. intros H c Hc. unfold int_char.
  rewrite (H c Hc). now rewrite orb_true_r.
Qed.

(** A text that [int] converts is made of digits, underscores, a sign and
    white space only, once its non-ASCII characters are translated. *)
Lemma int_accepts_int_chars (s : pystr) (n : Z) :
  int s = Ret n -> forallb int_char (to_ascii s) = true.
Proof.
  unfold int. intros H.
  destruct (lstrip_by_split c_isspace (to_ascii s)) as [sp [Hsplit Hsp]].
  rewrite Hsplit. set (a := lstrip_by c_isspace (to_ascii s)) in *.
  rewrite forallb_app, (c_isspace_int_char sp Hsp). cbn [andb].
  destruct (leading_underscore (after_sign a)); [discriminate|].
  destruct (scan_digits (after_sign a) false 0 0) as [[[v cnt] rest]|] eqn:Hscan;
    [|discriminate].
  destruct (N.eqb cnt 0); [discriminate|].
  destruct (forallb c_isspace rest) eqn:Hrest; [|discriminate].
  apply scan_digits_consumed in Hscan as [used [Hu Hall]].
  assert (Hafter : forallb int_char (after_sign a) = true).
  { rewrite Hu, forallb_app, Hall. cbn [andb].
    now apply c_isspace_int_char. }
  clear - Hafter. destruct a as [|c r]; [reflexivity|].
  unfold after_sign in Hafter. destruct (is_sign c) eqn:Hs.
  - cbn [forallb]. rewrite Hafter. unfold int_char. rewrite Hs.
    now rewrite orb_true_r.
  - exact Hafter.
Qed.

(** The translation keeps an ASCII character that [int] cannot accept, or
    puts a question mark, which [int] cannot accept either. *)
Lemma transform_keeps_bad (s : pystr) (c : N) :
  In c s -> (c < 127)%N -> int_char c = false ->
  forallb int_char (transform s) = false.
Proof.
  induction s as [|x r IH]; intros Hin Hlt Hbad; [contradiction|].
  cbn [transform]. destruct (N.ltb x 127) eqn:Hx.
  - destruct Hin as [->|Hin].
    + cbn [forallb]. now rewrite Hbad.
    + cbn [forallb]. rewrite (IH Hin Hlt Hbad). apply andb_false_r.
  - assert (Hin' : In c r).
    { destruct Hin as [->|Hin]; [|exact Hin].
      apply N.ltb_ge in Hx. lia. }
    destruct (isspace x).
    + cbn [forallb]. rewrite (IH Hin' Hlt Hbad). apply andb_false_r.
    + destruct (todecimal x).
      * cbn [forallb]. rewrite (IH Hin' Hlt Hbad). apply andb_false_r.
      * reflexivity.
Qed.

Lemma to_ascii_keeps_bad (s : pystr) (c : N) :
  In c s -> (c < 127)%N -> int_char c = false ->
  forallb int_char (to_ascii s) = false.
Proof.
  intros Hin Hlt Hbad. unfold to_ascii.
  destruct (forallb _ s).
  - apply not_true_is_false. intros H. rewrite forallb_forall in H.
    rewrite (H c Hin) in Hbad. discriminate.
  - now apply (transform_keeps_bad s c).
Qed.

(** [int] raises [ValueError] on the empty text and on a text that holds
    an ASCII character other than a digit, underscore, sign or space. *)
Lemma int_rejects (s : pystr) :
  s = [] \/ (exists c, In c s /\ (c < 127)%N /\ int_char c = false) ->
  exists e, int s = Exc e.
Proof.
  intros H. destruct (int s) as [n|e|] eqn:E.
  - exfalso. destruct H as [->|[c [Hin [Hlt Hbad]]]].
    + discriminate.
    + apply int_accepts_int_chars in E.
      rewrite (to_ascii_keeps_bad s c Hin Hlt Hbad) in E. discriminate.
  - now exists e.
  - exfalso. exact (int_completes s E).
Qed.

End IntFacts.

Section SplitCounting.

Variable sep : N.

Lemma split_length_cons (c : N) (r : pystr) :
  List.length (split sep (c :: r))
  = if N.eqb c sep then S (List.length (split sep r))
    else List.length (split sep r).
Proof.
  simpl. destruct (N.eqb c sep); [reflexivity|].
  destruct (split sep r) eqn:E; [|reflexivity].
  exfalso. exact (split_not_nil sep r E).
Qed.

Lemma split_length_app (a b : pystr) :
  List.length (split sep (a ++ b)) + 1
  = List.length (split sep a) + List.length (split sep b).
Proof.
  induction a as [|c a IH].
  - simpl. lia.
  - change ((c :: a) ++ b) with (c :: (a ++ b)).
    rewrite !split_length_cons. destruct (N.eqb c sep); lia.
Qed.

Lemma split_length_pos (s : pystr) : 1 <= List.length (split sep s).
Proof.
  pose proof (split_not_nil sep s). destruct (split sep s); simpl; [contradiction|lia].
Qed.

(** Two separators make at least three fields. *)
Lemma split_two_seps (a b c : pystr) :
  3 <= List.length (split sep (a ++ sep :: b ++ sep :: c)).
Proof.
  pose proof (split_length_app a (sep :: b ++ sep :: c)) as H1.
  pose proof (split_length_cons sep (b ++ sep :: c)) as H2.
  rewrite N.eqb_refl in H2.
  pose proof (split_length_app b (sep :: c)) as H3.
  pose proof (split_length_cons sep c) as H4.
  rewrite N.eqb_refl in H4.
  pose proof (split_length_pos a). pose proof (split_length_pos b).
  pose proof (split_length_pos c). lia.
Qed.

Lemma not_free_of (s : pystr) :
  free_of sep s = false -> exists a b, s = a ++ sep :: b.
Proof.
  induction s as [|c r IH]; [discriminate|].
  simpl. destruct (N.eqb c sep) eqn:E.
  - intros _. apply N.eqb_eq in E. subst. now exists [], r.
  - simpl. intros H. destruct (IH H) as [a [b ->]]. now exists (c :: a), b.
Qed.

End SplitCounting.

Lemma unpack2_long {A} (l : list A) :
  3 <= List.length l -> unpack2 l = Exc ValueError.
Proof.
  destruct l as [|a [|b [|c l]]]; simpl; intros H; try lia; reflexivity.
Qed.

(** ** [str.strip] *)

Lemma lstrip_by_none (f : N -> bool) (s : pystr) :
  forallb (fun c => negb (f c)) s = true -> lstrip_by f s = s.
Proof.
  destruct s as [|c r]; [reflexivity|]. simpl.
  intros H. apply andb_true_iff in H as [Hc _].
  apply negb_true_iff in Hc. now rewrite Hc.
Qed.

Lemma lstrip_by_all (f : N -> bool) (s : pystr) :
  forallb f s = true -> lstrip_by f s = [].
Proof.
  intros H. rewrite <- (app_nil_r s). now rewrite lstrip_by_app_all.
Qed.

Lemma forallb_rev {A} (f : A -> bool) (l : list A) :
  forallb f (rev l) = forallb f l.
Proof.
  induction l as [|x l IH]; [reflexivity|].
  simpl. rewrite forallb_app, IH. simpl. rewrite andb_true_r. apply andb_comm.
Qed.

(** Stripping a text with no white space inside, followed by white space
    only, gives that text. *)
Lemma strip_trailing (h ws : pystr) :
  forallb (fun c => negb (isspace c)) h = true ->
  forallb isspace ws = true ->
  strip (h ++ ws) = h.
Proof.
  intros Hh Hws. unfold strip.
  destruct h as [|c h'].
  - simpl. rewrite (lstrip_by_all isspace ws Hws). reflexivity.
  - assert (Hc : isspace c = false).
    { simpl in Hh. apply andb_true_iff in Hh as [Hc _].
      now apply negb_true_iff in Hc. }
    change ((c :: h') ++ ws) with (c :: (h' ++ ws)).
    rewrite (lstrip_by_head isspace c (h' ++ ws) Hc).
    change (c :: (h' ++ ws)) with ((c :: h') ++ ws).
    rewrite rev_app_distr, lstrip_by_app_all by now rewrite forallb_rev.
    rewrite lstrip_by_none by now rewrite forallb_rev.
    apply rev_involutive.
Qed.

(* ================================================================== *)
(** * The head parser                                                   *)
(* ================================================================== *)

Section ParserFacts.
Context {rt : Runtime}.
Local Open Scope py_scope.

Lemma index_completes {A} (l : list A) (i : nat) : index l i <> Hang.
Proof. unfold index. destruct (nth_error l i); discriminate. Qed.

Lemma host_loop_completes (lines : list pystr) : host_loop lines <> Hang.
Proof.
  induction lines as [|line rest IH]; simpl; [discriminate|].
  destruct (startswith line (lit "Host:")); [|exact IH].
  unfold index. destruct (nth_error _ 1); discriminate.
Qed.

Lemma get_target_host_body_completes (request : bytes) :
  get_target_host_body request <> Hang.
Proof.
  unfold get_target_host_body, decode.
  destruct (utf8_decode request) as [s|]; [|discriminate].
  cbn [obind]. destruct (startswith s (lit "CONNECT")).
  - rewrite index_split_0. cbn [obind].
    unfold index. destruct (nth_error _ 1) as [tok|]; [|discriminate].
    cbn [obind]. unfold unpack2.
    destruct (split chr_COLON tok) as [|h [|p [|x l]]]; try discriminate.
    cbn [obind]. pose proof (int_completes p).
    destruct (int p); [discriminate|discriminate|contradiction].
  - apply host_loop_completes.
Qed.

(** What the parser returns once the request has been decoded. *)
Lemma get_target_host_connect (request : bytes) (s : pystr) :
  utf8_decode request = Some s ->
  startswith s (lit "CONNECT") = true ->
  get_target_host request
  = otry (target_host_port <- index (split chr_SP (first_field chr_LF s)) 1 ;;
          '(target_host, target_port) <-
             unpack2 (split chr_COLON target_host_port) ;;
          port <- int target_port ;;
          Ret (Some (target_host, port)))
         (fun _ => Ret None).
Proof.
  intros Hdec Hstart.
  unfold get_target_host, get_target_host_body, decode.
  rewrite Hdec. cbn [obind]. rewrite Hstart, index_split_0. reflexivity.
Qed.

Lemma get_target_host_plain (request : bytes) (s : pystr) :
  utf8_decode request = Some s ->
  startswith s (lit "CONNECT") = false ->
  get_target_host request
  = otry (host_loop (split chr_LF s)) (fun _ => Ret None).
Proof.
  intros Hdec Hstart.
  unfold get_target_host, get_target_host_body, decode.
  rewrite Hdec. cbn [obind]. now rewrite Hstart.
Qed.

(** The second field of the request line of [CONNECT tok...]. *)
Lemma request_token (tok rest : pystr) :
  free_of chr_SP tok = true ->
  free_of chr_LF tok = true ->
  token_ends rest = true ->
  index (split chr_SP (first_field chr_LF (lit "CONNECT " ++ tok ++ rest))) 1
  = Ret tok.
Proof.
  intros Hsp Hlf Hend.
  rewrite (first_field_app chr_LF (lit "CONNECT ")) by reflexivity.
  rewrite (first_field_app chr_LF tok) by assumption.
  change (lit "CONNECT ") with (lit "CONNECT" ++ [chr_SP]).
  rewrite <- app_assoc.
  change ([chr_SP] ++ tok ++ first_field chr_LF rest)
    with (chr_SP :: (tok ++ first_field chr_LF rest)).
  rewrite (split_app_sep chr_SP (lit "CONNECT")) by reflexivity.
  destruct rest as [|c r].
  - change (first_field chr_LF []) with (@nil N).
    rewrite app_nil_r, (split_free chr_SP tok Hsp). reflexivity.
  - simpl in Hend. apply orb_true_iff in Hend as [Hc|Hc];
      apply N.eqb_eq in Hc; subst c.
    + change (first_field chr_LF (chr_SP :: r))
        with (first_field chr_LF ([chr_SP] ++ r)).
      rewrite (first_field_app chr_LF [chr_SP] r) by reflexivity.
      change ([chr_SP] ++ first_field chr_LF r)
        with (chr_SP :: first_field chr_LF r).
      rewrite (split_app_sep chr_SP tok) by assumption. reflexivity.
    + rewrite first_field_sep, app_nil_r, (split_free chr_SP tok Hsp).
      reflexivity.
Qed.

Lemma connect_request_starts (x : pystr) :
  startswith (lit "CONNECT " ++ x) (lit "CONNECT") = true.
Proof. reflexivity. Qed.

(** When the second field of a CONNECT line is [tok], the result depends
    on [tok] alone. *)
Lemma get_target_host_token (request : bytes) (tok rest : pystr) :
  utf8_decode request = Some (lit "CONNECT " ++ tok ++ rest) ->
  free_of chr_SP tok = true ->
  free_of chr_LF tok = true ->
  token_ends rest = true ->
  get_target_host request
  = otry ('(target_host, target_port) <- unpack2 (split chr_COLON tok) ;;
          port <- int target_port ;;
          Ret (Some (target_host, port)))
         (fun _ => Ret None).
Proof.
  intros Hdec Hsp Hlf Hend.
  rewrite (get_target_host_connect request _ Hdec (connect_request_starts _)).
  rewrite (request_token tok rest Hsp Hlf Hend). reflexivity.
Qed.

(** C9.  The head parser is total: whatever the bytes, it returns, and it
    returns the not-resolvable result whenever its body raises, a failure
    to decode the bytes as UTF-8 included. *)
Theorem get_target_host_total (request : bytes) :
  exists t,
    get_target_host request = Ret t
    /\ (forall e, get_target_host_body request = Exc e -> t = None)
    /\ (utf8_decode request = None -> t = None).
Proof.
  unfold get_target_host.
  pose proof (get_target_host_body_completes request) as Hc.
  assert (Hdec : utf8_decode request = None ->
                 get_target_host_body request = Exc UnicodeDecodeError).
  { intros H. unfold get_target_host_body, decode. now rewrite H. }
  destruct (get_target_host_body request) as [t|e|] eqn:E.
  - exists t. split; [reflexivity|]. split.
    + intros e H. discriminate.
    + intros H. apply Hdec in H. discriminate.
  - exists None. simpl. auto.
  - contradiction.
Qed.

(** A read that is not UTF-8 as a whole is not resolved, whatever its
    lines are: the parser decodes all of it before it looks at any. *)
Lemma get_target_host_undecodable (request : bytes) :
  utf8_decode request = None -> get_target_host request = Ret None.
Proof.
  intros H. unfold get_target_host, get_target_host_body, decode.
  now rewrite H.
Qed.

Lemma otry_exc {A} (m : outcome A) (a : A) :
  (exists e, m = Exc e) -> otry m (fun _ => Ret a) = Ret a.
Proof. intros [e ->]. reflexivity. Qed.

(** C6 (amended).  For a request that is valid UTF-8 as a whole and
    begins with [CONNECT] and a space, whose request line has as second
    field (fields being what single spaces separate) a token [host:port]
    with no colon inside [host] and [port] a non-empty run of ASCII digits
    no longer than the runtime's limit on the digits of an integer, the
    parser returns exactly that host and the decimal value of the port.
    For such a request, a token without a colon, a token with two colons
    or more, a port that is empty or holds a character below U+007F other
    than a digit, underscore, sign or white space, and a port of more
    digits than the runtime's limit all give the not-resolvable result.
    So does a valid UTF-8 request that begins with [CONNECT] and whose
    request line holds no space.  A request that is not valid UTF-8 as a
    whole is not-resolvable whatever its request line is. *)
Theorem connect_line_parsed :
  (forall (request : bytes) (tok rest : pystr),
      utf8_decode request = Some (lit "CONNECT " ++ tok ++ rest) ->
      free_of chr_SP tok = true ->
      free_of chr_LF tok = true ->
      token_ends rest = true ->
      (forall host port,
          tok = host ++ chr_COLON :: port ->
          free_of chr_COLON host = true ->
          forallb isdigit port = true ->
          port <> [] ->
          (int_max_str_digits = 0
           \/ N.of_nat (List.length port) <= int_max_str_digits)%N ->
          get_target_host request
          = Ret (Some (host, Z.of_N (decimal port))))
      /\ (free_of chr_COLON tok = true ->
          get_target_host request = Ret None)
      /\ (forall a b c,
             tok = a ++ chr_COLON :: b ++ chr_COLON :: c ->
             get_target_host request = Ret None)
      /\ (forall host port,
             tok = host ++ chr_COLON :: port ->
             port = []
             \/ (exists c, In c port /\ (c < 127)%N /\ int_char c = false) ->
             get_target_host request = Ret None)
      /\ (forall host port,
             tok = host ++ chr_COLON :: port ->
             free_of chr_COLON host = true ->
             forallb isdigit port = true ->
             int_max_str_digits <> 0%N ->
             (int_max_str_digits < N.of_nat (List.length port))%N ->
             get_target_host request = Ret None))
  /\ (forall (request : bytes) (s : pystr),
         utf8_decode request = Some s ->
         startswith s (lit "CONNECT") = true ->
         free_of chr_SP (first_field chr_LF s) = true ->
         get_target_host request = Ret None)
  /\ (forall request : bytes,
         utf8_decode request = None ->
         get_target_host request = Ret None).
Proof.
  split; [|split; [|exact get_target_host_undecodable]].
  - intros request tok rest Hdec Hsp Hlf Hend.
    rewrite (get_target_host_token request tok rest Hdec Hsp Hlf Hend).
    assert (Htwo : forall a b c,
               tok = a ++ chr_COLON :: b ++ chr_COLON :: c ->
               otry ('(target_host, target_port) <-
                        unpack2 (split chr_COLON tok) ;;
                     port <- int target_port ;;
                     Ret (Some (target_host, port)))
                    (fun _ => Ret None) = Ret None).
    { intros a b c ->.
      rewrite (unpack2_long _ (split_two_seps chr_COLON a b c)).
      reflexivity. }
    split; [|split; [|split; [|split]]].
    + intros host port -> Hhost Hdig Hne Hlim.
      rewrite (split_app_sep chr_COLON host port Hhost).
      rewrite (split_free chr_COLON port)
        by (apply digits_free_of; [unfold chr_COLON; lia|assumption]).
      cbn [unpack2 obind]. rewrite (int_digits port Hdig Hne Hlim).
      reflexivity.
    + intros Hfree. rewrite (split_free chr_COLON tok Hfree). reflexivity.
    + exact Htwo.
    + intros host port -> Hbad.
      destruct (free_of chr_COLON host) eqn:Hh.
      * destruct (free_of chr_COLON port) eqn:Hp.
        -- rewrite (split_app_sep chr_COLON host port Hh).
           rewrite (split_free chr_COLON port Hp).
           cbn [unpack2 obind].
           destruct (int_rejects port Hbad) as [e ->]. reflexivity.
        -- destruct (not_free_of chr_COLON port Hp) as [b [c ->]].
           exact (Htwo host b c eq_refl).
      * destruct (not_free_of chr_COLON host Hh) as [a [b ->]].
        apply (Htwo a b port). now rewrite <- app_assoc.
    + intros host port -> Hhost Hdig Hlim Hover.
      rewrite (split_app_sep chr_COLON host port Hhost).
      rewrite (split_free chr_COLON port)
        by (apply digits_free_of; [unfold chr_COLON; lia|assumption]).
      cbn [unpack2 obind]. rewrite (int_digits_over_limit port Hdig Hlim Hover).
      reflexivity.
  - intros request s Hdec Hstart Hfree.
    rewrite (get_target_host_connect request s Hdec Hstart).
    rewrite (split_free chr_SP _ Hfree). reflexivity.
Qed.

(** The [for] loop skips the lines that do not begin with [Host:]. *)
Lemma host_loop_skip (pre : list pystr) (rest : list pystr) :
  forallb (fun l => negb (startswith l (lit "Host:"))) pre = true ->
  host_loop (pre ++ rest) = host_loop rest.
Proof.
  induction pre as [|l pre IH]; [reflexivity|].
  simpl. intros H. apply andb_true_iff in H as [Hl Hpre].
  apply negb_true_iff in Hl. rewrite Hl. now apply IH.
Qed.

(** C7 (amended).  For a request that is valid UTF-8 as a whole and does
    not begin with [CONNECT], take the first of its lines (what line
    feeds separate) that begins with [Host:].  If that line holds a space,
    the parser returns what stands between its first and its second space
    (or the end of the line), stripped of white space, with port 80: for a
    line [Host: h] followed by white space other than a space (a carriage
    return), that is [h] and 80.  If that line holds no space, or no line
    begins with [Host:], the result is not-resolvable.  A request that is
    not valid UTF-8 as a whole is not-resolvable whatever lines it has. *)
Theorem host_header_parsed :
  (forall (request : bytes) (s : pystr) (pre post : list pystr) (line : pystr),
      utf8_decode request = Some s ->
      startswith s (lit "CONNECT") = false ->
      split chr_LF s = pre ++ line :: post ->
      forallb (fun l => negb (startswith l (lit "Host:"))) pre = true ->
      startswith line (lit "Host:") = true ->
      (forall name tok tail,
          line = name ++ chr_SP :: tok ++ tail ->
          free_of chr_SP name = true ->
          free_of chr_SP tok = true ->
          tail = [] \/ (exists r, tail = chr_SP :: r) ->
          get_target_host request = Ret (Some (strip tok, 80%Z)))
      /\ (forall h ws,
             line = lit "Host: " ++ h ++ ws ->
             forallb (fun c => negb (isspace c)) h = true ->
             forallb isspace ws = true ->
             free_of chr_SP ws = true ->
             get_target_host request = Ret (Some (h, 80%Z)))
      /\ (free_of chr_SP line = true ->
          get_target_host request = Ret None))
  /\ (forall (request : bytes) (s : pystr),
         utf8_decode request = Some s ->
         startswith s (lit "CONNECT") = false ->
         forallb (fun l => negb (startswith l (lit "Host:")))
                 (split chr_LF s) = true ->
         get_target_host request = Ret None)
  /\ (forall request : bytes,
         utf8_decode request = None ->
         get_target_host request = Ret None).
Proof.
  split; [|split; [|exact get_target_host_undecodable]].
  - intros request s pre post line Hdec Hplain Hlines Hpre Hline.
    rewrite (get_target_host_plain request s Hdec Hplain), Hlines.
    rewrite (host_loop_skip pre (line :: post) Hpre).
    cbn [host_loop]. rewrite Hline.
    assert (Hfirst : forall name tok tail,
               line = name ++ chr_SP :: tok ++ tail ->
               free_of chr_SP name = true ->
               free_of chr_SP tok = true ->
               tail = [] \/ (exists r, tail = chr_SP :: r) ->
               otry (tok0 <- index (split chr_SP line) 1 ;;
                     Ret (Some (strip tok0, 80%Z)))
                    (fun _ => Ret None)
               = Ret (Some (strip tok, 80%Z))).
    { intros name tok tail -> Hname Htok [->|[r ->]];
        rewrite (split_app_sep chr_SP name _ Hname).
      - rewrite app_nil_r, (split_free chr_SP tok Htok). reflexivity.
      - rewrite (split_app_sep chr_SP tok r Htok). reflexivity. }
    split; [exact Hfirst|split].
    + intros h ws -> Hh Hws Hfree.
      rewrite <- (strip_trailing h ws Hh Hws) at 2.
      apply (Hfirst (lit "Host:") (h ++ ws) []).
      * now rewrite app_nil_r.
      * reflexivity.
      * rewrite free_of_app, Hfree, andb_true_r.
        unfold free_of. rewrite forallb_forall in *.
        intros c Hc. specialize (Hh c Hc).
        destruct (N.eqb c chr_SP) eqn:E; [|reflexivity].
        apply N.eqb_eq in E. subst c. discriminate.
      * now left.
    + intros Hfree. rewrite (split_free chr_SP line Hfree). reflexivity.
  - intros request s Hdec Hplain Hnone.
    rewrite (get_target_host_plain request s Hdec Hplain).
    rewrite <- (app_nil_r (split chr_LF s)).
    rewrite (host_loop_skip _ [] Hnone). reflexivity.
Qed.

End ParserFacts.

(** C6, witness: [CONNECT example.org:443 HTTP/1.1]. *)
Lemma connect_line_parsed_witness :
  @get_target_host sample_runtime
    (blit ("CONNECT example.org:443 HTTP/1.1" ++ CRLF ++ CRLF))
  = Ret (Some (lit "example.org", 443%Z)).
Proof.
  refine (proj1 (proj1 (@connect_line_parsed sample_runtime)
                   (blit ("CONNECT example.org:443 HTTP/1.1" ++ CRLF ++ CRLF))
                   (lit "example.org:443")
                   (lit (" HTTP/1.1" ++ CRLF ++ CRLF))
                   eq_refl eq_refl eq_refl eq_refl)
                (lit "example.org") (lit "443") eq_refl eq_refl eq_refl _ _).
  - discriminate.
  - right. vm_compute. discriminate.
Defined.

(** C6, counterexample.  The request line [CONNECT [::1]:443 HTTP/1.1]
    has as second token a host and port, the host the IPv6 literal [[::1]]
    and the port the integer 443, and the parser does not return them: the
    token holds more than one colon and the result is not-resolvable.  So
    is the result for a request line whose tokens are separated by tabs:
    the second white-space-delimited token is [example.org:443], but the
    line holds no space. *)
Lemma connect_ipv6_literal_not_resolved :
  (utf8_decode (blit ("CONNECT [::1]:443 HTTP/1.1" ++ CRLF ++ CRLF))
   = Some (lit "CONNECT " ++ (lit "[::1]" ++ chr_COLON :: lit "443")
               ++ lit (" HTTP/1.1" ++ CRLF ++ CRLF))
   /\ @int sample_runtime (lit "443") = Ret 443%Z
   /\ @get_target_host sample_runtime
        (blit ("CONNECT [::1]:443 HTTP/1.1" ++ CRLF ++ CRLF))
      = Ret None)
  /\ (utf8_decode (blit ("CONNECT" ++ TAB ++ "example.org:443" ++ TAB
                         ++ "HTTP/1.1" ++ CRLF ++ CRLF))
      = Some (lit "CONNECT" ++ [9%N] ++ (lit "example.org" ++ chr_COLON :: lit "443")
                  ++ [9%N] ++ lit ("HTTP/1.1" ++ CRLF ++ CRLF))
      /\ isspace 9 = true
      /\ @get_target_host sample_runtime
           (blit ("CONNECT" ++ TAB ++ "example.org:443" ++ TAB
                  ++ "HTTP/1.1" ++ CRLF ++ CRLF))
         = Ret None).
Proof. repeat split; vm_compute; reflexivity. Qed.

(** Two more requests that are not resolved although their request
    line is [CONNECT example.org:port HTTP/1.1] with a port of digits:
    one goes on with a byte that is not UTF-8, the other has a port of
    4301 digits, one more than the limit of the sample runtime (with
    4300 digits the port is returned). *)
Lemma connect_not_resolved_examples :
  @get_target_host sample_runtime (blit connect_example_org)
  = Ret (Some (lit "example.org", 443%Z))
  /\ @get_target_host sample_runtime connect_then_binary = Ret None
  /\ (exists p,
         @get_target_host sample_runtime (connect_long_port 4300)
         = Ret (Some (lit "example.org", p)))
  /\ @get_target_host sample_runtime (connect_long_port 4301) = Ret None.
Proof.
  split; [vm_compute; reflexivity|].
  split; [vm_compute; reflexivity|].
  split; [|vm_compute; reflexivity].
  eexists. vm_compute. reflexivity.
Qed.

(** A request with a [Host:] line that is not UTF-8 as a whole is not
    resolved. *)
Lemma host_line_in_binary_request_not_resolved :
  @get_target_host sample_runtime post_binary_body = Ret None.
Proof. vm_compute. reflexivity. Qed.

(** C7, witness: a request with the line [Host: example.org]. *)
Lemma host_header_parsed_witness :
  @get_target_host sample_runtime
    (blit ("GET / HTTP/1.1" ++ CRLF ++ "Host: example.org" ++ CRLF ++ CRLF))
  = Ret (Some (lit "example.org", 80%Z)).
Proof.
  refine (proj1 (proj2 (proj1 (@host_header_parsed sample_runtime)
                   (blit ("GET / HTTP/1.1" ++ CRLF
                          ++ "Host: example.org" ++ CRLF ++ CRLF))
                   (lit ("GET / HTTP/1.1" ++ CRLF
                         ++ "Host: example.org" ++ CRLF ++ CRLF))
                   [lit ("GET / HTTP/1.1" ++ CR)]
                   [lit CR; []]
                   (lit ("Host: example.org" ++ CR))
                   eq_refl eq_refl eq_refl eq_refl eq_refl))
                (lit "example.org") (lit CR) eq_refl eq_refl eq_refl eq_refl).
Defined.

(** C7, counterexample.  The second line of this request begins with
    [Host:] and the token after the colon is [example.com], yet the parser
    returns the not-resolvable result: the line holds no space. *)
Lemma host_header_without_space_not_resolved :
  utf8_decode
    (blit ("GET / HTTP/1.1" ++ CRLF ++ "Host:example.com" ++ CRLF ++ CRLF))
  = Some (lit ("GET / HTTP/1.1" ++ CRLF ++ "Host:example.com" ++ CRLF ++ CRLF))
  /\ startswith
       (lit ("GET / HTTP/1.1" ++ CRLF ++ "Host:example.com" ++ CRLF ++ CRLF))
       (lit "CONNECT") = false
  /\ split chr_LF
       (lit ("GET / HTTP/1.1" ++ CRLF ++ "Host:example.com" ++ CRLF ++ CRLF))
     = [lit ("GET / HTTP/1.1" ++ CR); lit "Host:" ++ lit "example.com" ++ lit CR;
        lit CR; []]
  /\ @get_target_host sample_runtime
       (blit ("GET / HTTP/1.1" ++ CRLF ++ "Host:example.com" ++ CRLF ++ CRLF))
     = Ret None
  /\ @get_target_host sample_runtime
       (blit ("GET / HTTP/1.1" ++ CRLF ++ "Host:example.com" ++ CRLF ++ CRLF))
     <> Ret (Some (lit "example.com", 80%Z)).
Proof.
  repeat split; try (vm_compute; reflexivity).
  vm_compute. discriminate.
Qed.

(* ================================================================== *)
(** * Sessions                                                          *)
(* ================================================================== *)

Section Combinators.

Context {A B : Type}.

Lemma bind_ret (m : io A) (k : A -> io B) (w w' : world) (a : A) :
  m w = (Ret a, w') -> bind m k w = k a w'.
Proof. intros H. unfold bind. now rewrite H. Qed.

Lemma bind_exc (m : io A) (k : A -> io B) (w w' : world) (e : exn) :
  m w = (Exc e, w') -> bind m k w = (Exc e, w').
Proof. intros H. unfold bind. now rewrite H. Qed.

Lemma bind_hang (m : io A) (k : A -> io B) (w w' : world) :
  m w = (Hang, w') -> bind m k w = (Hang, w').
Proof. intros H. unfold bind. now rewrite H. Qed.

End Combinators.

Lemma sent_to_app (s : side) (t u : list event) :
  sent_to s (t ++ u) = sent_to s t ++ sent_to s u.
Proof.
  induction t as [|e t IH]; [reflexivity|].
  destruct e, s; simpl; rewrite ?IH; reflexivity.
Qed.

Lemma sent_to_writes (s : side) (ws : list bytes) :
  sent_to s (map (write_event s) ws) = ws.
Proof.
  induction ws as [|d ws IH]; [reflexivity|].
  destruct s; simpl; now rewrite IH.
Qed.

Lemma sent_to_other_writes (ws : list bytes) :
  sent_to Server (map (write_event Client) ws) = [].
Proof. induction ws as [|d ws IH]; [reflexivity|exact IH]. Qed.

Lemma in_writes (s : side) (ws : list bytes) (e : event) :
  In e (map (write_event s) ws) -> exists d, e = write_event s d.
Proof.
  intros H. apply in_map_iff in H as [d [Hd _]]. now exists d.
Qed.

Lemma in_merge (sched : list bool) (l1 l2 : list event) (e : event) :
  In e (merge sched l1 l2) -> In e l1 \/ In e l2.
Proof.
  revert l1 l2. induction sched as [|b sched IH]; intros l1 l2 H.
  - simpl in H. now apply in_app_or.
  - simpl in H. destruct b.
    + destruct l1 as [|x l1]; [now right|].
      destruct H as [->|H]; [left; now left|].
      apply IH in H as [H|H]; [left; now right|now right].
    + destruct l2 as [|y l2]; [now left|].
      destruct H as [->|H]; [right; now left|].
      apply IH in H as [H|H]; [now left|right; now right].
Qed.

Lemma merge_in (sched : list bool) (l1 l2 : list event) (e : event) :
  In e l1 \/ In e l2 -> In e (merge sched l1 l2).
Proof.
  revert l1 l2. induction sched as [|b sched IH]; intros l1 l2 H.
  - simpl. apply in_or_app. exact H.
  - simpl. destruct b.
    + destruct l1 as [|x l1]; [destruct H as [[]|H]; exact H|].
      destruct H as [[->|H]|H]; [now left| |]; right; apply IH; auto.
    + destruct l2 as [|y l2]; [destruct H as [H|[]]; exact H|].
      destruct H as [H|[->|H]]; [|now left|]; right; apply IH; auto.
Qed.

Lemma BUFFER_SIZE_pos : 0 < BUFFER_SIZE.
Proof. unfold BUFFER_SIZE. lia. Qed.

(** A read returns at most the bytes asked for. *)
Lemma read_length (n : nat) (s rest : stream) (data : bytes) :
  read n s = (Ret data, rest) -> List.length data <= n.
Proof.
  destruct s as [|[bs| |] r]; simpl; try discriminate.
  - destruct (Nat.leb (List.length bs) n) eqn:E; intros H; inversion H; subst.
    + now apply Nat.leb_le.
    + apply firstn_le_length.
  - intros H. inversion H. simpl. lia.
Qed.

(** What a read leaves of a stream, in terms of the bytes to come. *)
Lemma read_data (n : nat) (s rest : stream) (b : byte) (bs : bytes) :
  0 < n ->
  read n s = (Ret (b :: bs), rest) ->
  delivered s = (b :: bs) ++ delivered rest
  /\ pending rest < pending s.
Proof.
  intros Hn. destruct s as [|[d| |] r]; simpl; try discriminate.
  destruct (Nat.leb (List.length d) n) eqn:E; intros H;
    injection H as Hdata Hrest; subst rest.
  - subst d. split; [reflexivity|]. simpl. lia.
  - apply Nat.leb_gt in E.
    pose proof (length_skipn n d) as Hlen.
    destruct (skipn n d) as [|y sk] eqn:Esk.
    { change (List.length (@nil byte)) with 0 in Hlen. lia. }
    assert (Heq : d = (b :: bs) ++ (y :: sk)).
    { rewrite <- Hdata, <- Esk. symmetry. apply firstn_skipn. }
    split.
    + rewrite Heq. cbn [app delivered]. now rewrite <- app_assoc.
    + cbn [pending]. lia.
Qed.

(** A read that returns no byte, raises or never completes marks the end
    of what the stream delivers. *)
Lemma read_end (n : nat) (s rest : stream) (r : outcome bytes) :
  0 < n ->
  read n s = (r, rest) ->
  (forall b bs, r <> Ret (b :: bs)) ->
  delivered s = [].
Proof.
  intros Hn. destruct s as [|[d| |] tl]; simpl; try reflexivity.
  destruct d as [|x d]; [reflexivity|].
  destruct (Nat.leb (List.length (x :: d)) n) eqn:E; intros H Hr; inversion H; subst.
  - exfalso. exact (Hr x d eq_refl).
  - destruct n as [|n]; [lia|]. exfalso. exact (Hr x (firstn n d) eq_refl).
Qed.

Lemma reader_read_server (n : nat) (w : world) (p : peer) :
  server w = Some p ->
  reader_read Server n w
  = (fst (read n (incoming p)),
     with_server
       (Some {| incoming := snd (read n (incoming p)); drains := drains p |}) w).
Proof.
  intros Hp. unfold reader_read, peer_of. rewrite Hp.
  destruct (read n (incoming p)); reflexivity.
Qed.

(** The loop of [relay] from the server to the client: what it writes to
    the client is a prefix of what the server delivers, all of it when no
    [drain] fails; it never reads from the client. *)
Lemma relay_loop_to_client (turns : nat) :
  forall (w : world) (p : peer),
    server w = Some p ->
    pending (incoming p) < turns ->
    exists ws r w',
      relay_loop turns Server Client w = (r, w')
      /\ trace w' = trace w ++ map (write_event Client) ws
      /\ incoming (client w') = incoming (client w)
      /\ (exists tail, delivered (incoming p) = List.concat ws ++ tail)
      /\ (drains_ok (client w) = true -> List.concat ws = delivered (incoming p)).
Proof.
  induction turns as [|turns IH]; intros w p Hp Hturns; [lia|].
  cbn [relay_loop]. unfold bind at 1.
  rewrite (reader_read_server BUFFER_SIZE w p Hp).
  destruct (read BUFFER_SIZE (incoming p)) as [r rest] eqn:Hread.
  cbn [fst snd].
  assert (Hend : (forall b bs, r <> Ret (b :: bs)) ->
                 delivered (incoming p) = []).
  { exact (read_end BUFFER_SIZE (incoming p) rest r BUFFER_SIZE_pos Hread). }
  destruct r as [[|b bs]|e|].
  - exists [], (Ret tt), (with_server (Some {| incoming := rest; drains := drains p |}) w).
    rewrite Hend by discriminate. simpl. rewrite app_nil_r.
    repeat split; try reflexivity. now exists [].
  - destruct (read_data BUFFER_SIZE (incoming p) rest b bs BUFFER_SIZE_pos Hread)
      as [Hdel Hpend].
    set (w1 := with_server (Some {| incoming := rest; drains := drains p |}) w).
    unfold bind at 1. cbn [writer_write].
    unfold bind at 1. unfold writer_drain, peer_of.
    change (client (emit (write_event Client (b :: bs)) w1)) with (client w).
    destruct (drains (client w)) as [|ok ds] eqn:Hdr.
    + destruct (IH (emit (write_event Client (b :: bs)) w1)
                   {| incoming := rest; drains := drains p |} eq_refl)
        as [ws [r [w' [Hrun [Htr [Hin [[tail Htail] Hall]]]]]]];
        [simpl; lia|].
      exists ((b :: bs) :: ws), r, w'. rewrite Hrun.
      split; [reflexivity|]. split.
      { rewrite Htr. simpl. now rewrite <- app_assoc. }
      split; [exact Hin|]. split.
      { exists tail. rewrite Hdel. simpl in Htail. rewrite Htail.
        simpl. now rewrite <- app_assoc. }
      intros Hok. rewrite Hdel. simpl in Hall. rewrite <- (Hall Hok).
      reflexivity.
    + destruct ok.
      * set (w2 := set_peer Client
                     {| incoming := incoming (client w); drains := ds |}
                     (emit (write_event Client (b :: bs)) w1)).
        destruct (IH w2 {| incoming := rest; drains := drains p |} eq_refl)
          as [ws [r [w' [Hrun [Htr [Hin [[tail Htail] Hall]]]]]]];
          [simpl; lia|].
        exists ((b :: bs) :: ws), r, w'. rewrite Hrun.
        split; [reflexivity|]. split.
        { rewrite Htr. simpl. now rewrite <- app_assoc. }
        split; [exact Hin|]. split.
        { exists tail. rewrite Hdel. simpl in Htail. rewrite Htail.
          simpl. now rewrite <- app_assoc. }
        intros Hok. rewrite Hdel.
        unfold drains_ok in Hok, Hall. rewrite Hdr in Hok.
        simpl in Hok, Hall. rewrite <- (Hall Hok). reflexivity.
      * eexists [b :: bs], _, _. split; [reflexivity|]. simpl.
        split; [reflexivity|]. split; [reflexivity|]. split.
        { exists (delivered rest). rewrite Hdel. simpl.
          now rewrite app_nil_r. }
        unfold drains_ok. rewrite Hdr. simpl. discriminate.
  - eexists [], _, _. split; [reflexivity|].
    rewrite Hend by discriminate. simpl. rewrite app_nil_r.
    repeat split; try reflexivity. now exists [].
  - eexists [], _, _. split; [reflexivity|].
    rewrite Hend by discriminate. simpl. rewrite app_nil_r.
    repeat split; try reflexivity. now exists [].
Qed.

Lemma reader_read_trace (s : side) (n : nat) (w : world) :
  trace (snd (reader_read s n w)) = trace w.
Proof.
  unfold reader_read. destruct (peer_of s w) as [p|]; [|reflexivity].
  destruct (read n (incoming p)). destruct s; reflexivity.
Qed.

Lemma writer_drain_trace (s : side) (w : world) :
  trace (snd (writer_drain s w)) = trace w.
Proof.
  unfold writer_drain. destruct (peer_of s w) as [p|]; [|reflexivity].
  destruct (drains p); [reflexivity|]. destruct s; reflexivity.
Qed.

(** The loop of [relay], in either direction, only writes to its
    destination. *)
Lemma relay_loop_writes (turns : nat) (src dst : side) :
  forall w : world,
    exists ws r w',
      relay_loop turns src dst w = (r, w')
      /\ trace w' = trace w ++ map (write_event dst) ws.
Proof.
  induction turns as [|turns IH]; intros w.
  - exists [], (Ret tt), w. simpl. now rewrite app_nil_r.
  - cbn [relay_loop]. unfold bind at 1.
    pose proof (reader_read_trace src BUFFER_SIZE w) as Hrd.
    destruct (reader_read src BUFFER_SIZE w) as [[[|b bs]|e|] w1];
      cbn [snd] in Hrd;
      try (eexists [], _, _; split; [reflexivity|];
           simpl; now rewrite app_nil_r).
    unfold bind at 1. cbn [writer_write]. unfold bind at 1.
    pose proof (writer_drain_trace dst (emit (write_event dst (b :: bs)) w1))
      as Hdr.
    destruct (writer_drain dst (emit (write_event dst (b :: bs)) w1))
      as [[[]|e|] w2]; cbn [snd] in Hdr.
    + destruct (IH w2) as [ws [r [w' [Hrun Htr]]]].
      exists ((b :: bs) :: ws), r, w'. split; [exact Hrun|].
      rewrite Htr, Hdr. simpl. rewrite Hrd, <- app_assoc. reflexivity.
    + eexists [b :: bs], _, _. split; [reflexivity|].
      rewrite Hdr. simpl. now rewrite Hrd.
    + eexists [b :: bs], _, _. split; [reflexivity|].
      rewrite Hdr. simpl. now rewrite Hrd.
Qed.

(** [relay] around its loop: the exception is swallowed and the
    destination closed, unless the loop never ends. *)
Lemma relay_unfold (src dst : side) (w w1 : world) (r : outcome unit) :
  relay_loop (turns_of src w) src dst w = (r, w1) ->
  relay src dst w
  = match r with
    | Hang => (Hang, w1)
    | _ => (Ret tt, emit (close_event dst) w1)
    end.
Proof.
  intros H. unfold relay, try_finally, try_except. rewrite H.
  destruct r as [[]|e|]; reflexivity.
Qed.

Lemma relay_writes (src dst : side) (w : world) :
  exists ws w',
    (relay src dst w = (Ret tt, w')
     /\ trace w' = trace w ++ map (write_event dst) ws ++ [close_event dst])
    \/ (relay src dst w = (Hang, w')
        /\ trace w' = trace w ++ map (write_event dst) ws).
Proof.
  destruct (relay_loop_writes (turns_of src w) src dst w)
    as [ws [r [w1 [Hrun Htr]]]].
  rewrite (relay_unfold src dst w w1 r Hrun).
  destruct r as [[]|e|].
  - exists ws, (emit (close_event dst) w1). left. split; [reflexivity|].
    simpl. now rewrite Htr, <- app_assoc.
  - exists ws, (emit (close_event dst) w1). left. split; [reflexivity|].
    simpl. now rewrite Htr, <- app_assoc.
  - exists ws, w1. right. now split.
Qed.

(** [relay] from the server to the client. *)
Lemma relay_to_client (w : world) (p : peer) :
  server w = Some p ->
  exists ws r w',
    relay Server Client w = (r, w')
    /\ (r = Ret tt
        /\ trace w'
           = trace w ++ map (write_event Client) ws ++ [ClientClose]
        \/ r = Hang /\ trace w' = trace w ++ map (write_event Client) ws)
    /\ incoming (client w') = incoming (client w)
    /\ (exists tail, delivered (incoming p) = List.concat ws ++ tail)
    /\ (drains_ok (client w) = true ->
        List.concat ws = delivered (incoming p)).
Proof.
  intros Hp.
  destruct (relay_loop_to_client (turns_of Server w) w p Hp)
    as [ws [r [w1 [Hrun [Htr [Hin [Hpre Hall]]]]]]].
  { unfold turns_of, peer_of. rewrite Hp. lia. }
  rewrite (relay_unfold Server Client w w1 r Hrun).
  destruct r as [[]|e|].
  - exists ws, (Ret tt), (emit (close_event Client) w1).
    split; [reflexivity|]. split; [left; split; [reflexivity|]|].
    + simpl. now rewrite Htr, <- app_assoc.
    + now repeat split.
  - exists ws, (Ret tt), (emit (close_event Client) w1).
    split; [reflexivity|]. split; [left; split; [reflexivity|]|].
    + simpl. now rewrite Htr, <- app_assoc.
    + now repeat split.
  - exists ws, Hang, w1. split; [reflexivity|].
    split; [right; now split|]. now repeat split.
Qed.

(** Two traces that differ in how their pieces are bracketed. *)
Ltac trace_eq :=
  simpl; repeat (rewrite <- app_assoc; simpl); try rewrite app_nil_r;
  reflexivity.

Lemma forbidden_response_encoded :
  encode (lit forbidden_response) = Ret (blit forbidden_response).
Proof. vm_compute. reflexivity. Qed.

(** [send_forbidden] under the handler's [except] clause: the response is
    written and the client closed, whether or not the [drain] fails. *)
Lemma send_forbidden_guarded (w : world) :
  exists w',
    try_except send_forbidden (fun _ => writer_close Client) w = (Ret tt, w')
    /\ trace w' = trace w ++ [ClientWrite (blit forbidden_response); ClientClose].
Proof.
  unfold try_except, send_forbidden, bind, lift.
  rewrite forbidden_response_encoded.
  cbn [writer_write]. unfold writer_drain, peer_of.
  change (client (emit (write_event Client (blit forbidden_response)) w))
    with (client w).
  destruct (drains (client w)) as [|[|] ds];
    (eexists; split; [reflexivity|]; simpl; now rewrite <- app_assoc).
Qed.

(** [forward_http] on a world where the connector accepts the
    destination: the request goes to the server as it is, then what the
    server delivers goes to the client; the client is closed unless the
    server falls silent; the server is never closed. *)
Lemma forward_http_accepted (request : bytes) (h : pystr) (p : Z)
      (w : world) (srv : peer) :
  net w h p = Accepted srv ->
  exists ws closes r w',
    forward_http request h p w = (r, w')
    /\ trace w'
       = trace w ++ [Dial h p; Opened; ServerWrite request]
                 ++ map (write_event Client) ws ++ closes
    /\ (r = Ret tt /\ (closes = [ClientClose; ClientClose]
                       \/ closes = [ClientClose] /\ ws = [])
        \/ r = Hang /\ closes = [])
    /\ incoming (client w') = incoming (client w)
    /\ (exists tail, delivered (incoming srv) = List.concat ws ++ tail)
    /\ (drains_ok srv = true -> drains_ok (client w) = true ->
        List.concat ws = delivered (incoming srv)).
Proof.
  intros Hnet.
  set (w2 := emit Opened (with_server (Some srv) (emit (Dial h p) w))).
  set (w3 := emit (write_event Server request) w2).
  assert (Hopen : open_connection h p w = (Ret tt, w2)).
  { unfold open_connection. now rewrite Hnet. }
  unfold forward_http, try_finally, try_except.
  rewrite (bind_ret _ _ w w2 tt Hopen).
  rewrite (bind_ret _ _ w2 w3 tt eq_refl).
  assert (Htr3 : trace w3 = trace w ++ [Dial h p; Opened; ServerWrite request]).
  { trace_eq. }
  assert (Hrelay : forall w4 p4,
             server w4 = Some p4 -> incoming p4 = incoming srv ->
             trace w4 = trace w3 -> client w4 = client w ->
             exists ws closes r w',
               match relay Server Client w4 with
               | (Ret a, w') => bind (writer_close Client) (fun _ => ret a) w'
               | (Exc e, w') =>
                 bind (writer_close Client) (fun _ => ret tt) w'
               | (Hang, w') => (Hang, w')
               end = (r, w')
               /\ trace w'
                  = trace w ++ [Dial h p; Opened; ServerWrite request]
                            ++ map (write_event Client) ws ++ closes
               /\ (r = Ret tt /\ (closes = [ClientClose; ClientClose]
                                  \/ closes = [ClientClose] /\ ws = [])
                   \/ r = Hang /\ closes = [])
               /\ incoming (client w') = incoming (client w)
               /\ (exists tail,
                      delivered (incoming srv) = List.concat ws ++ tail)
               /\ (drains_ok (client w) = true ->
                   List.concat ws = delivered (incoming srv))).
  { intros w4 p4 Hp4 Hin4 Htr4 Hcl4.
    destruct (relay_to_client w4 p4 Hp4)
      as [ws [r [w' [Hrun [Hshape [Hin [Hpre Hall]]]]]]].
    rewrite Hrun, Hin4, Hcl4 in *. rewrite Htr4, Htr3 in Hshape.
    destruct Hshape as [[-> Htr]|[-> Htr]].
    - exists ws, [ClientClose; ClientClose], (Ret tt),
        (emit (close_event Client) w').
      split; [reflexivity|]. split.
      { simpl. rewrite Htr. trace_eq. }
      split; [left; split; [reflexivity|now left]|].
      now repeat split.
    - exists ws, [], Hang, w'. split; [reflexivity|]. split.
      { rewrite Htr. trace_eq. }
      split; [right; now split|]. now repeat split. }
  destruct (drains srv) as [|ok ds] eqn:Hds.
  - assert (Hdrain : writer_drain Server w3 = (Ret tt, w3)).
    { unfold writer_drain, peer_of, w3, w2. simpl. now rewrite Hds. }
    rewrite (bind_ret _ _ w3 w3 tt Hdrain).
    destruct (Hrelay w3 srv eq_refl eq_refl eq_refl eq_refl)
      as [ws [closes [r [w' [Hrun [Htr [Hr [Hin [Hpre Hall]]]]]]]]].
    exists ws, closes, r, w'.
    destruct (relay Server Client w3) as [[[]|e|] w5]; cbn [ret lift] in *;
      (split; [exact Hrun|]); now repeat split.
  - destruct ok.
    + set (w4 := set_peer Server {| incoming := incoming srv; drains := ds |} w3).
      assert (Hdrain : writer_drain Server w3 = (Ret tt, w4)).
      { unfold writer_drain, peer_of, w4, w3, w2. simpl. now rewrite Hds. }
      rewrite (bind_ret _ _ w3 w4 tt Hdrain).
      destruct (Hrelay w4 {| incoming := incoming srv; drains := ds |}
                       eq_refl eq_refl eq_refl eq_refl)
        as [ws [closes [r [w' [Hrun [Htr [Hr [Hin [Hpre Hall]]]]]]]]].
      exists ws, closes, r, w'.
      destruct (relay Server Client w4) as [[[]|e|] w5]; cbn [ret lift] in *;
        (split; [exact Hrun|]); repeat split; try assumption;
        intros _; exact Hall.
    + set (w4 := set_peer Server {| incoming := incoming srv; drains := ds |} w3).
      assert (Hdrain : writer_drain Server w3 = (Exc OSError, w4)).
      { unfold writer_drain, peer_of, w4, w3, w2. simpl. now rewrite Hds. }
      rewrite (bind_exc _ _ w3 w4 OSError Hdrain).
      exists [], [ClientClose], (Ret tt), (emit ClientClose w4).
      split; [reflexivity|]. split.
      { trace_eq. }
      split; [left; split; [reflexivity|right; now split]|].
      split; [reflexivity|]. split; [now exists (delivered (incoming srv))|].
      unfold drains_ok. rewrite Hds. simpl. discriminate.
Qed.

(** ** Relaying in either direction *)

Lemma peer_of_set_peer_same (s : side) (p : peer) (w : world) :
  peer_of s (set_peer s p w) = Some p.
Proof. destruct s; reflexivity. Qed.

Lemma peer_of_set_peer_other (s s' : side) (p : peer) (w : world) :
  s <> s' -> peer_of s' (set_peer s p w) = peer_of s' w.
Proof. destruct s, s'; intros H; try reflexivity; contradiction. Qed.

Lemma reader_read_peer (s : side) (n : nat) (w : world) (p : peer) :
  peer_of s w = Some p ->
  reader_read s n w
  = (fst (read n (incoming p)),
     set_peer s {| incoming := snd (read n (incoming p)); drains := drains p |} w).
Proof.
  intros Hp. unfold reader_read. rewrite Hp.
  destruct (read n (incoming p)); reflexivity.
Qed.

(** The loop of [relay] between two different sides: what it writes is a
    prefix of what the source delivers, all of it when no [drain] fails;
    it reads from the source only and drains towards the destination
    only. *)
Lemma relay_loop_bytes (turns : nat) (src dst : side) :
  src <> dst ->
  forall (w : world) (ps pd : peer),
    peer_of src w = Some ps ->
    peer_of dst w = Some pd ->
    pending (incoming ps) < turns ->
    exists ws r w' ps' pd',
      relay_loop turns src dst w = (r, w')
      /\ trace w' = trace w ++ map (write_event dst) ws
      /\ peer_of src w' = Some ps' /\ drains ps' = drains ps
      /\ peer_of dst w' = Some pd' /\ incoming pd' = incoming pd
      /\ (exists tail, delivered (incoming ps) = List.concat ws ++ tail)
      /\ (drains_ok pd = true -> List.concat ws = delivered (incoming ps)).
Proof.
  intros Hneq.
  induction turns as [|turns IH]; intros w ps pd Hps Hpd Hturns; [lia|].
  cbn [relay_loop]. unfold bind at 1.
  rewrite (reader_read_peer src BUFFER_SIZE w ps Hps).
  destruct (read BUFFER_SIZE (incoming ps)) as [r rest] eqn:Hread.
  cbn [fst snd].
  set (ps1 := {| incoming := rest; drains := drains ps |}).
  set (w1 := set_peer src ps1 w).
  assert (Hps1 : peer_of src w1 = Some ps1)
    by apply peer_of_set_peer_same.
  assert (Hpd1 : peer_of dst w1 = Some pd)
    by (unfold w1; now rewrite peer_of_set_peer_other).
  assert (Htr1 : trace w1 = trace w) by (unfold w1; destruct src; reflexivity).
  assert (Hend : (forall b bs, r <> Ret (b :: bs)) ->
                 delivered (incoming ps) = []).
  { exact (read_end BUFFER_SIZE (incoming ps) rest r BUFFER_SIZE_pos Hread). }
  assert (Hstop : forall r0 : outcome unit,
             (forall b bs, r <> Ret (b :: bs)) ->
             exists ws r' w' ps' pd',
               (r0, w1) = (r', w')
               /\ trace w' = trace w ++ map (write_event dst) ws
               /\ peer_of src w' = Some ps' /\ drains ps' = drains ps
               /\ peer_of dst w' = Some pd' /\ incoming pd' = incoming pd
               /\ (exists tail,
                      delivered (incoming ps) = List.concat ws ++ tail)
               /\ (drains_ok pd = true ->
                   List.concat ws = delivered (incoming ps))).
  { intros r0 Hr. exists [], r0, w1, ps1, pd. rewrite (Hend Hr), Htr1.
    simpl. rewrite app_nil_r. repeat split; auto. now exists []. }
  destruct r as [[|b bs]|e|]; try (apply Hstop; discriminate).
  destruct (read_data BUFFER_SIZE (incoming ps) rest b bs BUFFER_SIZE_pos Hread)
    as [Hdel Hpend].
  unfold bind at 1. cbn [writer_write].
  set (w2 := emit (write_event dst (b :: bs)) w1).
  assert (Hps2 : peer_of src w2 = Some ps1) by (destruct src; exact Hps1).
  assert (Hpd2 : peer_of dst w2 = Some pd) by (destruct dst; exact Hpd1).
  assert (Htr2 : trace w2 = trace w ++ [write_event dst (b :: bs)]).
  { unfold w2. simpl. now rewrite Htr1. }
  unfold bind at 1. unfold writer_drain. rewrite Hpd2.
  assert (Hgo : forall w3 pd3,
             peer_of src w3 = Some ps1 -> peer_of dst w3 = Some pd3 ->
             incoming pd3 = incoming pd -> trace w3 = trace w2 ->
             (drains_ok pd = true -> drains_ok pd3 = true) ->
             exists ws r' w' ps' pd',
               relay_loop turns src dst w3 = (r', w')
               /\ trace w' = trace w ++ map (write_event dst) ws
               /\ peer_of src w' = Some ps' /\ drains ps' = drains ps
               /\ peer_of dst w' = Some pd' /\ incoming pd' = incoming pd
               /\ (exists tail,
                      delivered (incoming ps) = List.concat ws ++ tail)
               /\ (drains_ok pd = true ->
                   List.concat ws = delivered (incoming ps))).
  { intros w3 pd3 Hps3 Hpd3 Hin3 Htr3 Hok3.
    destruct (IH w3 ps1 pd3 Hps3 Hpd3)
      as [ws [r' [w' [ps' [pd' [Hrun [Htr [Hps' [Hdr' [Hpd' [Hin'
            [[tail Htail] Hall]]]]]]]]]]]]; [simpl; lia|].
    exists ((b :: bs) :: ws), r', w', ps', pd'.
    split; [exact Hrun|]. split.
    { rewrite Htr, Htr3, Htr2. trace_eq. }
    split; [exact Hps'|]. split; [exact Hdr'|]. split; [exact Hpd'|].
    split; [now rewrite Hin'|]. split.
    { exists tail. rewrite Hdel. simpl in Htail. rewrite Htail. trace_eq. }
    intros Hok. rewrite Hdel. simpl in Hall. rewrite <- (Hall (Hok3 Hok)).
    reflexivity. }
  destruct (drains pd) as [|ok ds] eqn:Hds.
  - apply (Hgo w2 pd); auto.
  - destruct ok.
    + apply (Hgo (set_peer dst {| incoming := incoming pd; drains := ds |} w2)
                 {| incoming := incoming pd; drains := ds |}).
      * rewrite peer_of_set_peer_other; [exact Hps2|].
        intros E. apply Hneq. now symmetry.
      * apply peer_of_set_peer_same.
      * reflexivity.
      * destruct dst; reflexivity.
      * unfold drains_ok. rewrite Hds. simpl. auto.
    + exists [b :: bs], (Exc OSError),
        (set_peer dst {| incoming := incoming pd; drains := ds |} w2),
        ps1, {| incoming := incoming pd; drains := ds |}.
      split; [reflexivity|]. split.
      { replace (trace (set_peer dst {| incoming := incoming pd; drains := ds |} w2))
          with (trace w2) by (destruct dst; reflexivity).
        rewrite Htr2. reflexivity. }
      split.
      { rewrite peer_of_set_peer_other; [exact Hps2|].
        intros E. apply Hneq. now symmetry. }
      split; [reflexivity|]. split; [apply peer_of_set_peer_same|].
      split; [reflexivity|]. split.
      { exists (delivered rest). rewrite Hdel. trace_eq. }
      unfold drains_ok. rewrite Hds. simpl. discriminate.
Qed.

Lemma relay_bytes (src dst : side) (w : world) (ps pd : peer) :
  src <> dst ->
  peer_of src w = Some ps ->
  peer_of dst w = Some pd ->
  exists ws closes r w' ps' pd',
    relay src dst w = (r, w')
    /\ trace w' = trace w ++ map (write_event dst) ws ++ closes
    /\ (r = Ret tt /\ closes = [close_event dst] \/ r = Hang /\ closes = [])
    /\ peer_of src w' = Some ps' /\ drains ps' = drains ps
    /\ peer_of dst w' = Some pd' /\ incoming pd' = incoming pd
    /\ (exists tail, delivered (incoming ps) = List.concat ws ++ tail)
    /\ (drains_ok pd = true -> List.concat ws = delivered (incoming ps)).
Proof.
  intros Hneq Hps Hpd.
  destruct (relay_loop_bytes (turns_of src w) src dst Hneq w ps pd Hps Hpd)
    as [ws [r [w1 [ps' [pd' [Hrun [Htr [Hps' [Hdr [Hpd' [Hin [Hpre Hall]]]]]]]]]]]].
  { unfold turns_of. rewrite Hps. lia. }
  rewrite (relay_unfold src dst w w1 r Hrun).
  assert (Hclose : exists w2,
             emit (close_event dst) w1 = w2
             /\ trace w2 = trace w ++ map (write_event dst) ws ++ [close_event dst]
             /\ peer_of src w2 = Some ps' /\ peer_of dst w2 = Some pd').
  { eexists. split; [reflexivity|]. split.
    - simpl. rewrite Htr. trace_eq.
    - split; [destruct src; exact Hps'|destruct dst; exact Hpd']. }
  destruct Hclose as [w2 [Hw2 [Htr2 [Hps2 Hpd2]]]].
  destruct r as [[]|e|].
  - exists ws, [close_event dst], (Ret tt), w2, ps', pd'. rewrite Hw2.
    repeat split; auto.
  - exists ws, [close_event dst], (Ret tt), w2, ps', pd'. rewrite Hw2.
    repeat split; auto.
  - exists ws, [], Hang, w1, ps', pd'. rewrite app_nil_r.
    repeat split; auto.
Qed.

Lemma only_side_writes (s : side) (ws : list bytes) (closes : list event) :
  closes = [close_event s] \/ closes = [] ->
  only_side s (map (write_event s) ws ++ closes).
Proof.
  intros Hc e He. apply in_app_or in He as [He|He].
  - right. now apply in_writes in He.
  - left. destruct Hc as [-> | ->]; [|contradiction].
    destruct He as [<-|[]]. reflexivity.
Qed.

Lemma only_side_tail (s : side) (e : event) (t : list event) :
  only_side s (e :: t) -> only_side s t.
Proof. intros H x Hx. apply H. now right. Qed.

Lemma sent_to_other_side (s s' : side) (t : list event) :
  s <> s' -> only_side s t -> sent_to s' t = [].
Proof.
  intros Hneq. induction t as [|e t IH]; intros H; [reflexivity|].
  pose proof (IH (only_side_tail s e t H)) as IHt.
  destruct (H e (or_introl eq_refl)) as [->|[d ->]];
    destruct s, s'; try contradiction; exact IHt.
Qed.

Lemma only_side_head (s : side) (e : event) (t : list event) :
  only_side s (e :: t) -> only_side s [e].
Proof. intros H x [<-|[]]. apply H. now left. Qed.

Lemma sent_to_cons (s : side) (e : event) (t : list event) :
  sent_to s (e :: t) = sent_to s [e] ++ sent_to s t.
Proof. exact (sent_to_app s [e] t). Qed.

(** What the two relays of a tunnel write, read off the merged trace. *)
Lemma sent_to_merge (sched : list bool) :
  forall l1 l2 : list event,
    only_side Server l1 -> only_side Client l2 ->
    sent_to Server (merge sched l1 l2) = sent_to Server l1
    /\ sent_to Client (merge sched l1 l2) = sent_to Client l2.
Proof.
  assert (Hsc : Server <> Client) by discriminate.
  assert (Hcs : Client <> Server) by discriminate.
  induction sched as [|b sched IH]; intros l1 l2 H1 H2.
  - simpl. rewrite !sent_to_app.
    rewrite (sent_to_other_side Client Server l2 Hcs H2).
    rewrite (sent_to_other_side Server Client l1 Hsc H1).
    now rewrite app_nil_r.
  - simpl. destruct b.
    + destruct l1 as [|x l1].
      * split; [|reflexivity].
        apply (sent_to_other_side Client Server l2 Hcs H2).
      * destruct (IH l1 l2 (only_side_tail Server x l1 H1) H2) as [IH1 IH2].
        rewrite (sent_to_cons Server x (merge sched l1 l2)).
        rewrite (sent_to_cons Client x (merge sched l1 l2)).
        rewrite (sent_to_cons Server x l1), IH1, IH2.
        rewrite (sent_to_other_side Server Client [x] Hsc
                   (only_side_head Server x l1 H1)).
        now split.
    + destruct l2 as [|y l2].
      * split; [reflexivity|].
        apply (sent_to_other_side Server Client l1 Hsc H1).
      * destruct (IH l1 l2 H1 (only_side_tail Client y l2 H2)) as [IH1 IH2].
        rewrite (sent_to_cons Server y (merge sched l1 l2)).
        rewrite (sent_to_cons Client y (merge sched l1 l2)).
        rewrite (sent_to_cons Client y l2), IH1, IH2.
        rewrite (sent_to_other_side Client Server [y] Hcs
                   (only_side_head Client y l2 H2)).
        now split.
Qed.

(** The two relays of a tunnel, with what each of them moves. *)
Lemma gather_bytes (w : world) (srv : peer) :
  server w = Some srv ->
  exists wsA wsB cA cB r w',
    gather (relay Client Server) (relay Server Client) w = (r, w')
    /\ trace w'
       = trace w ++ merge (schedule w)
                          (map (write_event Server) wsA ++ cA)
                          (map (write_event Client) wsB ++ cB)
    /\ (cA = [ServerClose] \/ cA = [])
    /\ (cB = [ClientClose] \/ cB = [])
    /\ (exists tail,
           delivered (incoming (client w)) = List.concat wsA ++ tail)
    /\ (exists tail, delivered (incoming srv) = List.concat wsB ++ tail)
    /\ (drains_ok srv = true ->
        List.concat wsA = delivered (incoming (client w)))
    /\ (drains_ok (client w) = true ->
        List.concat wsB = delivered (incoming srv))
    /\ (r = Ret tt \/ r = Hang).
Proof.
  intros Hsrv. unfold gather.
  assert (Hcs : Client <> Server) by discriminate.
  assert (Hsc : Server <> Client) by discriminate.
  destruct (relay_bytes Client Server (with_trace [] w) (client w) srv
              Hcs eq_refl Hsrv)
    as [wsA [cA [ra [wa [pc' [ps' [Ha [Hta [HcA [Hpc [Hdc [Hps [His
          [HpreA HallA]]]]]]]]]]]]]].
  destruct (relay_bytes Server Client (with_trace [] wa) ps' pc'
              Hsc Hps Hpc)
    as [wsB [cB [rb [wb [ps2 [pc2 [Hb [Htb [HcB [_ [_ [_ [_
          [HpreB HallB]]]]]]]]]]]]]].
  rewrite Ha, Hb. cbn [trace with_trace app] in Hta, Htb.
  exists wsA, wsB, cA, cB. eexists _, _.
  split; [reflexivity|]. split.
  { cbn [trace with_trace]. now rewrite Hta, Htb. }
  split; [destruct HcA as [[_ ->]|[_ ->]]; auto|].
  split; [destruct HcB as [[_ ->]|[_ ->]]; auto|].
  split; [exact HpreA|]. rewrite His in HpreB, HallB.
  split; [exact HpreB|]. split; [exact HallA|]. split.
  - intros Hok. apply HallB. unfold drains_ok in *. now rewrite Hdc.
  - destruct HcA as [[-> _]|[-> _]]; destruct HcB as [[-> _]|[-> _]];
      cbn [join]; auto.
Qed.

Lemma forward_http_refused (request : bytes) (h : pystr) (p : Z) (w : world) :
  net w h p = Refused ->
  forward_http request h p w
  = (Ret tt, emit ClientClose (emit (Dial h p) w)).
Proof.
  intros Hnet.
  assert (Hopen : open_connection h p w = (Exc OSError, emit (Dial h p) w)).
  { unfold open_connection. now rewrite Hnet. }
  unfold forward_http, try_finally, try_except.
  now rewrite (bind_exc _ _ w _ OSError Hopen).
Qed.

Lemma forward_http_unanswered (request : bytes) (h : pystr) (p : Z)
      (w : world) :
  net w h p = Unanswered ->
  forward_http request h p w = (Hang, emit (Dial h p) w).
Proof.
  intros Hnet.
  assert (Hopen : open_connection h p w = (Hang, emit (Dial h p) w)).
  { unfold open_connection. now rewrite Hnet. }
  unfold forward_http, try_finally, try_except.
  now rewrite (bind_hang _ _ w _ Hopen).
Qed.

(** The two relays of a tunnel: each writes to its destination only, and
    both destinations are closed when the pair completes. *)
Lemma gather_relays (w : world) :
  exists wsA wsB cA cB r w',
    gather (relay Client Server) (relay Server Client) w = (r, w')
    /\ trace w'
       = trace w ++ merge (schedule w)
                          (map (write_event Server) wsA ++ cA)
                          (map (write_event Client) wsB ++ cB)
    /\ (cA = [] \/ cA = [ServerClose])
    /\ (cB = [] \/ cB = [ClientClose])
    /\ (r = Ret tt /\ cA = [ServerClose] /\ cB = [ClientClose]
        \/ r = Hang).
Proof.
  unfold gather.
  destruct (relay_writes Client Server (with_trace [] w))
    as [wsA [wa [[Ha Hta]|[Ha Hta]]]];
    destruct (relay_writes Server Client (with_trace [] wa))
      as [wsB [wb [[Hb Htb]|[Hb Htb]]]];
    rewrite Ha, Hb; cbn [trace with_trace app] in Hta, Htb;
    rewrite Hta, Htb.
  - exists wsA, wsB, [ServerClose], [ClientClose]. eexists _, _.
    split; [reflexivity|]. split; [reflexivity|]. cbn [join]. auto 10.
  - exists wsA, wsB, [ServerClose], []. eexists _, _.
    split; [reflexivity|]. rewrite app_nil_r. split; [reflexivity|]. cbn [join]. auto 10.
  - exists wsA, wsB, [], [ClientClose]. eexists _, _.
    split; [reflexivity|]. rewrite app_nil_r. split; [reflexivity|]. cbn [join]. auto 10.
  - exists wsA, wsB, [], []. eexists _, _.
    split; [reflexivity|]. rewrite !app_nil_r. split; [reflexivity|]. cbn [join]. auto 10.
Qed.

Lemma tunnel_connect (h : pystr) (p : Z) (w : world) :
  exists t r w',
    try_except
      (bind (open_connection h p)
            (fun _ => gather (relay Client Server) (relay Server Client)))
      (fun _ => writer_close Client) w = (r, w')
    /\ trace w' = trace w ++ t
    /\ tunnel_run h p (net w) (schedule w) r t.
Proof.
  unfold try_except, bind, open_connection.
  destruct (net w h p) as [srv| |] eqn:Hnet.
  - destruct (gather_relays
                (emit Opened (with_server (Some srv) (emit (Dial h p) w))))
      as [wsA [wsB [cA [cB [r [w' [Hrun [Htr [HcA [HcB Hr]]]]]]]]]].
    rewrite Hrun. eexists _, r, w'.
    assert (Hr' : r = Ret tt \/ r = Hang) by (destruct Hr as [[-> _]| ->]; auto).
    split; [destruct Hr' as [->| ->]; reflexivity|]. split.
    + rewrite Htr. cbn [trace emit with_server schedule].
      rewrite <- !app_assoc. reflexivity.
    + now apply (tunnel_relayed h p (net w) (schedule w) srv wsA wsB cA cB r).
  - eexists _, _, _. split; [reflexivity|]. split.
    + cbn [writer_close trace emit]. rewrite <- app_assoc. reflexivity.
    + now apply tunnel_refused.
  - eexists _, _, _. split; [reflexivity|]. split.
    + reflexivity.
    + now apply tunnel_unanswered.
Qed.

Lemma try_except_bind_ret {A B} (m : io A) (k : A -> io B)
      (h : exn -> io B) (w w' : world) (a : A) :
  m w = (Ret a, w') ->
  try_except (bind m k) h w = try_except (k a) h w'.
Proof. intros H. unfold try_except, bind. now rewrite H. Qed.

Lemma try_except_bind_exc {A B} (m : io A) (k : A -> io B)
      (h : exn -> io B) (w w' : world) (e : exn) :
  m w = (Exc e, w') ->
  try_except (bind m k) h w = h e w'.
Proof. intros H. unfold try_except, bind. now rewrite H. Qed.

Lemma try_except_bind_hang {A B} (m : io A) (k : A -> io B)
      (h : exn -> io B) (w w' : world) :
  m w = (Hang, w') ->
  try_except (bind m k) h w = (Hang, w').
Proof. intros H. unfold try_except, bind. now rewrite H. Qed.

Lemma try_except_pass {A} (m : io A) (h : exn -> io A) (w w' : world)
      (r : outcome A) :
  m w = (r, w') -> (forall e, r <> Exc e) -> try_except m h w = (r, w').
Proof.
  intros H Hr. unfold try_except. rewrite H.
  destruct r as [a|e|]; try reflexivity. exfalso. exact (Hr e eq_refl).
Qed.

(** [handle_https] for a host that is not blocked: the 200 response is
    written first; if its [drain] fails the client is closed, otherwise the
    tunnel is attempted. *)
Lemma handle_https_runs (h : pystr) (p : Z) (w : world) :
  blocked h = false ->
  exists t r w',
    handle_https h p w = (r, w')
    /\ trace w' = trace w ++ ClientWrite (blit established) :: t
    /\ (r = Ret tt /\ t = [ClientClose]
        /\ hd true (drains (client w)) = false
        \/ hd true (drains (client w)) = true
           /\ tunnel_run h p (net w) (schedule w) r t).
Proof.
  intros Hblocked. unfold handle_https. rewrite Hblocked.
  set (w1 := emit (write_event Client (blit established)) w).
  rewrite (try_except_bind_ret (writer_write Client (blit established)) _ _ w w1 tt eq_refl).
  assert (Hok : forall wd,
             writer_drain Client w1 = (Ret tt, wd) ->
             trace wd = trace w1 -> net wd = net w ->
             schedule wd = schedule w ->
             hd true (drains (client w)) = true ->
             exists t r w',
               try_except
                 (bind (writer_drain Client)
                       (fun _ =>
                          bind (open_connection h p)
                               (fun _ => gather (relay Client Server)
                                                (relay Server Client))))
                 (fun _ => writer_close Client) w1 = (r, w')
               /\ trace w' = trace w ++ ClientWrite (blit established) :: t
               /\ (r = Ret tt /\ t = [ClientClose]
                   /\ hd true (drains (client w)) = false
                   \/ hd true (drains (client w)) = true
                      /\ tunnel_run h p (net w) (schedule w) r t)).
  { intros wd Hdrain Htr Hnet Hsched Hhd.
    rewrite (try_except_bind_ret _ _ _ w1 wd tt Hdrain).
    destruct (tunnel_connect h p wd) as [t [r [w' [Hrun [Htr' Htun]]]]].
    exists t, r, w'. split; [exact Hrun|]. split.
    - rewrite Htr', Htr. subst w1. trace_eq.
    - right. split; [exact Hhd|]. now rewrite <- Hnet, <- Hsched. }
  destruct (drains (client w)) as [|ok ds] eqn:Hdr.
  - apply (Hok w1); try reflexivity.
    unfold writer_drain, peer_of, w1. simpl. now rewrite Hdr.
  - destruct ok.
    + apply (Hok (set_peer Client
                    {| incoming := incoming (client w); drains := ds |} w1));
        try reflexivity.
      unfold writer_drain, peer_of, w1. simpl. now rewrite Hdr.
    + assert (Hdrain : writer_drain Client w1
                       = (Exc OSError,
                          set_peer Client
                            {| incoming := incoming (client w); drains := ds |}
                            w1)).
      { unfold writer_drain, peer_of, w1. simpl. now rewrite Hdr. }
      rewrite (try_except_bind_exc _ _ _ w1 _ OSError Hdrain).
      eexists [ClientClose], (Ret tt), _. split; [reflexivity|]. split.
      * subst w1. trace_eq.
      * left. auto.
Qed.

Lemma tunnel_run_completes (h : pystr) (p : Z) (n : connector)
      (sched : list bool) (r : outcome unit) (t : list event) :
  tunnel_run h p n sched r t -> r = Ret tt \/ r = Hang.
Proof.
  intros H. destruct H as [| |srv wsA wsB cA cB r _ _ _ [[-> _]| ->]]; auto.
Qed.


Lemma try_except_completes {A} (m : io A) (h : exn -> io A) (w : world) :
  (forall e, fst (m w) <> Exc e) -> try_except m h w = m w.
Proof.
  intros H. unfold try_except. destruct (m w) as [[a|e|] w']; try reflexivity.
  exfalso. exact (H e eq_refl).
Qed.

Lemma forward_http_completes (request : bytes) (h : pystr) (p : Z)
      (w : world) (e : exn) :
  fst (forward_http request h p w) <> Exc e.
Proof.
  destruct (net w h p) as [srv| |] eqn:Hnet.
  - destruct (forward_http_accepted request h p w srv Hnet)
      as [ws [closes [r [w' [Hrun [_ [Hr _]]]]]]].
    rewrite Hrun. simpl. destruct Hr as [[-> _]|[-> _]]; discriminate.
  - rewrite (forward_http_refused request h p w Hnet). discriminate.
  - rewrite (forward_http_unanswered request h p w Hnet). discriminate.
Qed.

Lemma handle_https_completes (h : pystr) (p : Z) (w : world) (e : exn) :
  blocked h = false -> fst (handle_https h p w) <> Exc e.
Proof.
  intros Hb.
  destruct (handle_https_runs h p w Hb) as [t [r [w' [Hrun [_ Hr]]]]].
  rewrite Hrun. simpl. destruct Hr as [[-> _]|[_ Htun]]; [discriminate|].
  destruct (tunnel_run_completes h p _ _ r t Htun) as [-> | ->]; discriminate.
Qed.

(** [handle_https] when the [drain] of the 200 response returns and the
    connector accepts the destination. *)
Lemma handle_https_accepted (h : pystr) (p : Z) (w : world) (srv : peer) :
  blocked h = false ->
  net w h p = Accepted srv ->
  hd true (drains (client w)) = true ->
  exists wsA wsB cA cB r w',
    handle_https h p w = (r, w')
    /\ trace w'
       = trace w ++ [ClientWrite (blit established); Dial h p; Opened]
                 ++ merge (schedule w)
                          (map (write_event Server) wsA ++ cA)
                          (map (write_event Client) wsB ++ cB)
    /\ (cA = [ServerClose] \/ cA = [])
    /\ (cB = [ClientClose] \/ cB = [])
    /\ (exists tail,
           delivered (incoming (client w)) = List.concat wsA ++ tail)
    /\ (exists tail, delivered (incoming srv) = List.concat wsB ++ tail)
    /\ (drains_ok srv = true ->
        List.concat wsA = delivered (incoming (client w)))
    /\ (drains_ok (client w) = true ->
        List.concat wsB = delivered (incoming srv)).
Proof.
  intros Hblocked Hnet Hhd. unfold handle_https. rewrite Hblocked.
  set (w1 := emit (write_event Client (blit established)) w).
  rewrite (try_except_bind_ret (writer_write Client (blit established))
             _ _ w w1 tt eq_refl).
  assert (Hdrain : exists wd,
             writer_drain Client w1 = (Ret tt, wd)
             /\ trace wd = trace w1 /\ net wd = net w
             /\ schedule wd = schedule w /\ server wd = server w
             /\ incoming (client wd) = incoming (client w)
             /\ (drains_ok (client w) = true -> drains_ok (client wd) = true)).
  { unfold writer_drain, peer_of, w1. simpl.
    destruct (drains (client w)) as [|ok ds] eqn:Hdr.
    - eexists. split; [reflexivity|]. simpl. repeat split; auto.
    - simpl in Hhd. subst ok. eexists. split; [reflexivity|]. simpl.
      repeat split; auto. unfold drains_ok. rewrite Hdr. simpl. auto. }
  destruct Hdrain as [wd [Hdr [Htrd [Hnetd [Hschd [Hsrvd [Hind Hokd]]]]]]].
  rewrite (try_except_bind_ret (writer_drain Client) _ _ w1 wd tt Hdr).
  set (wo := emit Opened (with_server (Some srv) (emit (Dial h p) wd))).
  assert (Hopen : open_connection h p wd = (Ret tt, wo)).
  { unfold open_connection. now rewrite Hnetd, Hnet. }
  rewrite (try_except_bind_ret (open_connection h p) _ _ wd wo tt Hopen).
  destruct (gather_bytes wo srv eq_refl)
    as [wsA [wsB [cA [cB [r [w' [Hrun [Htr [HcA [HcB [HpreA [HpreB
          [HallA [HallB Hr]]]]]]]]]]]]]].
  exists wsA, wsB, cA, cB, r, w'. split.
  { rewrite (try_except_completes _ _ wo).
    - exact Hrun.
    - intros e. rewrite Hrun. simpl.
      destruct Hr as [-> | ->]; discriminate. }
  split.
  { rewrite Htr. unfold wo. cbn [trace emit with_server schedule].
    rewrite Htrd, Hschd. unfold w1. trace_eq. }
  change (client wo) with (client wd) in *. rewrite Hind in *.
  repeat split; auto.
Qed.

Section SessionFacts.
Context {rt : Runtime}.

Lemma get_target_host_some (request : bytes) (t : pystr * Z) :
  get_target_host request = Ret (Some t) ->
  exists s, utf8_decode request = Some s.
Proof.
  intros H. destruct (utf8_decode request) as [s|] eqn:E; [now exists s|].
  unfold get_target_host, get_target_host_body, decode in H.
  rewrite E in H. discriminate.
Qed.

Lemma get_target_host_returns (request : bytes) :
  exists t, get_target_host request = Ret t.
Proof.
  destruct (get_target_host_total request) as [t [H _]]. now exists t.
Qed.

(** The handler once its first read has returned [request]. *)
Lemma session_read (c : peer) (n : connector) (sched : list bool)
      (request : bytes) (rest : stream) :
  read BUFFER_SIZE (incoming c) = (Ret request, rest) ->
  session c n sched
  = try_except
      (bind (lift (decode request))
         (fun _ =>
            bind (lift (get_target_host request))
              (fun tgt =>
                 match tgt with
                 | Some (target_host, target_port) =>
                   if blocked target_host then send_forbidden
                   else if bstartswith request (blit "CONNECT")
                        then handle_https target_host target_port
                        else forward_http request target_host target_port
                 | None => writer_close Client
                 end)))
      (fun _ => writer_close Client)
      (initial (after_read c rest) n sched).
Proof.
  intros Hread.
  assert (Hrd : reader_read Client BUFFER_SIZE (initial c n sched)
                = (Ret request, initial (after_read c rest) n sched)).
  { unfold reader_read, peer_of, initial. simpl. now rewrite Hread. }
  unfold session, handle_client.
  now rewrite (try_except_bind_ret (reader_read Client BUFFER_SIZE)
                 _ _ _ _ _ Hrd).
Qed.

Lemma session_read_fails (c : peer) (n : connector) (sched : list bool)
      (e : exn) (rest : stream) :
  read BUFFER_SIZE (incoming c) = (Exc e, rest) ->
  session c n sched
  = (Ret tt, emit ClientClose (initial (after_read c rest) n sched)).
Proof.
  intros Hread.
  assert (Hrd : reader_read Client BUFFER_SIZE (initial c n sched)
                = (Exc e, initial (after_read c rest) n sched)).
  { unfold reader_read, peer_of, initial. simpl. now rewrite Hread. }
  unfold session, handle_client.
  now rewrite (try_except_bind_exc (reader_read Client BUFFER_SIZE)
                 _ _ _ _ _ Hrd).
Qed.

Lemma session_read_hangs (c : peer) (n : connector) (sched : list bool)
      (rest : stream) :
  read BUFFER_SIZE (incoming c) = (Hang, rest) ->
  session c n sched = (Hang, initial (after_read c rest) n sched).
Proof.
  intros Hread.
  assert (Hrd : reader_read Client BUFFER_SIZE (initial c n sched)
                = (Hang, initial (after_read c rest) n sched)).
  { unfold reader_read, peer_of, initial. simpl. now rewrite Hread. }
  unfold session, handle_client.
  now rewrite (try_except_bind_hang (reader_read Client BUFFER_SIZE)
                 _ _ _ _ Hrd).
Qed.

(** A request the parser cannot resolve: the client is closed and nothing
    else happens. *)
Lemma session_unresolved (c : peer) (n : connector) (sched : list bool)
      (request : bytes) (rest : stream) :
  read BUFFER_SIZE (incoming c) = (Ret request, rest) ->
  get_target_host request = Ret None ->
  session c n sched
  = (Ret tt, emit ClientClose (initial (after_read c rest) n sched)).
Proof.
  intros Hread Hnone. rewrite (session_read c n sched request rest Hread).
  unfold try_except, bind, lift, decode. rewrite Hnone.
  destruct (utf8_decode request); reflexivity.
Qed.

(** A request the parser resolves: the handler branches on the host. *)
Lemma session_resolved (c : peer) (n : connector) (sched : list bool)
      (request : bytes) (rest : stream) (h : pystr) (p : Z) :
  read BUFFER_SIZE (incoming c) = (Ret request, rest) ->
  get_target_host request = Ret (Some (h, p)) ->
  session c n sched
  = try_except
      (if blocked h then send_forbidden
       else if bstartswith request (blit "CONNECT")
            then handle_https h p
            else forward_http request h p)
      (fun _ => writer_close Client)
      (initial (after_read c rest) n sched).
Proof.
  intros Hread Hsome. rewrite (session_read c n sched request rest Hread).
  destruct (get_target_host_some request (h, p) Hsome) as [s Hs].
  unfold try_except, bind, lift, decode. rewrite Hs, Hsome. reflexivity.
Qed.

Lemma session_forward (c : peer) (n : connector) (sched : list bool)
      (request : bytes) (rest : stream) (h : pystr) (p : Z) :
  read BUFFER_SIZE (incoming c) = (Ret request, rest) ->
  get_target_host request = Ret (Some (h, p)) ->
  blocked h = false ->
  bstartswith request (blit "CONNECT") = false ->
  session c n sched
  = forward_http request h p (initial (after_read c rest) n sched).
Proof.
  intros Hread Hsome Hb Hc.
  rewrite (session_resolved c n sched request rest h p Hread Hsome), Hb, Hc.
  apply try_except_completes. intros e. apply forward_http_completes.
Qed.

Lemma session_tunnel (c : peer) (n : connector) (sched : list bool)
      (request : bytes) (rest : stream) (h : pystr) (p : Z) :
  read BUFFER_SIZE (incoming c) = (Ret request, rest) ->
  get_target_host request = Ret (Some (h, p)) ->
  blocked h = false ->
  bstartswith request (blit "CONNECT") = true ->
  session c n sched
  = handle_https h p (initial (after_read c rest) n sched).
Proof.
  intros Hread Hsome Hb Hc.
  rewrite (session_resolved c n sched request rest h p Hread Hsome), Hb, Hc.
  apply try_except_completes. intros e. now apply handle_https_completes.
Qed.

Lemma session_denied (c : peer) (n : connector) (sched : list bool)
      (request : bytes) (rest : stream) (h : pystr) (p : Z) :
  read BUFFER_SIZE (incoming c) = (Ret request, rest) ->
  get_target_host request = Ret (Some (h, p)) ->
  blocked h = true ->
  exists w,
    session c n sched = (Ret tt, w)
    /\ trace w = [ClientWrite (blit forbidden_response); ClientClose].
Proof.
  intros Hread Hsome Hb.
  rewrite (session_resolved c n sched request rest h p Hread Hsome), Hb.
  destruct (send_forbidden_guarded (initial (after_read c rest) n sched))
    as [w [Hrun Htr]].
  exists w. split; [exact Hrun|]. exact Htr.
Qed.

(** A session in forward mode whose destination accepts the connection. *)
Lemma session_forward_accepted (c : peer) (n : connector)
      (sched : list bool) (request : bytes) (rest : stream)
      (h : pystr) (p : Z) (srv : peer) :
  read BUFFER_SIZE (incoming c) = (Ret request, rest) ->
  get_target_host request = Ret (Some (h, p)) ->
  blocked h = false ->
  bstartswith request (blit "CONNECT") = false ->
  n h p = Accepted srv ->
  exists ws closes r w,
    session c n sched = (r, w)
    /\ trace w
       = Dial h p :: Opened :: ServerWrite request
              :: map (write_event Client) ws ++ closes
    /\ (r = Ret tt /\ (closes = [ClientClose; ClientClose]
                       \/ closes = [ClientClose] /\ ws = [])
        \/ r = Hang /\ closes = [])
    /\ incoming (client w) = rest
    /\ (exists tail, delivered (incoming srv) = List.concat ws ++ tail)
    /\ (drains_ok srv = true -> drains_ok c = true ->
        List.concat ws = delivered (incoming srv)).
Proof.
  intros Hread Hsome Hb Hc Hacc.
  rewrite (session_forward c n sched request rest h p Hread Hsome Hb Hc).
  destruct (forward_http_accepted request h p
              (initial (after_read c rest) n sched) srv Hacc)
    as [ws [closes [r [w [Hrun [Htr [Hr [Hin [Hpre Hall]]]]]]]]].
  exists ws, closes, r, w. now repeat split.
Qed.

(** A tunnel that completes has closed both of its connections. *)
Lemma session_tunnel_closes (c : peer) (n : connector)
      (sched : list bool) (request : bytes) (rest : stream)
      (h : pystr) (p : Z) :
  read BUFFER_SIZE (incoming c) = (Ret request, rest) ->
  get_target_host request = Ret (Some (h, p)) ->
  blocked h = false ->
  bstartswith request (blit "CONNECT") = true ->
  fst (session c n sched) = Ret tt ->
  In ClientClose (trace (snd (session c n sched)))
  /\ (In Opened (trace (snd (session c n sched))) ->
      In ServerClose (trace (snd (session c n sched)))).
Proof.
  intros Hread Hsome Hb Hc.
  rewrite (session_tunnel c n sched request rest h p Hread Hsome Hb Hc).
  destruct (handle_https_runs h p (initial (after_read c rest) n sched) Hb)
    as [t [r [w [Hrun [Htr Hcases]]]]].
  rewrite Hrun. cbn [fst snd]. rewrite Htr. cbn [trace initial app].
  destruct Hcases as [[_ [-> _]]|[_ Htun]].
  - intros _. split; [right; now left|].
    intros [E|[E|[]]]; discriminate.
  - destruct Htun as [Href|Hun|srv wsA wsB cA cB r Hacc HcA HcB Hr].
    + intros _. split; [do 2 right; now left|].
      intros [E|[E|[E|[]]]]; discriminate.
    + discriminate.
    + intros ->. destruct Hr as [[_ [-> ->]]|E]; [|discriminate].
      split.
      * do 3 right. apply merge_in. right. apply in_or_app. right. now left.
      * intros _. do 3 right. apply merge_in. left. apply in_or_app.
        right. now left.
Qed.

End SessionFacts.

Lemma tunnel_run_events (h : pystr) (p : Z) (n : connector)
      (sched : list bool) (r : outcome unit) (t : list event) :
  tunnel_run h p n sched r t ->
  (forall h' p', In (Dial h' p') t -> h' = h /\ p' = p)
  /\ (In Opened t -> exists srv, n h p = Accepted srv).
Proof.
  intros H. destruct H as [Href|Hun|srv wsA wsB cA cB r Hacc HcA HcB Hr].
  - split.
    + intros h' p' [E|[E|[]]]; [now inversion E|discriminate].
    + intros [E|[E|[]]]; discriminate.
  - split.
    + intros h' p' [E|[]]. now inversion E.
    + intros [E|[]]. discriminate.
  - assert (Hrel : forall e,
               In e (merge sched (map (write_event Server) wsA ++ cA)
                           (map (write_event Client) wsB ++ cB)) ->
               (exists s d, e = write_event s d) \/ (exists s, e = close_event s)).
    { intros e He. apply in_merge in He as [He|He];
        apply in_app_or in He as [He|He].
      - apply in_writes in He as [d ->]. left. now exists Server, d.
      - right. exists Server.
        destruct HcA as [->| ->]; [contradiction|].
        destruct He as [<-|[]]. reflexivity.
      - apply in_writes in He as [d ->]. left. now exists Client, d.
      - right. exists Client.
        destruct HcB as [->| ->]; [contradiction|].
        destruct He as [<-|[]]. reflexivity. }
    split.
    + intros h' p' [E|[E|Hin]]; [now inversion E|discriminate|].
      apply Hrel in Hin as [[s [d E]]|[s E]]; destruct s; discriminate.
    + intros _. now exists srv.
Qed.

Section Claims.
Context {rt : Runtime}.

(** C1.  When the host the parser resolves is on the blocklist, the
    handler writes the fixed 403 response to the client, closes the client
    connection and does nothing else: it neither calls the connector nor
    opens an outbound connection. *)
Theorem denied_host_gets_403 (c : peer) (n : connector) (sched : list bool)
        (request : bytes) (rest : stream) (h : pystr) (p : Z) :
  read BUFFER_SIZE (incoming c) = (Ret request, rest) ->
  get_target_host request = Ret (Some (h, p)) ->
  blocked h = true ->
  exists w,
    session c n sched = (Ret tt, w)
    /\ trace w = [ClientWrite (blit forbidden_response); ClientClose]
    /\ (forall h' p', ~ In (Dial h' p') (trace w))
    /\ ~ In Opened (trace w).
Proof.
  intros Hread Hsome Hb.
  destruct (session_denied c n sched request rest h p Hread Hsome Hb)
    as [w [Hrun Htr]].
  exists w. split; [exact Hrun|]. rewrite Htr.
  split; [reflexivity|]. split.
  - intros h' p' [E|[E|[]]]; discriminate.
  - intros [E|[E|[]]]; discriminate.
Qed.

(** C2 (amended).  A session whose request the parser cannot resolve
    closes the client connection and writes nothing; so does a session in
    forward mode whose destination refuses the connection.  A CONNECT
    session whose destination refuses the connection has already written
    the 200 response, which has no body, before the client is closed. *)
Theorem failed_session_closes_client (c : peer) (n : connector)
        (sched : list bool) (request : bytes) (rest : stream) :
  read BUFFER_SIZE (incoming c) = (Ret request, rest) ->
  (get_target_host request = Ret None ->
   exists w, session c n sched = (Ret tt, w) /\ trace w = [ClientClose])
  /\ (forall h p,
         get_target_host request = Ret (Some (h, p)) ->
         blocked h = false ->
         n h p = Refused ->
         exists w,
           session c n sched = (Ret tt, w)
           /\ (bstartswith request (blit "CONNECT") = false ->
               trace w = [Dial h p; ClientClose])
           /\ (bstartswith request (blit "CONNECT") = true ->
               trace w = [ClientWrite (blit established); Dial h p; ClientClose]
               \/ trace w = [ClientWrite (blit established); ClientClose]))
  /\ message_body (blit established) = [].
Proof.
  intros Hread. split; [|split; [|reflexivity]].
  - intros Hnone. rewrite (session_unresolved c n sched request rest Hread Hnone).
    eexists. split; reflexivity.
  - intros h p Hsome Hb Href.
    destruct (bstartswith request (blit "CONNECT")) eqn:Hc.
    + rewrite (session_tunnel c n sched request rest h p Hread Hsome Hb Hc).
      destruct (handle_https_runs h p (initial (after_read c rest) n sched) Hb)
        as [t [r [w [Hrun [Htr Hcases]]]]].
      rewrite Hrun. simpl in Htr, Hcases.
      destruct Hcases as [[-> [-> _]]|[_ Htun]].
      * exists w. split; [reflexivity|]. split; [discriminate|]. now right.
      * destruct Htun as [_|Hun|srv wsA wsB cA cB r Hacc _ _ _].
        -- exists w. split; [reflexivity|]. split; [discriminate|]. now left.
        -- rewrite Href in Hun. discriminate.
        -- rewrite Href in Hacc. discriminate.
    + rewrite (session_forward c n sched request rest h p Hread Hsome Hb Hc).
      rewrite (forward_http_refused request h p
               (initial (after_read c rest) n sched) Href).
      eexists. split; [reflexivity|]. split; [reflexivity|discriminate].
Qed.

(** C3 (what the code does).  In forward mode, once the destination has
    accepted the connection, the handler never closes the outbound
    connection: the session's trace holds the opening and no close of the
    server side, also when the session completes and the client has been
    closed. *)
Theorem forward_session_leaves_outbound_open (c : peer) (n : connector)
        (sched : list bool) (request : bytes) (rest : stream)
        (h : pystr) (p : Z) (srv : peer) :
  read BUFFER_SIZE (incoming c) = (Ret request, rest) ->
  get_target_host request = Ret (Some (h, p)) ->
  blocked h = false ->
  bstartswith request (blit "CONNECT") = false ->
  n h p = Accepted srv ->
  In Opened (trace (snd (session c n sched)))
  /\ ~ In ServerClose (trace (snd (session c n sched)))
  /\ (fst (session c n sched) = Ret tt ->
      In ClientClose (trace (snd (session c n sched)))).
Proof.
  intros Hread Hsome Hb Hc Hacc.
  destruct (session_forward_accepted c n sched request rest h p srv
              Hread Hsome Hb Hc Hacc)
    as [ws [closes [r [w [Hrun [Htr [Hr _]]]]]]].
  rewrite Hrun. cbn [fst snd]. rewrite Htr.
  split; [right; now left|]. split.
  - intros [E|[E|[E|Hin]]]; try discriminate.
    apply in_app_or in Hin as [Hin|Hin].
    + apply in_writes in Hin as [d E]. discriminate.
    + destruct Hr as [[_ [-> |[-> _]]]|[_ ->]];
        repeat (destruct Hin as [E|Hin]; [discriminate|]); contradiction.
  - intros ->. do 3 right. apply in_or_app. right.
    destruct Hr as [[_ [-> |[-> _]]]|[E _]]; [now left|now left|discriminate].
Qed.

(** C8 (amended).  In forward mode, that is when the parser resolves the
    first read (which it does only for a read that is valid UTF-8 as a
    whole) to a host that is not blocked and the read does not begin with
    [CONNECT], once the destination has accepted the connection the only
    bytes written to it are the request as it was read; what is written
    to the client is a prefix of what the destination delivers, byte for
    byte and whatever the bytes are, and all of it when no [drain]
    fails. *)
Theorem forward_passthrough (c : peer) (n : connector) (sched : list bool)
        (request : bytes) (rest : stream) (h : pystr) (p : Z) (srv : peer) :
  read BUFFER_SIZE (incoming c) = (Ret request, rest) ->
  get_target_host request = Ret (Some (h, p)) ->
  blocked h = false ->
  bstartswith request (blit "CONNECT") = false ->
  n h p = Accepted srv ->
  sent_to Server (trace (snd (session c n sched))) = [request]
  /\ (exists tail,
         delivered (incoming srv)
         = List.concat (sent_to Client (trace (snd (session c n sched))))
             ++ tail)
  /\ (drains_ok srv = true -> drains_ok c = true ->
      List.concat (sent_to Client (trace (snd (session c n sched))))
      = delivered (incoming srv)).
Proof.
  intros Hread Hsome Hb Hc Hacc.
  destruct (session_forward_accepted c n sched request rest h p srv
              Hread Hsome Hb Hc Hacc)
    as [ws [closes [r [w [Hrun [Htr [Hr [_ [Hpre Hall]]]]]]]]].
  rewrite Hrun. cbn [fst snd]. rewrite Htr.
  assert (Hcs : sent_to Server closes = [] /\ sent_to Client closes = []).
  { destruct Hr as [[_ [-> |[-> _]]]|[_ ->]]; now split. }
  destruct Hcs as [Hcs Hcc].
  assert (Hs : sent_to Server
                 (Dial h p :: Opened :: ServerWrite request
                       :: map (write_event Client) ws ++ closes)
               = [request]).
  { cbn [sent_to]. now rewrite sent_to_app, sent_to_other_writes, Hcs. }
  assert (Hcl : sent_to Client
                  (Dial h p :: Opened :: ServerWrite request
                        :: map (write_event Client) ws ++ closes)
                = ws).
  { cbn [sent_to]. now rewrite sent_to_app, sent_to_writes, Hcc, app_nil_r. }
  rewrite Hs, Hcl. split; [reflexivity|]. split; [exact Hpre|].
  intros Hsrv Hcli. now apply Hall.
Qed.

(** C10.  In forward mode the first read returns at most [BUFFER_SIZE]
    bytes, the only thing ever written to the destination is what that
    read returned, and the handler never reads from the client again: what
    the client sends afterwards stays unread. *)
Theorem forward_sends_first_read_only (c : peer) (n : connector)
        (sched : list bool) (request : bytes) (rest : stream)
        (h : pystr) (p : Z) :
  read BUFFER_SIZE (incoming c) = (Ret request, rest) ->
  get_target_host request = Ret (Some (h, p)) ->
  blocked h = false ->
  bstartswith request (blit "CONNECT") = false ->
  List.length request <= BUFFER_SIZE
  /\ (sent_to Server (trace (snd (session c n sched))) = [request]
      \/ sent_to Server (trace (snd (session c n sched))) = [])
  /\ incoming (client (snd (session c n sched))) = rest.
Proof.
  intros Hread Hsome Hb Hc.
  split; [exact (read_length BUFFER_SIZE (incoming c) rest request Hread)|].
  destruct (n h p) as [srv| |] eqn:Hnet.
  - destruct (session_forward_accepted c n sched request rest h p srv
                Hread Hsome Hb Hc Hnet)
      as [ws [closes [r [w [Hrun [Htr [Hr [Hin _]]]]]]]].
    rewrite Hrun. cbn [fst snd]. rewrite Htr. split; [left|exact Hin].
    cbn [sent_to]. rewrite sent_to_app, sent_to_other_writes.
    destruct Hr as [[_ [-> |[-> _]]]|[_ ->]]; reflexivity.
  - rewrite (session_forward c n sched request rest h p Hread Hsome Hb Hc).
    rewrite (forward_http_refused request h p
               (initial (after_read c rest) n sched) Hnet).
    split; [now right|reflexivity].
  - rewrite (session_forward c n sched request rest h p Hread Hsome Hb Hc).
    rewrite (forward_http_unanswered request h p
               (initial (after_read c rest) n sched) Hnet).
    split; [now right|reflexivity].
Qed.

(** C5 (amended).  The handler calls the connector only with the host
    and port the parser returned for the first read, and only when that
    host is not on the blocklist; an outbound connection is opened only
    when the connector accepts that host and port.  The handler itself
    checks neither that the host is non-empty nor that the port lies in
    1..65535.  A request the parser cannot resolve leads to no call of the
    connector and the client connection is closed at once. *)
Theorem outbound_only_for_resolved_host (c : peer) (n : connector)
        (sched : list bool) :
  (forall h p,
      In (Dial h p) (trace (snd (session c n sched))) ->
      exists request rest,
        read BUFFER_SIZE (incoming c) = (Ret request, rest)
        /\ get_target_host request = Ret (Some (h, p))
        /\ blocked h = false)
  /\ (In Opened (trace (snd (session c n sched))) ->
      exists h p srv,
        In (Dial h p) (trace (snd (session c n sched)))
        /\ n h p = Accepted srv)
  /\ (forall request rest,
         read BUFFER_SIZE (incoming c) = (Ret request, rest) ->
         get_target_host request = Ret None ->
         fst (session c n sched) = Ret tt
         /\ trace (snd (session c n sched)) = [ClientClose]).
Proof.
  destruct (read BUFFER_SIZE (incoming c)) as [[request|e|] rest] eqn:Hread.
  - destruct (get_target_host_returns request) as [[[h p]|] Ht].
    + assert (Hthird : forall (P : Prop) request0 rest0,
                 (Ret request, rest) = (Ret request0, rest0) ->
                 get_target_host request0 = Ret None -> P).
      { intros P request0 rest0 E Hnone. inversion E; subst.
        rewrite Ht in Hnone. discriminate. }
      destruct (blocked h) eqn:Hb.
      { destruct (session_denied c n sched request rest h p Hread Ht Hb)
          as [w [Hrun Htr]].
        rewrite Hrun. cbn [fst snd]. rewrite Htr.
        split; [|split; [|intros r0 s0 E0 N0; exact (Hthird _ r0 s0 E0 N0)]].
        - intros h' p' [E|[E|[]]]; discriminate.
        - intros [E|[E|[]]]; discriminate. }
      destruct (bstartswith request (blit "CONNECT")) eqn:Hc.
      * rewrite (session_tunnel c n sched request rest h p Hread Ht Hb Hc)
          in *.
        destruct (handle_https_runs h p (initial (after_read c rest) n sched) Hb)
          as [t [r [w [Hrun [Htr Hcases]]]]].
        rewrite Hrun in *. cbn [fst snd] in *. rewrite Htr in *.
        cbn [trace initial app net schedule] in *.
        destruct Hcases as [[_ [-> _]]|[_ Htun]].
        -- split; [|split; [|intros r0 s0 E0 N0; exact (Hthird _ r0 s0 E0 N0)]].
           ++ intros h' p' [E|[E|[]]]; discriminate.
           ++ intros [E|[E|[]]]; discriminate.
        -- destruct (tunnel_run_events h p n sched r t Htun) as [Hd Ho].
           assert (Hdial : forall h' p',
                      In (Dial h' p') (ClientWrite (blit established) :: t) ->
                      h' = h /\ p' = p).
           { intros h' p' [E|Hin]; [discriminate|]. now apply Hd. }
           split; [|split; [|intros r0 s0 E0 N0; exact (Hthird _ r0 s0 E0 N0)]].
           ++ intros h' p' Hin. destruct (Hdial h' p' Hin) as [-> ->].
              now exists request, rest.
           ++ intros [E|Hin]; [discriminate|].
              destruct (Ho Hin) as [srv Hsrv]. exists h, p, srv.
              split; [|exact Hsrv]. right.
              destruct Htun as [Href|Hun|srv' wsA wsB cA cB r' _ _ _ _];
                [rewrite Href in Hsrv; discriminate
                |rewrite Hun in Hsrv; discriminate
                |now left].
      * destruct (n h p) as [srv| |] eqn:Hnet.
        -- destruct (session_forward_accepted c n sched request rest h p srv
                       Hread Ht Hb Hc Hnet)
             as [ws [closes [r [w [Hrun [Htr [Hr _]]]]]]].
           rewrite Hrun in *. cbn [fst snd] in *. rewrite Htr in *.
           assert (Hrest : forall e,
                      In e (map (write_event Client) ws ++ closes) ->
                      (exists d, e = ClientWrite d) \/ e = ClientClose).
           { intros e He. apply in_app_or in He as [He|He].
             - apply in_writes in He as [d ->]. left. now exists d.
             - right.
               destruct Hr as [[_ [-> |[-> _]]]|[_ ->]];
                 repeat (destruct He as [<-|He]; [reflexivity|]);
                 contradiction. }
           split; [|split; [|intros r0 s0 E0 N0; exact (Hthird _ r0 s0 E0 N0)]].
           ++ intros h' p' [E|[E|[E|Hin]]]; try discriminate.
              ** inversion E; subst. now exists request, rest.
              ** apply Hrest in Hin as [[d E]|E]; discriminate.
           ++ intros _. exists h, p, srv. split; [now left|exact Hnet].
        -- rewrite (session_forward c n sched request rest h p Hread Ht Hb Hc)
             in *.
           rewrite (forward_http_refused request h p
                      (initial (after_read c rest) n sched) Hnet) in *.
           cbn [fst snd trace emit initial app] in *.
           split; [|split; [|intros r0 s0 E0 N0; exact (Hthird _ r0 s0 E0 N0)]].
           ++ intros h' p' [E|[E|[]]]; [|discriminate].
              inversion E; subst. now exists request, rest.
           ++ intros [E|[E|[]]]; discriminate.
        -- rewrite (session_forward c n sched request rest h p Hread Ht Hb Hc)
             in *.
           rewrite (forward_http_unanswered request h p
                      (initial (after_read c rest) n sched) Hnet) in *.
           cbn [fst snd trace emit initial app] in *.
           split; [|split; [|intros r0 s0 E0 N0; exact (Hthird _ r0 s0 E0 N0)]].
           ++ intros h' p' [E|[]].
              inversion E; subst. now exists request, rest.
           ++ intros [E|[]]; discriminate.
    + rewrite (session_unresolved c n sched request rest Hread Ht).
      cbn [fst snd trace emit initial app].
      split; [|split].
      * intros h' p' [E|[]]; discriminate.
      * intros [E|[]]; discriminate.
      * auto.
  - rewrite (session_read_fails c n sched e rest Hread).
    cbn [fst snd trace emit initial app].
    split; [|split].
    + intros h' p' [E|[]]; discriminate.
    + intros [E|[]]; discriminate.
    + intros request0 rest0 E. discriminate.
  - rewrite (session_read_hangs c n sched rest Hread).
    cbn [fst snd trace initial].
    split; [|split].
    + intros h' p' [].
    + intros [].
    + intros request0 rest0 E. discriminate.
Qed.

(** X1.  In a tunnel the 200 response is the first thing the handler
    does: it is written to the client before the connector is called and
    before any byte is relayed. *)
Theorem tunnel_writes_200_first (c : peer) (n : connector)
        (sched : list bool) (request : bytes) (rest : stream)
        (h : pystr) (p : Z) :
  read BUFFER_SIZE (incoming c) = (Ret request, rest) ->
  get_target_host request = Ret (Some (h, p)) ->
  blocked h = false ->
  bstartswith request (blit "CONNECT") = true ->
  exists t,
    trace (snd (session c n sched)) = ClientWrite (blit established) :: t.
Proof.
  intros Hread Hsome Hb Hc.
  rewrite (session_tunnel c n sched request rest h p Hread Hsome Hb Hc).
  destruct (handle_https_runs h p (initial (after_read c rest) n sched) Hb)
    as [t [r [w [Hrun [Htr _]]]]].
  rewrite Hrun. exists t. exact Htr.
Qed.

(** X2.  A tunnel that completes has closed the client connection and,
    if it opened one, the outbound connection. *)
Theorem tunnel_session_closes_both (c : peer) (n : connector)
        (sched : list bool) (request : bytes) (rest : stream)
        (h : pystr) (p : Z) :
  read BUFFER_SIZE (incoming c) = (Ret request, rest) ->
  get_target_host request = Ret (Some (h, p)) ->
  blocked h = false ->
  bstartswith request (blit "CONNECT") = true ->
  fst (session c n sched) = Ret tt ->
  In ClientClose (trace (snd (session c n sched)))
  /\ (In Opened (trace (snd (session c n sched))) ->
      In ServerClose (trace (snd (session c n sched)))).
Proof.
  intros Hread Hsome Hb Hc.
  exact (session_tunnel_closes c n sched request rest h p Hread Hsome Hb Hc).
Qed.

(** X3.  Every session that completes has closed the client
    connection, whatever the client sent, the connector did and the
    schedule was. *)
Theorem completed_session_closed_client (c : peer) (n : connector)
        (sched : list bool) :
  fst (session c n sched) = Ret tt ->
  In ClientClose (trace (snd (session c n sched))).
Proof.
  destruct (read BUFFER_SIZE (incoming c)) as [[request|e|] rest] eqn:Hread.
  - destruct (get_target_host_returns request) as [[[h p]|] Ht].
    + destruct (blocked h) eqn:Hb.
      { destruct (session_denied c n sched request rest h p Hread Ht Hb)
          as [w [Hrun Htr]].
        rewrite Hrun. cbn [fst snd]. rewrite Htr. intros _. right. now left. }
      destruct (bstartswith request (blit "CONNECT")) eqn:Hc.
      * intros Hret.
        exact (proj1 (session_tunnel_closes c n sched request rest h p
                        Hread Ht Hb Hc Hret)).
      * destruct (n h p) as [srv| |] eqn:Hnet.
        -- destruct (session_forward_accepted c n sched request rest h p srv
                       Hread Ht Hb Hc Hnet)
             as [ws [closes [r [w [Hrun [Htr [Hr _]]]]]]].
           rewrite Hrun. cbn [fst snd]. rewrite Htr. intros ->.
           do 3 right. apply in_or_app. right.
           destruct Hr as [[_ [-> |[-> _]]]|[E _]];
             [now left|now left|discriminate].
        -- rewrite (session_forward c n sched request rest h p Hread Ht Hb Hc).
           rewrite (forward_http_refused request h p
                      (initial (after_read c rest) n sched) Hnet).
           intros _. right. now left.
        -- rewrite (session_forward c n sched request rest h p Hread Ht Hb Hc).
           rewrite (forward_http_unanswered request h p
                      (initial (after_read c rest) n sched) Hnet).
           discriminate.
    + rewrite (session_unresolved c n sched request rest Hread Ht).
      intros _. now left.
  - rewrite (session_read_fails c n sched e rest Hread).
    intros _. now left.
  - rewrite (session_read_hangs c n sched rest Hread). discriminate.
Qed.

(** X4.  A tunnel alters nothing in either direction: the bytes written
    to the destination are, in order and unchanged, a prefix of what the
    client delivers after its first read, and the bytes written to the
    client are the 200 response followed, in order and unchanged, by a
    prefix of what the destination delivers, however the two relays are
    interleaved.  How long the prefixes are is not said: a relay stops
    when its reads end or a [drain] fails. *)
Theorem tunnel_relays_both_directions (c : peer) (n : connector)
        (sched : list bool) (request : bytes) (rest : stream)
        (h : pystr) (p : Z) (srv : peer) :
  read BUFFER_SIZE (incoming c) = (Ret request, rest) ->
  get_target_host request = Ret (Some (h, p)) ->
  blocked h = false ->
  bstartswith request (blit "CONNECT") = true ->
  n h p = Accepted srv ->
  hd true (drains c) = true ->
  (exists tail,
      delivered rest
      = List.concat (sent_to Server (trace (snd (session c n sched)))) ++ tail)
  /\ (exists wsB tail,
         sent_to Client (trace (snd (session c n sched)))
         = blit established :: wsB
         /\ delivered (incoming srv) = List.concat wsB ++ tail).
Proof.
  intros Hread Hsome Hb Hc Hacc Hhd.
  rewrite (session_tunnel c n sched request rest h p Hread Hsome Hb Hc).
  destruct (handle_https_accepted h p (initial (after_read c rest) n sched)
              srv Hb Hacc Hhd)
    as [wsA [wsB [cA [cB [r [w [Hrun [Htr [HcA [HcB [HpreA [HpreB
          _]]]]]]]]]]]].
  rewrite Hrun. cbn [fst snd]. rewrite Htr.
  cbn [trace initial app schedule client after_read incoming drains] in *.
  destruct (sent_to_merge sched
              (map (write_event Server) wsA ++ cA)
              (map (write_event Client) wsB ++ cB)
              (only_side_writes Server wsA cA HcA)
              (only_side_writes Client wsB cB HcB)) as [HsA HsB].
  assert (HwA : sent_to Server (map (write_event Server) wsA ++ cA) = wsA).
  { rewrite sent_to_app, sent_to_writes.
    destruct HcA as [-> | ->]; apply app_nil_r. }
  assert (HwB : sent_to Client (map (write_event Client) wsB ++ cB) = wsB).
  { rewrite sent_to_app, sent_to_writes.
    destruct HcB as [-> | ->]; apply app_nil_r. }
  cbn [sent_to]. rewrite HsA, HsB, HwA, HwB.
  split; [exact HpreA|].
  destruct HpreB as [tail Htail]. now exists wsB, tail.
Qed.

End Claims.

(* ================================================================== *)
(** * The denial response                                               *)
(* ================================================================== *)

(** C4 (what the code does).  The response [send_forbidden] writes is the
    403 literal, its [Content-Length] header declares 58 bytes, and its
    body is 63 bytes long: the declared length is not the length of the
    body. *)
Theorem forbidden_content_length_mismatch :
  trace (snd (send_forbidden (initial (sending []) refuse_all [])))
  = [ClientWrite (blit forbidden_response); ClientClose]
  /\ declared_length (blit forbidden_response) = Some 58%N
  /\ message_body (blit forbidden_response) = blit forbidden_body
  /\ List.length (blit forbidden_body) = 63
  /\ Some (N.of_nat (List.length (message_body (blit forbidden_response))))
     <> declared_length (blit forbidden_response).
Proof.
  repeat split; try (vm_compute; reflexivity).
  vm_compute. discriminate.
Qed.

(* ================================================================== *)
(** * Sessions run on examples                                          *)
(* ================================================================== *)

(** C1, witness: a request for the blocked host. *)
Lemma denied_host_gets_403_witness :
  exists w,
    @session sample_runtime (sending (blit get_blocked_host)) refuse_all []
    = (Ret tt, w)
    /\ trace w = [ClientWrite (blit forbidden_response); ClientClose]
    /\ (forall h' p', ~ In (Dial h' p') (trace w))
    /\ ~ In Opened (trace w).
Proof.
  exact (@denied_host_gets_403 sample_runtime
           (sending (blit get_blocked_host)) refuse_all []
           (blit get_blocked_host) [Eof] (lit "www.example.com") 80%Z
           eq_refl eq_refl eq_refl).
Defined.

(** C2, counterexample.  A CONNECT request to a destination that refuses
    the connection: the client is closed, but the 200 response has been
    written to it before. *)
Lemma refused_connect_writes_200 :
  @get_target_host sample_runtime (blit connect_example_org)
  = Ret (Some (lit "example.org", 443%Z))
  /\ refuse_all (lit "example.org") 443%Z = Refused
  /\ fst (@session sample_runtime (sending (blit connect_example_org))
                   refuse_all [])
     = Ret tt
  /\ trace (snd (@session sample_runtime (sending (blit connect_example_org))
                          refuse_all []))
     = [ClientWrite (blit established); Dial (lit "example.org") 443%Z;
        ClientClose]
  /\ sent_to Client
       (trace (snd (@session sample_runtime
                             (sending (blit connect_example_org))
                             refuse_all [])))
     <> [].
Proof.
  repeat split; try (vm_compute; reflexivity).
  vm_compute. discriminate.
Qed.

(** C2, witness: a request without a [Host] line, a forward request and a
    CONNECT request to a destination that refuses the connection. *)
Lemma failed_session_closes_client_witness :
  (exists w,
      @session sample_runtime (sending (blit get_without_host)) refuse_all []
      = (Ret tt, w)
      /\ trace w = [ClientClose])
  /\ (exists w,
         @session sample_runtime (sending (blit get_example_org)) refuse_all []
         = (Ret tt, w)
         /\ trace w = [Dial (lit "example.org") 80%Z; ClientClose])
  /\ (exists w,
         @session sample_runtime (sending (blit connect_example_org))
                  refuse_all []
         = (Ret tt, w)
         /\ (trace w = [ClientWrite (blit established);
                        Dial (lit "example.org") 443%Z; ClientClose]
             \/ trace w = [ClientWrite (blit established); ClientClose])).
Proof.
  split; [|split].
  - exact (proj1 (@failed_session_closes_client sample_runtime
                    (sending (blit get_without_host)) refuse_all []
                    (blit get_without_host) [Eof] eq_refl)
                 eq_refl).
  - destruct (proj1 (proj2 (@failed_session_closes_client sample_runtime
                       (sending (blit get_example_org)) refuse_all []
                       (blit get_example_org) [Eof] eq_refl))
                    (lit "example.org") 80%Z eq_refl eq_refl eq_refl)
      as [w [Hrun [Hforward _]]].
    exists w. split; [exact Hrun|exact (Hforward eq_refl)].
  - destruct (proj1 (proj2 (@failed_session_closes_client sample_runtime
                       (sending (blit connect_example_org)) refuse_all []
                       (blit connect_example_org) [Eof] eq_refl))
                    (lit "example.org") 443%Z eq_refl eq_refl eq_refl)
      as [w [Hrun [_ Htunnel]]].
    exists w. split; [exact Hrun|exact (Htunnel eq_refl)].
Defined.

(** A forward session that completes: the request goes out, the answer
    comes back, the client is closed twice and the server never. *)
Lemma forward_session_example :
  @session sample_runtime (sending (blit get_example_org))
           (accept_all (sending (blit "hello"))) []
  = (Ret tt,
     {| client := {| incoming := [Eof]; drains := [] |};
        server := Some {| incoming := [Eof]; drains := [] |};
        net := accept_all (sending (blit "hello"));
        schedule := [];
        trace := [Dial (lit "example.org") 80%Z; Opened;
                  ServerWrite (blit get_example_org);
                  ClientWrite (blit "hello");
                  ClientClose; ClientClose] |}).
Proof. vm_compute. reflexivity. Qed.

(** C3, witness: the forward session above completes with the outbound
    connection opened and not closed. *)
Lemma forward_session_leaves_outbound_open_witness :
  fst (@session sample_runtime (sending (blit get_example_org))
                (accept_all (sending (blit "hello"))) [])
  = Ret tt
  /\ In Opened
        (trace (snd (@session sample_runtime (sending (blit get_example_org))
                              (accept_all (sending (blit "hello"))) [])))
  /\ ~ In ServerClose
        (trace (snd (@session sample_runtime (sending (blit get_example_org))
                              (accept_all (sending (blit "hello"))) [])))
  /\ In ClientClose
        (trace (snd (@session sample_runtime (sending (blit get_example_org))
                              (accept_all (sending (blit "hello"))) []))).
Proof.
  destruct (@forward_session_leaves_outbound_open sample_runtime
              (sending (blit get_example_org))
              (accept_all (sending (blit "hello"))) []
              (blit get_example_org) [Eof] (lit "example.org") 80%Z
              (sending (blit "hello"))
              eq_refl eq_refl eq_refl eq_refl eq_refl)
    as [Hopened [Hopen Hclosed]].
  assert (Hret : fst (@session sample_runtime (sending (blit get_example_org))
                               (accept_all (sending (blit "hello"))) [])
                 = Ret tt)
    by (vm_compute; reflexivity).
  exact (conj Hret (conj Hopened (conj Hopen (Hclosed Hret)))).
Defined.

(** C5, counterexample.  The parser resolves port 70000, which lies
    outside 1..65535, and the empty host; the handler calls the connector
    for both, and with a connector that accepts what it is given the
    outbound connection is opened.  Even when the connector refuses, the
    client of the CONNECT request is not closed at once: the 200 response
    is written to it first. *)
Lemma outbound_opened_for_invalid_destination :
  (@get_target_host sample_runtime (blit connect_port_70000)
   = Ret (Some (lit "example.org", 70000%Z))
   /\ ~ (1 <= 70000 <= 65535)%Z
   /\ In Opened
         (trace (snd (@session sample_runtime
                               (sending (blit connect_port_70000))
                               (accept_all (sending (blit "ok"))) [])))
   /\ trace (snd (@session sample_runtime
                           (sending (blit connect_port_70000))
                           refuse_all []))
      = [ClientWrite (blit established); Dial (lit "example.org") 70000%Z;
         ClientClose])
  /\ (@get_target_host sample_runtime (blit get_empty_host)
      = Ret (Some ([], 80%Z))
      /\ In Opened
            (trace (snd (@session sample_runtime
                                  (sending (blit get_empty_host))
                                  (accept_all (sending (blit "ok"))) [])))
      /\ trace (snd (@session sample_runtime
                              (sending (blit get_empty_host))
                              refuse_all []))
         = [Dial [] 80%Z; ClientClose]).
Proof.
  repeat split; try (vm_compute; reflexivity); try lia.
  - vm_compute. auto.
  - vm_compute. auto.
Qed.

(** C5, witness: the connector is called for [example.org:443], the
    destination the parser returned. *)
Lemma outbound_only_for_resolved_host_witness :
  exists request rest,
    read BUFFER_SIZE (incoming (sending (blit connect_example_org)))
    = (Ret request, rest)
    /\ @get_target_host sample_runtime request
       = Ret (Some (lit "example.org", 443%Z))
    /\ blocked (lit "example.org") = false.
Proof.
  refine (proj1 (@outbound_only_for_resolved_host sample_runtime
                   (sending (blit connect_example_org))
                   (accept_all (sending (blit "ok"))) [])
                (lit "example.org") 443%Z _).
  vm_compute. auto.
Defined.

(** C8, witness: a forward session whose destination answers with bytes
    that are not text. *)
Lemma forward_passthrough_witness :
  sent_to Server
    (trace (snd (@session sample_runtime (sending (blit get_example_org))
                          (accept_all (sending binary_payload)) [])))
  = [blit get_example_org]
  /\ List.concat
       (sent_to Client
          (trace (snd (@session sample_runtime (sending (blit get_example_org))
                                (accept_all (sending binary_payload)) []))))
     = binary_payload
  /\ utf8_decode binary_payload = None.
Proof.
  destruct (@forward_passthrough sample_runtime
              (sending (blit get_example_org))
              (accept_all (sending binary_payload)) []
              (blit get_example_org) [Eof] (lit "example.org") 80%Z
              (sending binary_payload)
              eq_refl eq_refl eq_refl eq_refl eq_refl)
    as [Hrequest [_ Hanswer]].
  exact (conj Hrequest (conj (Hanswer eq_refl eq_refl) eq_refl)).
Defined.

(** C8, counterexample.  A forward request whose body is not text.  Its
    head alone is resolved to [example.org] and reaches the destination
    unchanged; with the body in the same read the request is not resolved
    and nothing of it reaches any destination: the handler closes the
    client and never calls the connector. *)
Lemma binary_request_not_forwarded :
  (@get_target_host sample_runtime (blit post_example_org)
   = Ret (Some (lit "example.org", 80%Z))
   /\ sent_to Server
        (trace (snd (@session sample_runtime
                       (sending (blit post_example_org))
                       (accept_all (sending (blit "hello"))) [])))
      = [blit post_example_org])
  /\ read BUFFER_SIZE (incoming (sending post_binary_body))
     = (Ret post_binary_body, [Eof])
  /\ bstartswith post_binary_body (blit "CONNECT") = false
  /\ blocked (lit "example.org") = false
  /\ @get_target_host sample_runtime post_binary_body = Ret None
  /\ fst (@session sample_runtime (sending post_binary_body)
                   (accept_all (sending (blit "hello"))) [])
     = Ret tt
  /\ trace (snd (@session sample_runtime (sending post_binary_body)
                          (accept_all (sending (blit "hello"))) []))
     = [ClientClose].
Proof. repeat split; vm_compute; reflexivity. Qed.

(** C10, witness: the client sends a request and then more; only the
    request reaches the destination and the rest stays unread. *)
Lemma forward_sends_first_read_only_witness :
  List.length (blit get_example_org) <= BUFFER_SIZE
  /\ (sent_to Server
        (trace (snd (@session sample_runtime
                       {| incoming := [Data (blit get_example_org);
                                       Data (blit "more"); Eof];
                          drains := [] |}
                       (accept_all (sending (blit "hello"))) [])))
      = [blit get_example_org]
      \/ sent_to Server
           (trace (snd (@session sample_runtime
                          {| incoming := [Data (blit get_example_org);
                                          Data (blit "more"); Eof];
                             drains := [] |}
                          (accept_all (sending (blit "hello"))) [])))
         = [])
  /\ incoming
       (client (snd (@session sample_runtime
                       {| incoming := [Data (blit get_example_org);
                                       Data (blit "more"); Eof];
                          drains := [] |}
                       (accept_all (sending (blit "hello"))) [])))
     = [Data (blit "more"); Eof].
Proof.
  exact (@forward_sends_first_read_only sample_runtime
           {| incoming := [Data (blit get_example_org);
                           Data (blit "more"); Eof];
              drains := [] |}
           (accept_all (sending (blit "hello"))) []
           (blit get_example_org) [Data (blit "more"); Eof]
           (lit "example.org") 80%Z
           eq_refl eq_refl eq_refl eq_refl).
Defined.

(** A tunnel that completes: the 200 response, the connection, [pong] to
    the client and [ping] to the server in the order the schedule picks,
    then both sides closed. *)
Lemma tunnel_session_example :
  @session sample_runtime tunnel_client
           (accept_all (sending (blit "pong"))) [false; true]
  = (Ret tt,
     {| client := {| incoming := [Eof]; drains := [] |};
        server := Some {| incoming := [Eof]; drains := [] |};
        net := accept_all (sending (blit "pong"));
        schedule := [false; true];
        trace := [ClientWrite (blit established);
                  Dial (lit "example.org") 443%Z; Opened;
                  ClientWrite (blit "pong"); ServerWrite (blit "ping");
                  ServerClose; ClientClose] |}).
Proof. vm_compute. reflexivity. Qed.

(** X1, witness: the tunnel above. *)
Lemma tunnel_writes_200_first_witness :
  exists t,
    trace (snd (@session sample_runtime tunnel_client
                         (accept_all (sending (blit "pong"))) [false; true]))
    = ClientWrite (blit established) :: t.
Proof.
  exact (@tunnel_writes_200_first sample_runtime tunnel_client
           (accept_all (sending (blit "pong"))) [false; true]
           (blit connect_example_org) [Data (blit "ping"); Eof]
           (lit "example.org") 443%Z eq_refl eq_refl eq_refl eq_refl).
Defined.

(** X2, witness: the tunnel above completes. *)
Lemma tunnel_session_closes_both_witness :
  In ClientClose
     (trace (snd (@session sample_runtime tunnel_client
                           (accept_all (sending (blit "pong")))
                           [false; true])))
  /\ (In Opened
         (trace (snd (@session sample_runtime tunnel_client
                               (accept_all (sending (blit "pong")))
                               [false; true]))) ->
      In ServerClose
         (trace (snd (@session sample_runtime tunnel_client
                               (accept_all (sending (blit "pong")))
                               [false; true])))).
Proof.
  exact (@tunnel_session_closes_both sample_runtime tunnel_client
           (accept_all (sending (blit "pong"))) [false; true]
           (blit connect_example_org) [Data (blit "ping"); Eof]
           (lit "example.org") 443%Z eq_refl eq_refl eq_refl eq_refl eq_refl).
Defined.

(** X3, witness: the forward session above completes. *)
Lemma completed_session_closed_client_witness :
  In ClientClose
     (trace (snd (@session sample_runtime (sending (blit get_example_org))
                           (accept_all (sending (blit "hello"))) []))).
Proof.
  exact (@completed_session_closed_client sample_runtime
           (sending (blit get_example_org))
           (accept_all (sending (blit "hello"))) [] eq_refl).
Defined.

(** X4, witness: in the tunnel above what reaches the destination is a
    prefix of [ping], and what reaches the client is the 200 response and
    a prefix of [pong]. *)
Lemma tunnel_relays_both_directions_witness :
  (exists tail,
      blit "ping"
      = List.concat
          (sent_to Server
             (trace (snd (@session sample_runtime tunnel_client
                                   (accept_all (sending (blit "pong")))
                                   [false; true]))))
          ++ tail)
  /\ (exists wsB tail,
         sent_to Client
           (trace (snd (@session sample_runtime tunnel_client
                                 (accept_all (sending (blit "pong")))
                                 [false; true])))
         = blit established :: wsB
         /\ blit "pong" = List.concat wsB ++ tail).
Proof.
  exact (@tunnel_relays_both_directions sample_runtime tunnel_client
           (accept_all (sending (blit "pong"))) [false; true]
           (blit connect_example_org) [Data (blit "ping"); Eof]
           (lit "example.org") 443%Z (sending (blit "pong"))
           eq_refl eq_refl eq_refl eq_refl eq_refl eq_refl).
Defined.

(* ================================================================== *)
(** * What the parser returns                                           *)
(* ================================================================== *)

(** The fields of a split hold no separator, and no character the text
    did not hold. *)
Lemma split_fields_free (sep c : N) (s : pystr) :
  c = sep \/ free_of c s = true ->
  forall field, In field (split sep s) -> free_of c field = true.
Proof.
  induction s as [|x r IH]; intros Hc field Hin.
  - destruct Hin as [<-|[]]. reflexivity.
  - assert (Hr : c = sep \/ free_of c r = true).
    { destruct Hc as [Hc|Hc]; [now left|right].
      simpl in Hc. now apply andb_true_iff in Hc as [_ Hc]. }
    simpl in Hin. destruct (N.eqb x sep) eqn:Hx.
    + destruct Hin as [<-|Hin]; [reflexivity|now apply IH].
    + destruct (split sep r) as [|w ws] eqn:Hsplit.
      * destruct Hin as [<-|[]]. simpl. rewrite andb_true_r.
        destruct Hc as [->|Hc]; [now rewrite Hx|].
        simpl in Hc. now apply andb_true_iff in Hc as [Hc _].
      * destruct Hin as [<-|Hin].
        -- simpl. rewrite (IH Hr w (or_introl eq_refl)), andb_true_r.
           destruct Hc as [->|Hc]; [now rewrite Hx|].
           simpl in Hc. now apply andb_true_iff in Hc as [Hc _].
        -- apply (IH Hr). now right.
Qed.

Lemma lstrip_by_free (f : N -> bool) (c : N) (s : pystr) :
  free_of c s = true -> free_of c (lstrip_by f s) = true.
Proof.
  intros H. destruct (lstrip_by_split f s) as [a [Hs _]].
  rewrite Hs, free_of_app in H. now apply andb_true_iff in H as [_ H].
Qed.

Lemma strip_free (c : N) (s : pystr) :
  free_of c s = true -> free_of c (strip s) = true.
Proof.
  intros H. unfold strip, free_of. rewrite forallb_rev.
  apply lstrip_by_free. unfold free_of. rewrite forallb_rev.
  now apply lstrip_by_free.
Qed.

Lemma nth_error_in_split (sep : N) (s field : pystr) (i : nat) :
  nth_error (split sep s) i = Some field -> In field (split sep s).
Proof. apply nth_error_In. Qed.

Lemma first_field_in (sep : N) (s : pystr) :
  In (first_field sep s) (split sep s).
Proof.
  unfold first_field. pose proof (split_not_nil sep s).
  destruct (split sep s); [contradiction|now left].
Qed.

(** The first code point of a decoded text: the first byte itself when
    that byte is ASCII, a code point past ASCII otherwise. *)
Lemma utf8_decode_cons (b0 : byte) (r0 : bytes) (s : pystr) :
  utf8_decode (b0 :: r0) = Some s ->
  exists c s',
    s = c :: s'
    /\ ((Byte.to_N b0 < 0x80)%N -> c = Byte.to_N b0 /\ utf8_decode r0 = Some s')
    /\ ((0x80 <= Byte.to_N b0)%N -> (0x80 <= c)%N).
Proof.
  cbn [utf8_decode]. set (x0 := Byte.to_N b0).
  destruct (N.ltb x0 0x80) eqn:H0.
  { destruct (utf8_decode r0) as [s'|]; [|discriminate].
    intros H. inversion H. exists x0, s'. bool_to_prop.
    split; [reflexivity|]. split; [auto|lia]. }
  destruct (N.ltb x0 0xC2) eqn:H1; [discriminate|].
  bool_to_prop.
  destruct (N.ltb x0 0xE0) eqn:H2.
  { destruct r0 as [|b1 r1]; [discriminate|].
    destruct (is_cont (Byte.to_N b1)); [|discriminate].
    destruct (utf8_decode r1) as [s'|]; [|discriminate].
    intros H. inversion H. eexists _, s'. split; [reflexivity|].
    split; [lia|]. intros _. lia. }
  destruct (N.ltb x0 0xF0) eqn:H3.
  { destruct r0 as [|b1 [|b2 r2]]; try discriminate.
    destruct (in_range _ _ (Byte.to_N b1) && is_cont (Byte.to_N b2))%bool
      eqn:Hr; [|discriminate].
    destruct (utf8_decode r2) as [s'|]; [|discriminate].
    intros H. inversion H. eexists _, s'. split; [reflexivity|].
    split; [bool_to_prop; lia|]. intros _.
    unfold in_range, low6 in *. bool_to_prop.
    destruct (N.eqb x0 0xE0) eqn:He; bool_to_prop; lia. }
  destruct (N.ltb x0 0xF5) eqn:H4; [|discriminate].
  destruct r0 as [|b1 [|b2 [|b3 r3]]]; try discriminate.
  destruct (in_range _ _ (Byte.to_N b1) && is_cont (Byte.to_N b2)
            && is_cont (Byte.to_N b3))%bool eqn:Hr; [|discriminate].
  destruct (utf8_decode r3) as [s'|]; [|discriminate].
  intros H. inversion H. eexists _, s'. split; [reflexivity|].
  split; [bool_to_prop; lia|]. intros _.
  unfold in_range, low6 in *. bool_to_prop.
  destruct (N.eqb x0 0xF0) eqn:He; bool_to_prop; lia.
Qed.

Lemma byte_eqb_to_N (a b : byte) :
  Byte.eqb a b = N.eqb (Byte.to_N a) (Byte.to_N b).
Proof.
  destruct (Byte.eqb a b) eqn:E.
  - apply Byte.byte_dec_bl in E. subst. symmetry. apply N.eqb_refl.
  - symmetry. apply N.eqb_neq. intros H.
    apply (f_equal Byte.of_N) in H. rewrite !Byte.of_to_N in H.
    inversion H; subst.
    assert (Byte.eqb b b = true) by (apply Byte.byte_dec_lb; reflexivity).
    congruence.
Qed.

(** An ASCII prefix is found in the bytes exactly when it is found in the
    decoded text: the test [request.startswith(b'CONNECT')] of the handler
    and the test [request_str.startswith('CONNECT')] of the parser agree. *)
Lemma startswith_decoded (p : bytes) :
  forallb (fun b => N.ltb (Byte.to_N b) 0x80) p = true ->
  forall (bs : bytes) (s : pystr),
    utf8_decode bs = Some s ->
    bstartswith bs p = startswith s (map Byte.to_N p).
Proof.
  induction p as [|p0 p IH]; intros Hp bs s Hdec;
    [destruct bs, s; reflexivity|].
  simpl in Hp. apply andb_true_iff in Hp as [Hp0 Hp].
  apply N.ltb_lt in Hp0.
  destruct bs as [|b0 r0].
  - simpl in Hdec. inversion Hdec. reflexivity.
  - destruct (utf8_decode_cons b0 r0 s Hdec) as [c [s' [-> [Hlow Hhigh]]]].
    cbn [bstartswith startswith map]. rewrite byte_eqb_to_N.
    destruct (N.ltb (Byte.to_N b0) 0x80) eqn:Hb0.
    + apply N.ltb_lt in Hb0. destruct (Hlow Hb0) as [-> Hrest].
      now rewrite (IH Hp r0 s' Hrest).
    + apply N.ltb_ge in Hb0. specialize (Hhigh Hb0).
      replace (N.eqb (Byte.to_N b0) (Byte.to_N p0)) with false
        by (symmetry; apply N.eqb_neq; lia).
      replace (N.eqb c (Byte.to_N p0)) with false
        by (symmetry; apply N.eqb_neq; lia).
      reflexivity.
Qed.

Lemma connect_test_agrees (request : bytes) (s : pystr) :
  utf8_decode request = Some s ->
  bstartswith request (blit "CONNECT") = startswith s (lit "CONNECT").
Proof. intros H. now apply (startswith_decoded (blit "CONNECT")). Qed.

Lemma lstrip_by_idem (f : N -> bool) (s : pystr) :
  lstrip_by f (lstrip_by f s) = lstrip_by f s.
Proof.
  induction s as [|c r IH]; [reflexivity|].
  simpl. destruct (f c) eqn:E; [exact IH|]. simpl. now rewrite E.
Qed.

(** A text that [lstrip_by] leaves alone starts with a character it
    keeps, and so does every non-empty prefix of it. *)
Lemma lstrip_by_prefix (f : N -> bool) (u v : pystr) :
  lstrip_by f (u ++ v) = u ++ v -> u <> [] -> lstrip_by f u = u.
Proof.
  destruct u as [|c u]; [contradiction|]. intros H _.
  simpl in *. destruct (f c) eqn:E; [|reflexivity].
  exfalso.
  destruct (lstrip_by_split f (u ++ v)) as [a [Ha _]].
  apply (f_equal (@List.length N)) in Ha.
  rewrite H in Ha. rewrite !length_app in Ha. simpl in Ha.
  rewrite ?length_app in Ha. lia.
Qed.

(** What [str.strip] returns has no white space at either end. *)
Lemma strip_stripped (s : pystr) :
  lstrip_by isspace (strip s) = strip s
  /\ lstrip_by isspace (rev (strip s)) = rev (strip s).
Proof.
  unfold strip.
  set (y := lstrip_by isspace s).
  set (z := lstrip_by isspace (rev y)).
  split.
  - destruct (lstrip_by_split isspace (rev y)) as [a [Ha _]].
    fold z in Ha.
    assert (Hy : y = rev z ++ rev a).
    { rewrite <- rev_app_distr, <- Ha. symmetry. apply rev_involutive. }
    destruct z as [|c z'] eqn:Hz; [reflexivity|].
    apply (lstrip_by_prefix isspace (rev (c :: z')) (rev a)).
    + rewrite <- Hy. apply lstrip_by_idem.
    + simpl. intros E. apply app_eq_nil in E as [_ E]. discriminate.
  - rewrite rev_involutive. apply lstrip_by_idem.
Qed.

Section TargetShape.
Context {rt : Runtime}.
Local Open Scope py_scope.

(** What the loop over the header lines returns comes from a line that
    begins with [Host:]: the second of its fields, stripped, and 80. *)
Lemma host_loop_result (lines : list pystr) (h : pystr) (p : Z) :
  host_loop lines = Ret (Some (h, p)) ->
  exists line tok,
    In line lines
    /\ startswith line (lit "Host:") = true
    /\ nth_error (split chr_SP line) 1 = Some tok
    /\ h = strip tok /\ p = 80%Z.
Proof.
  induction lines as [|line rest IH]; [discriminate|].
  cbn [host_loop]. destruct (startswith line (lit "Host:")) eqn:Hs.
  - unfold index. destruct (nth_error (split chr_SP line) 1) as [tok|] eqn:Ht;
      [|discriminate].
    cbn [obind]. intros H. inversion H; subst.
    exists line, tok. repeat split; auto. now left.
  - intros H. destruct (IH H) as [l [tok [Hin Hrest]]].
    exists l, tok. split; [now right|exact Hrest].
Qed.

(** What the CONNECT branch returns comes from the second field of the
    first line: the text before its only colon, and the integer after. *)
Lemma connect_result (request : bytes) (s h : pystr) (p : Z) :
  utf8_decode request = Some s ->
  startswith s (lit "CONNECT") = true ->
  get_target_host request = Ret (Some (h, p)) ->
  exists tok port,
    nth_error (split chr_SP (first_field chr_LF s)) 1 = Some tok
    /\ split chr_COLON tok = [h; port]
    /\ int port = Ret p.
Proof.
  intros Hdec Hstart.
  rewrite (get_target_host_connect request s Hdec Hstart).
  unfold index.
  destruct (nth_error (split chr_SP (first_field chr_LF s)) 1) as [tok|]
    eqn:Htok; [|discriminate].
  cbn [obind]. unfold unpack2.
  destruct (split chr_COLON tok) as [|a [|b [|x l]]] eqn:Hsplit;
    try discriminate.
  cbn [obind]. destruct (int b) as [v|e|] eqn:Hint; try discriminate.
  cbn [obind otry]. intros H. inversion H; subst.
  exists tok, b. auto.
Qed.

(** The shape of what the parser returns, branch by branch. *)
Lemma target_shape (request : bytes) (h : pystr) (p : Z) :
  get_target_host request = Ret (Some (h, p)) ->
  free_of chr_SP h = true
  /\ free_of chr_LF h = true
  /\ (bstartswith request (blit "CONNECT") = true ->
      free_of chr_COLON h = true)
  /\ (bstartswith request (blit "CONNECT") = false ->
      p = 80%Z
      /\ lstrip_by isspace h = h
      /\ lstrip_by isspace (rev h) = rev h).
Proof.
  intros Hsome.
  destruct (utf8_decode request) as [s|] eqn:Hdec.
  2:{ unfold get_target_host, get_target_host_body, decode in Hsome.
      rewrite Hdec in Hsome. discriminate. }
  rewrite (connect_test_agrees request s Hdec).
  destruct (startswith s (lit "CONNECT")) eqn:Hstart.
  - destruct (connect_result request s h p Hdec Hstart Hsome)
      as [tok [port [Htok [Hsplit _]]]].
    assert (Hline : free_of chr_LF (first_field chr_LF s) = true).
    { apply (split_fields_free chr_LF chr_LF s (or_introl eq_refl)).
      apply first_field_in. }
    assert (Htok_sp : free_of chr_SP tok = true).
    { apply (split_fields_free chr_SP chr_SP (first_field chr_LF s)
               (or_introl eq_refl)).
      exact (nth_error_In _ _ Htok). }
    assert (Htok_lf : free_of chr_LF tok = true).
    { apply (split_fields_free chr_SP chr_LF _ (or_intror Hline)).
      exact (nth_error_In _ _ Htok). }
    assert (Hin : In h (split chr_COLON tok)) by (rewrite Hsplit; now left).
    split; [exact (split_fields_free chr_COLON chr_SP tok
                     (or_intror Htok_sp) h Hin)|].
    split; [exact (split_fields_free chr_COLON chr_LF tok
                     (or_intror Htok_lf) h Hin)|].
    split; [|discriminate].
    intros _. exact (split_fields_free chr_COLON chr_COLON tok
                       (or_introl eq_refl) h Hin).
  - rewrite (get_target_host_plain request s Hdec Hstart) in Hsome.
    assert (Hloop : host_loop (split chr_LF s) = Ret (Some (h, p))).
    { destruct (host_loop (split chr_LF s)) as [t|e|]; try discriminate.
      exact Hsome. }
    destruct (host_loop_result _ h p Hloop)
      as [line [tok [Hin [_ [Htok [-> ->]]]]]].
    assert (Hline : free_of chr_LF line = true).
    { exact (split_fields_free chr_LF chr_LF s (or_introl eq_refl) line Hin). }
    split.
    { apply strip_free.
      apply (split_fields_free chr_SP chr_SP line (or_introl eq_refl)).
      exact (nth_error_In _ _ Htok). }
    split.
    { apply strip_free.
      apply (split_fields_free chr_SP chr_LF line (or_intror Hline)).
      exact (nth_error_In _ _ Htok). }
    split; [discriminate|]. intros _.
    split; [reflexivity|apply strip_stripped].
Qed.

(** X5.  Whatever the request, a host the parser returns holds no space
    and no line feed.  In the CONNECT branch it holds no colon either; in
    the other branch it has no white space at either end and the port is
    80, whatever the [Host] line says. *)
Theorem parsed_target_shape (request : bytes) (h : pystr) (p : Z) :
  get_target_host request = Ret (Some (h, p)) ->
  free_of chr_SP h = true
  /\ free_of chr_LF h = true
  /\ (bstartswith request (blit "CONNECT") = true ->
      free_of chr_COLON h = true)
  /\ (bstartswith request (blit "CONNECT") = false ->
      p = 80%Z
      /\ lstrip_by isspace h = h
      /\ lstrip_by isspace (rev h) = rev h).
Proof. exact (target_shape request h p). Qed.

End TargetShape.

(** X5, witness: a [Host] line that names a port; the port returned is
    80 all the same. *)
Lemma parsed_target_shape_witness :
  @get_target_host sample_runtime
    (blit ("GET / HTTP/1.1" ++ CRLF ++ "Host: example.org:8080" ++ CRLF ++ CRLF))
  = Ret (Some (lit "example.org:8080", 80%Z))
  /\ free_of chr_SP (lit "example.org:8080") = true
  /\ free_of chr_LF (lit "example.org:8080") = true
  /\ lstrip_by isspace (lit "example.org:8080") = lit "example.org:8080".
Proof.
  destruct (@parsed_target_shape sample_runtime
              (blit ("GET / HTTP/1.1" ++ CRLF ++ "Host: example.org:8080"
                     ++ CRLF ++ CRLF))
              (lit "example.org:8080") 80%Z eq_refl)
    as [Hsp [Hlf [_ Hplain]]].
  destruct (Hplain eq_refl) as [_ [Hleft _]].
  exact (conj eq_refl (conj Hsp (conj Hlf Hleft))).
Defined.

(* ================================================================== *)
(** * Every session, path by path                                       *)
(* ================================================================== *)

Section AllSessions.
Context {rt : Runtime}.

(** Every session goes one of the ways of [session_run]. *)
Lemma session_runs (c : peer) (n : connector) (sched : list bool) :
  session_run c n sched (fst (session c n sched))
              (trace (snd (session c n sched))).
Proof.
  destruct (read BUFFER_SIZE (incoming c)) as [[request|e|] rest] eqn:Hread.
  - destruct (get_target_host_returns request) as [[[h p]|] Ht].
    + destruct (blocked h) eqn:Hb.
      { destruct (session_denied c n sched request rest h p Hread Ht Hb)
          as [w [Hrun Htr]].
        rewrite Hrun. cbn [fst snd]. rewrite Htr.
        exact (run_denied c n sched request rest h p Hread Ht Hb). }
      destruct (bstartswith request (blit "CONNECT")) eqn:Hc.
      * rewrite (session_tunnel c n sched request rest h p Hread Ht Hb Hc).
        destruct (handle_https_runs h p (initial (after_read c rest) n sched) Hb)
          as [t [r [w [Hrun [Htr Hcases]]]]].
        rewrite Hrun. cbn [fst snd]. rewrite Htr.
        cbn [trace initial app client after_read drains net schedule] in *.
        destruct Hcases as [[-> [-> Hhd]]|[Hhd Htun]].
        -- exact (run_tunnel_lost c n sched request rest h p
                    Hread Ht Hb Hc Hhd).
        -- exact (run_tunnel c n sched request rest h p r t
                    Hread Ht Hb Hc Hhd Htun).
      * destruct (n h p) as [srv| |] eqn:Hnet.
        -- destruct (session_forward_accepted c n sched request rest h p srv
                       Hread Ht Hb Hc Hnet)
             as [ws [closes [r [w [Hrun [Htr [Hr _]]]]]]].
           rewrite Hrun. cbn [fst snd]. rewrite Htr.
           exact (run_forward c n sched request rest h p srv ws closes r
                    Hread Ht Hb Hc Hnet Hr).
        -- rewrite (session_forward c n sched request rest h p Hread Ht Hb Hc).
           rewrite (forward_http_refused request h p
                      (initial (after_read c rest) n sched) Hnet).
           exact (run_forward_refused c n sched request rest h p
                    Hread Ht Hb Hc Hnet).
        -- rewrite (session_forward c n sched request rest h p Hread Ht Hb Hc).
           rewrite (forward_http_unanswered request h p
                      (initial (after_read c rest) n sched) Hnet).
           exact (run_forward_unanswered c n sched request rest h p
                    Hread Ht Hb Hc Hnet).
    + rewrite (session_unresolved c n sched request rest Hread Ht).
      exact (run_unresolved c n sched request rest Hread Ht).
  - rewrite (session_read_fails c n sched e rest Hread).
    exact (run_read_error c n sched e rest Hread).
  - rewrite (session_read_hangs c n sched rest Hread).
    exact (run_silent c n sched rest Hread).
Qed.

End AllSessions.

(** ** The connector calls of a trace *)

Lemma dials_app (t u : list event) : dials (t ++ u) = dials t ++ dials u.
Proof.
  induction t as [|e t IH]; [reflexivity|].
  destruct e; simpl; rewrite ?IH; reflexivity.
Qed.

Lemma dials_none (t : list event) :
  (forall e, In e t -> forall h p, e <> Dial h p) -> dials t = [].
Proof.
  induction t as [|e t IH]; intros H; [reflexivity|].
  assert (Ht : dials t = []) by (apply IH; intros x Hx; apply H; now right).
  destruct e; simpl; try exact Ht.
  exfalso. exact (H _ (or_introl eq_refl) host port eq_refl).
Qed.

Lemma dials_only_side (s : side) (t : list event) :
  only_side s t -> dials t = [].
Proof.
  intros H. apply dials_none. intros e He h p ->.
  destruct (H _ He) as [E|[d E]]; destruct s; discriminate.
Qed.

Lemma dials_in (t : list event) (h : pystr) (p : Z) :
  In (h, p) (dials t) <-> In (Dial h p) t.
Proof.
  induction t as [|e t IH]; [tauto|].
  destruct e; simpl; rewrite IH; split; intros H;
    try (now right); try (destruct H as [E|H]; [discriminate|exact H]).
  - destruct H as [E|H]; [inversion E; now left|now right].
  - destruct H as [E|H]; [inversion E; now left|now right].
Qed.

Lemma dials_tunnel_run (h : pystr) (p : Z) (n : connector)
      (sched : list bool) (r : outcome unit) (t : list event) :
  tunnel_run h p n sched r t -> dials t = [(h, p)].
Proof.
  intros H. destruct H as [| |srv wsA wsB cA cB r Hacc HcA HcB Hr];
    try reflexivity.
  cbn [app dials]. f_equal. apply dials_none. intros e He h' p' ->.
  apply in_merge in He as [He|He].
  - assert (HcA' : cA = [close_event Server] \/ cA = [])
      by (destruct HcA; auto).
    destruct (only_side_writes Server wsA cA HcA' _ He) as [E|[d E]];
      discriminate.
  - assert (HcB' : cB = [close_event Client] \/ cB = [])
      by (destruct HcB; auto).
    destruct (only_side_writes Client wsB cB HcB' _ He) as [E|[d E]];
      discriminate.
Qed.

Lemma dials_forward_tail (ws : list bytes) (closes : list event)
      (r : outcome unit) :
  r = Ret tt /\ (closes = [ClientClose; ClientClose]
                 \/ closes = [ClientClose] /\ ws = [])
  \/ r = Hang /\ closes = [] ->
  dials (map (write_event Client) ws ++ closes) = [].
Proof.
  intros Hr. rewrite dials_app.
  rewrite (dials_only_side Client (map (write_event Client) ws)).
  - destruct Hr as [[_ [-> |[-> _]]]|[_ ->]]; reflexivity.
  - intros e He. right. now apply in_writes in He.
Qed.

Section Dialling.
Context {rt : Runtime}.

(** The connector calls of a session, read off the way it went. *)
Lemma session_run_dials (c : peer) (n : connector) (sched : list bool)
      (r : outcome unit) (t : list event) :
  session_run c n sched r t ->
  dials t = []
  \/ exists request rest h p,
      read BUFFER_SIZE (incoming c) = (Ret request, rest)
      /\ get_target_host request = Ret (Some (h, p))
      /\ blocked h = false
      /\ dials t = [(h, p)].
Proof.
  intros H.
  destruct H as [rest Hread|e rest Hread|request rest Hread Ht
                 |request rest h p Hread Ht Hb
                 |request rest h p Hread Ht Hb Hc Hhd
                 |request rest h p r t Hread Ht Hb Hc Hhd Htun
                 |request rest h p Hread Ht Hb Hc Hnet
                 |request rest h p Hread Ht Hb Hc Hnet
                 |request rest h p srv ws closes r Hread Ht Hb Hc Hnet Hr];
    try (left; reflexivity);
    right; exists request, rest, h, p; repeat split; auto.
  - cbn [dials]. exact (dials_tunnel_run h p n sched r t Htun).
  - cbn [dials]. f_equal. exact (dials_forward_tail ws closes r Hr).
Qed.

(** X6.  A session calls the connector at most once. *)
Theorem session_dials_at_most_once (c : peer) (n : connector)
        (sched : list bool) :
  List.length (dials (trace (snd (session c n sched)))) <= 1.
Proof.
  destruct (session_run_dials c n sched _ _ (session_runs c n sched))
    as [->|[request [rest [h [p [_ [_ [_ ->]]]]]]]]; simpl; lia.
Qed.

(** X7.  When the parser resolves the first read to a host that is not
    blocked, the connector is called exactly once, with that host and
    port, unless the session is a tunnel whose 200 response could not be
    sent. *)
Theorem allowed_destination_dialled_once (c : peer) (n : connector)
        (sched : list bool) (request : bytes) (rest : stream)
        (h : pystr) (p : Z) :
  read BUFFER_SIZE (incoming c) = (Ret request, rest) ->
  get_target_host request = Ret (Some (h, p)) ->
  blocked h = false ->
  (bstartswith request (blit "CONNECT") = true ->
   hd true (drains c) = true) ->
  dials (trace (snd (session c n sched))) = [(h, p)].
Proof.
  intros Hread Ht Hb Hdrain.
  pose proof (session_runs c n sched) as H.
  destruct H as [rest' Hread'|e rest' Hread'|request' rest' Hread' Ht'
                 |request' rest' h' p' Hread' Ht' Hb'
                 |request' rest' h' p' Hread' Ht' Hb' Hc' Hhd'
                 |request' rest' h' p' r t Hread' Ht' Hb' Hc' Hhd' Htun
                 |request' rest' h' p' Hread' Ht' Hb' Hc' Hnet
                 |request' rest' h' p' Hread' Ht' Hb' Hc' Hnet
                 |request' rest' h' p' srv ws closes r
                    Hread' Ht' Hb' Hc' Hnet Hr];
    rewrite Hread in Hread'; inversion Hread'; subst;
    rewrite Ht in Ht'; inversion Ht'; subst.
  - rewrite Hb in Hb'. discriminate.
  - rewrite (Hdrain Hc') in Hhd'. discriminate.
  - cbn [dials]. exact (dials_tunnel_run h' p' n sched r t Htun).
  - reflexivity.
  - reflexivity.
  - cbn [dials]. f_equal. exact (dials_forward_tail ws closes r Hr).
Qed.

(** X8.  When the first read does not begin with [CONNECT], the
    connector is only ever called with port 80. *)
Theorem forward_dials_port_80 (c : peer) (n : connector)
        (sched : list bool) (request : bytes) (rest : stream) :
  read BUFFER_SIZE (incoming c) = (Ret request, rest) ->
  bstartswith request (blit "CONNECT") = false ->
  forall h p,
    In (Dial h p) (trace (snd (session c n sched))) -> p = 80%Z.
Proof.
  intros Hread Hc h p Hin. apply dials_in in Hin.
  destruct (session_run_dials c n sched _ _ (session_runs c n sched))
    as [E|[request' [rest' [h' [p' [Hread' [Ht [_ E]]]]]]]];
    rewrite E in Hin.
  - contradiction.
  - destruct Hin as [Heq|[]]. inversion Heq; subst.
    rewrite Hread in Hread'. inversion Hread'; subst.
    destruct (target_shape request' h p Ht) as [_ [_ [_ Hplain]]].
    exact (proj1 (Hplain Hc)).
Qed.

End Dialling.

(** ** Writes and closes in order *)

Lemma ordered_closed (s : side) (t : list event) :
  ordered s true t = true -> sent_to s t = [].
Proof.
  induction t as [|e t IH]; [reflexivity|].
  destruct e, s; simpl; try exact IH; discriminate.
Qed.

Lemma ordered_after_close (s : side) (a b : list event) :
  forall closed,
    ordered s closed (a ++ close_event s :: b) = true ->
    ordered s true b = true.
Proof.
  induction a as [|e a IH]; intros closed H.
  - destruct s; exact H.
  - destruct e, s; simpl in H;
      try (apply andb_true_iff in H as [_ H]); eauto.
Qed.

(** In a trace that [ordered] accepts, nothing is written to a side after
    that side has been closed. *)
Lemma ordered_sound (s : side) (t a b : list event) :
  ordered s false t = true ->
  t = a ++ close_event s :: b ->
  sent_to s b = [].
Proof.
  intros H ->. apply ordered_closed. exact (ordered_after_close s a b false H).
Qed.

Lemma ordered_other_side (s s' : side) (t : list event) (closed : bool) :
  s <> s' -> only_side s t -> ordered s' closed t = true.
Proof.
  intros Hneq. induction t as [|e t IH]; intros H; [reflexivity|].
  pose proof (IH (only_side_tail s e t H)) as IHt.
  destruct (H e (or_introl eq_refl)) as [->|[d ->]];
    destruct s, s'; try contradiction; exact IHt.
Qed.

Lemma ordered_writes (s : side) (ws : list bytes) (closes : list event) :
  closes = [] \/ closes = [close_event s]
  \/ closes = [close_event s; close_event s] ->
  ordered s false (map (write_event s) ws ++ closes) = true.
Proof.
  intros Hc. induction ws as [|d ws IH].
  - destruct Hc as [->|[->| ->]]; destruct s; reflexivity.
  - destruct s; exact IH.
Qed.

Lemma ordered_cons_other (s s' : side) (e : event) (t : list event)
      (closed : bool) :
  s <> s' -> only_side s [e] ->
  ordered s' closed (e :: t) = ordered s' closed t.
Proof.
  intros Hneq H.
  destruct (H e (or_introl eq_refl)) as [->|[d ->]];
    destruct s, s'; try contradiction; reflexivity.
Qed.

Lemma ordered_cons_same (s : side) (e : event) (t u : list event) :
  only_side s [e] ->
  (forall closed, ordered s closed t = ordered s closed u) ->
  forall closed, ordered s closed (e :: t) = ordered s closed (e :: u).
Proof.
  intros H Htu closed.
  destruct (H e (or_introl eq_refl)) as [->|[d ->]];
    destruct s; simpl; now rewrite Htu.
Qed.

(** In the merged trace of a tunnel each side sees its own relay's
    events in their order. *)
Lemma ordered_merge (sched : list bool) :
  forall l1 l2 : list event,
    only_side Server l1 -> only_side Client l2 ->
    forall closed,
      ordered Server closed (merge sched l1 l2) = ordered Server closed l1
      /\ ordered Client closed (merge sched l1 l2) = ordered Client closed l2.
Proof.
  assert (Hsc : Server <> Client) by discriminate.
  assert (Hcs : Client <> Server) by discriminate.
  induction sched as [|b sched IH]; intros l1 l2 H1 H2.
  - revert l2 H2. induction l1 as [|x l1 IHl]; intros l2 H2 closed.
    + simpl. split; [|reflexivity].
      rewrite (ordered_other_side Client Server l2 closed Hcs H2).
      reflexivity.
    + simpl merge.
      change ((x :: l1) ++ l2) with (x :: (l1 ++ l2)).
      pose proof (only_side_head Server x l1 H1) as Hx.
      pose proof (only_side_tail Server x l1 H1) as Ht.
      split.
      * apply (ordered_cons_same Server x (l1 ++ l2) l1 Hx).
        intros c0. exact (proj1 (IHl Ht l2 H2 c0)).
      * rewrite (ordered_cons_other Server Client x (l1 ++ l2) closed Hsc Hx).
        exact (proj2 (IHl Ht l2 H2 closed)).
  - intros closed. simpl. destruct b.
    + destruct l1 as [|x l1].
      * split; [|reflexivity].
        rewrite (ordered_other_side Client Server l2 closed Hcs H2).
        reflexivity.
      * pose proof (only_side_head Server x l1 H1) as Hx.
        pose proof (only_side_tail Server x l1 H1) as Ht.
        split.
        -- apply (ordered_cons_same Server x (merge sched l1 l2) l1 Hx).
           intros c0. exact (proj1 (IH l1 l2 Ht H2 c0)).
        -- rewrite (ordered_cons_other Server Client x _ closed Hsc Hx).
           exact (proj2 (IH l1 l2 Ht H2 closed)).
    + destruct l2 as [|y l2].
      * split; [reflexivity|].
        rewrite (ordered_other_side Server Client l1 closed Hsc H1).
        reflexivity.
      * pose proof (only_side_head Client y l2 H2) as Hy.
        pose proof (only_side_tail Client y l2 H2) as Ht.
        split.
        -- rewrite (ordered_cons_other Client Server y _ closed Hcs Hy).
           exact (proj1 (IH l1 l2 H1 Ht closed)).
        -- apply (ordered_cons_same Client y (merge sched l1 l2) l2 Hy).
           intros c0. exact (proj2 (IH l1 l2 H1 Ht c0)).
Qed.

Lemma ordered_tunnel_run (h : pystr) (p : Z) (n : connector)
      (sched : list bool) (r : outcome unit) (t : list event) (s : side) :
  tunnel_run h p n sched r t -> ordered s false t = true.
Proof.
  intros H. destruct H as [| |srv wsA wsB cA cB r Hacc HcA HcB Hr];
    try (destruct s; reflexivity).
  assert (HcA' : cA = [close_event Server] \/ cA = [])
    by (destruct HcA; auto).
  assert (HcB' : cB = [close_event Client] \/ cB = [])
    by (destruct HcB; auto).
  destruct (ordered_merge sched _ _
              (only_side_writes Server wsA cA HcA')
              (only_side_writes Client wsB cB HcB') false) as [HS HC].
  destruct s; cbn [app ordered].
  - rewrite HC. apply (ordered_writes Client).
    destruct HcB as [-> | ->]; auto.
  - rewrite HS. apply (ordered_writes Server).
    destruct HcA as [-> | ->]; auto.
Qed.

Section Ordering.
Context {rt : Runtime}.

Lemma session_run_ordered (c : peer) (n : connector) (sched : list bool)
      (r : outcome unit) (t : list event) (s : side) :
  session_run c n sched r t -> ordered s false t = true.
Proof.
  intros H.
  destruct H as [rest Hread|e rest Hread|request rest Hread Ht
                 |request rest h p Hread Ht Hb
                 |request rest h p Hread Ht Hb Hc Hhd
                 |request rest h p r t Hread Ht Hb Hc Hhd Htun
                 |request rest h p Hread Ht Hb Hc Hnet
                 |request rest h p Hread Ht Hb Hc Hnet
                 |request rest h p srv ws closes r Hread Ht Hb Hc Hnet Hr];
    try (destruct s; reflexivity).
  - pose proof (ordered_tunnel_run h p n sched r t s Htun) as Ho.
    destruct s; exact Ho.
  - assert (Hcl : closes = [] \/ closes = [close_event Client]
                  \/ closes = [close_event Client; close_event Client]).
    { destruct Hr as [[_ [-> |[-> _]]]|[_ ->]]; auto. }
    destruct s; cbn [ordered negb andb].
    + exact (ordered_writes Client ws closes Hcl).
    + apply (ordered_other_side Client Server); [discriminate|].
      intros e He. apply in_app_or in He as [He|He].
      * right. now apply in_writes in He.
      * left. destruct Hcl as [->|[->| ->]];
          repeat (destruct He as [<-|He]; [reflexivity|]); contradiction.
Qed.

(** X9.  The handler never writes to a connection it has closed: in the
    trace of every session, no write to a side follows a close of that
    side, however the two relays of a tunnel are interleaved. *)
Theorem no_write_after_close (c : peer) (n : connector) (sched : list bool)
        (s : side) (a b : list event) :
  trace (snd (session c n sched)) = a ++ close_event s :: b ->
  sent_to s b = [].
Proof.
  intros H.
  exact (ordered_sound s _ a b
           (session_run_ordered c n sched _ _ s (session_runs c n sched)) H).
Qed.

(** X10.  A client that is gone before it has sent a request gets its
    connection closed and nothing else: when the first read fails,
    returns no byte, or returns bytes that are not UTF-8, the session
    completes with the close of the client as its only event. *)
Theorem unusable_first_read_closes (c : peer) (n : connector)
        (sched : list bool) :
  (exists e rest, read BUFFER_SIZE (incoming c) = (Exc e, rest))
  \/ (exists request rest,
         read BUFFER_SIZE (incoming c) = (Ret request, rest)
         /\ (request = [] \/ utf8_decode request = None)) ->
  fst (session c n sched) = Ret tt
  /\ trace (snd (session c n sched)) = [ClientClose].
Proof.
  intros [[e [rest Hread]]|[request [rest [Hread Hbad]]]].
  - rewrite (session_read_fails c n sched e rest Hread). now split.
  - assert (Hnone : get_target_host request = Ret None).
    { destruct Hbad as [->|Hdec]; [reflexivity|].
      unfold get_target_host, get_target_host_body, decode.
      now rewrite Hdec. }
    rewrite (session_unresolved c n sched request rest Hread Hnone).
    now split.
Qed.

End Ordering.

(** ** What a coroutine adds to the trace *)

Section Emits.

Variable Q : event -> Prop.

Lemma emits_nothing {A} (m : io A) :
  (forall w, trace (snd (m w)) = trace w) -> emits Q m.
Proof.
  intros H w. exists []. rewrite app_nil_r. split; [apply H|constructor].
Qed.

Lemma emits_ret {A} (a : A) : emits Q (ret a).
Proof. now apply emits_nothing. Qed.

Lemma emits_lift {A} (o : outcome A) : emits Q (lift o).
Proof. now apply emits_nothing. Qed.

Lemma emits_event {A} (m : io A) (e : event) :
  Q e -> (forall w, trace (snd (m w)) = trace w ++ [e]) -> emits Q m.
Proof.
  intros He H w. exists [e]. split; [apply H|]. now constructor.
Qed.

(** Sequencing, when what the first part returns satisfies [P]. *)
Lemma emits_bind_post {A B} (P : A -> Prop) (m : io A) (k : A -> io B) :
  emits Q m ->
  (forall w a w', m w = (Ret a, w') -> P a) ->
  (forall a, P a -> emits Q (k a)) ->
  emits Q (bind m k).
Proof.
  intros Hm HP Hk w. unfold bind.
  destruct (Hm w) as [t [Ht HQ]].
  destruct (m w) as [[a|e|] w'] eqn:E; cbn [snd] in Ht.
  - destruct (Hk a (HP w a w' E) w') as [u [Hu HQu]].
    exists (t ++ u). split.
    + rewrite Hu, Ht. now rewrite app_assoc.
    + apply Forall_app. now split.
  - now exists t.
  - now exists t.
Qed.

Lemma emits_bind {A B} (m : io A) (k : A -> io B) :
  emits Q m -> (forall a, emits Q (k a)) -> emits Q (bind m k).
Proof.
  intros Hm Hk. apply (emits_bind_post (fun _ => True)); auto.
Qed.

Lemma emits_try_except {A} (m : io A) (h : exn -> io A) :
  emits Q m -> (forall e, emits Q (h e)) -> emits Q (try_except m h).
Proof.
  intros Hm Hh w. unfold try_except.
  destruct (Hm w) as [t [Ht HQ]].
  destruct (m w) as [[a|e|] w'] eqn:E; cbn [snd] in Ht.
  - now exists t.
  - destruct (Hh e w') as [u [Hu HQu]].
    exists (t ++ u). split.
    + rewrite Hu, Ht. now rewrite app_assoc.
    + apply Forall_app. now split.
  - now exists t.
Qed.

Lemma emits_try_finally {A} (m : io A) (f : io unit) :
  emits Q m -> emits Q f -> emits Q (try_finally m f).
Proof.
  intros Hm Hf w. unfold try_finally.
  destruct (Hm w) as [t [Ht HQ]].
  destruct (m w) as [[a|e|] w'] eqn:E; cbn [snd] in Ht.
  - destruct (emits_bind f (fun _ => ret a) Hf (fun _ => emits_ret a) w')
      as [u [Hu HQu]].
    exists (t ++ u). split.
    + rewrite Hu, Ht. now rewrite app_assoc.
    + apply Forall_app. now split.
  - destruct (emits_bind f (fun _ => @lift A (Exc e)) Hf
                (fun _ => @emits_lift A (Exc e)) w')
      as [u [Hu HQu]].
    exists (t ++ u). split.
    + rewrite Hu, Ht. now rewrite app_assoc.
    + apply Forall_app. now split.
  - now exists t.
Qed.

Lemma emits_reader_read (s : side) (n : nat) : emits Q (reader_read s n).
Proof. apply emits_nothing. apply reader_read_trace. Qed.

Lemma emits_writer_drain (s : side) : emits Q (writer_drain s).
Proof. apply emits_nothing. apply writer_drain_trace. Qed.

Lemma emits_writer_write (s : side) (data : bytes) :
  Q (write_event s data) -> emits Q (writer_write s data).
Proof. intros H. now apply (emits_event _ (write_event s data)). Qed.

Lemma emits_writer_close (s : side) :
  Q (close_event s) -> emits Q (writer_close s).
Proof. intros H. now apply (emits_event _ (close_event s)). Qed.

Lemma emits_open_connection (h : pystr) (p : Z) :
  Q (Dial h p) -> Q Opened -> emits Q (open_connection h p).
Proof.
  intros Hd Ho w. unfold open_connection.
  destruct (net w h p).
  - exists [Dial h p; Opened]. split.
    + simpl. now rewrite <- app_assoc.
    + now repeat constructor.
  - exists [Dial h p]. split; [reflexivity|now constructor].
  - exists [Dial h p]. split; [reflexivity|now constructor].
Qed.

Lemma Forall_merge (sched : list bool) :
  forall l1 l2, Forall Q l1 -> Forall Q l2 -> Forall Q (merge sched l1 l2).
Proof.
  intros l1 l2 H1 H2. apply Forall_forall. intros e He.
  apply in_merge in He as [He|He].
  - rewrite Forall_forall in H1. now apply H1.
  - rewrite Forall_forall in H2. now apply H2.
Qed.

Lemma emits_gather (a b : io unit) :
  emits Q a -> emits Q b -> emits Q (gather a b).
Proof.
  intros Ha Hb w. unfold gather.
  destruct (Ha (with_trace [] w)) as [ta [Hta HQa]].
  destruct (a (with_trace [] w)) as [ra wa]. cbn [snd] in Hta.
  destruct (Hb (with_trace [] wa)) as [tb [Htb HQb]].
  destruct (b (with_trace [] wa)) as [rb wb]. cbn [snd] in Htb.
  cbn [trace with_trace app] in Hta, Htb. cbn [snd trace with_trace].
  exists (merge (schedule w) ta tb). split.
  - now rewrite Hta, Htb.
  - now apply Forall_merge.
Qed.

(** A read through [reader_read] returns at most the bytes asked for. *)
Lemma reader_read_length (s : side) (n : nat) (w w' : world) (data : bytes) :
  reader_read s n w = (Ret data, w') -> List.length data <= n.
Proof.
  unfold reader_read. destruct (peer_of s w) as [p|]; [|discriminate].
  destruct (read n (incoming p)) as [r rest] eqn:Hread.
  intros H. inversion H; subst.
  exact (read_length n (incoming p) rest data Hread).
Qed.

Hypothesis Q_write :
  forall s d, List.length d <= BUFFER_SIZE -> Q (write_event s d).
Hypothesis Q_close : forall s, Q (close_event s).

Lemma emits_relay_loop (turns : nat) (src dst : side) :
  emits Q (relay_loop turns src dst).
Proof.
  induction turns as [|turns IH]; [apply emits_ret|].
  cbn [relay_loop].
  apply (emits_bind_post (fun data => List.length data <= BUFFER_SIZE)).
  - apply emits_reader_read.
  - intros w data w'. apply reader_read_length.
  - intros [|b bs] Hlen; [apply emits_ret|].
    apply emits_bind; [apply emits_writer_write, Q_write; exact Hlen|].
    intros _.
    apply emits_bind; [apply emits_writer_drain|]. intros _. exact IH.
Qed.

Lemma emits_relay (src dst : side) : emits Q (relay src dst).
Proof.
  unfold relay. apply emits_try_finally; [|apply emits_writer_close, Q_close].
  apply emits_try_except; [|intros e; apply emits_ret].
  intros w. apply emits_relay_loop.
Qed.

Hypothesis Q_dial : forall h p, Q (Dial h p).
Hypothesis Q_opened : Q Opened.

Lemma emits_send_forbidden : emits Q send_forbidden.
Proof.
  unfold send_forbidden.
  apply (emits_bind_post (fun data => data = blit forbidden_response)).
  - apply emits_lift.
  - intros w a w'. unfold lift. rewrite forbidden_response_encoded.
    intros H. now inversion H.
  - intros a ->.
    apply emits_bind.
    + apply emits_writer_write, Q_write.
      apply Nat.leb_le. vm_compute. reflexivity.
    + intros _. apply emits_bind; [apply emits_writer_drain|].
      intros _. apply emits_writer_close, Q_close.
Qed.

Lemma emits_handle_https (h : pystr) (p : Z) : emits Q (handle_https h p).
Proof.
  unfold handle_https. destruct (blocked h); [apply emits_send_forbidden|].
  apply emits_try_except; [|intros e; apply emits_writer_close, Q_close].
  apply emits_bind.
  - apply emits_writer_write, Q_write.
    apply Nat.leb_le. vm_compute. reflexivity.
  - intros _. apply emits_bind; [apply emits_writer_drain|]. intros _.
    apply emits_bind; [now apply emits_open_connection|]. intros _.
    apply emits_gather; apply emits_relay.
Qed.

Lemma emits_forward_http (request : bytes) (h : pystr) (p : Z) :
  List.length request <= BUFFER_SIZE ->
  emits Q (forward_http request h p).
Proof.
  intros Hlen. unfold forward_http.
  apply emits_try_finally; [|apply emits_writer_close, Q_close].
  apply emits_try_except; [|intros e; apply emits_ret].
  apply emits_bind; [now apply emits_open_connection|]. intros _.
  apply emits_bind; [apply emits_writer_write, Q_write; exact Hlen|].
  intros _.
  apply emits_bind; [apply emits_writer_drain|]. intros _.
  apply emits_relay.
Qed.

Lemma emits_handle_client {rt : Runtime} : emits Q handle_client.
Proof.
  unfold handle_client.
  apply emits_try_except; [|intros e; apply emits_writer_close, Q_close].
  apply (emits_bind_post (fun data => List.length data <= BUFFER_SIZE)).
  - apply emits_reader_read.
  - intros w data w'. apply reader_read_length.
  - intros request Hlen.
    apply emits_bind; [apply emits_lift|]. intros _.
    apply emits_bind; [apply emits_lift|]. intros [[h p]|].
    + destruct (blocked h); [apply emits_send_forbidden|].
      destruct (bstartswith request (blit "CONNECT")).
      * apply emits_handle_https.
      * now apply emits_forward_http.
    + apply emits_writer_close, Q_close.
Qed.

End Emits.

Lemma small_sent_to (s : side) (t : list event) (d : bytes) :
  Forall small t -> In d (sent_to s t) -> List.length d <= BUFFER_SIZE.
Proof.
  induction t as [|e t IH]; intros H Hin; [contradiction|].
  inversion H as [|x l He Ht]; subst.
  destruct e, s; simpl in Hin; try (now apply IH);
    destruct Hin as [<-|Hin]; try exact He; now apply IH.
Qed.

(** X11.  No write of a session, to the client or to the destination,
    carries more than [BUFFER_SIZE] bytes: the responses, the forwarded
    request and every relayed piece fit the buffer. *)
Theorem writes_are_bounded {rt : Runtime} (c : peer) (n : connector)
        (sched : list bool) (s : side) (d : bytes) :
  In d (sent_to s (trace (snd (session c n sched)))) ->
  List.length d <= BUFFER_SIZE.
Proof.
  assert (Hemits : emits small handle_client).
  { apply emits_handle_client.
    - intros s0 d0 Hlen. destruct s0; exact Hlen.
    - intros s0. destruct s0; exact I.
    - intros h p. exact I.
    - exact I. }
  unfold session. destruct (Hemits (initial c n sched)) as [t [Ht Hsmall]].
  rewrite Ht. cbn [trace initial app]. now apply small_sent_to.
Qed.

(* ================================================================== *)
(** * The properties above on example sessions                          *)
(* ================================================================== *)

(** X7, witness: the tunnel to [example.org:443] calls the connector
    once, with that destination. *)
Lemma allowed_destination_dialled_once_witness :
  dials (trace (snd (@session sample_runtime tunnel_client
                              (accept_all (sending (blit "pong")))
                              [false; true])))
  = [(lit "example.org", 443%Z)].
Proof.
  exact (@allowed_destination_dialled_once sample_runtime tunnel_client
           (accept_all (sending (blit "pong"))) [false; true]
           (blit connect_example_org) [Data (blit "ping"); Eof]
           (lit "example.org") 443%Z eq_refl eq_refl eq_refl
           (fun _ => eq_refl)).
Defined.

(** X8, witness: the forward session to [example.org] calls the
    connector, and with port 80. *)
Lemma forward_dials_port_80_witness :
  exists p,
    In (Dial (lit "example.org") p)
       (trace (snd (@session sample_runtime (sending (blit get_example_org))
                             (accept_all (sending (blit "hello"))) [])))
    /\ p = 80%Z.
Proof.
  assert (Hin : In (Dial (lit "example.org") 80%Z)
                   (trace (snd (@session sample_runtime
                                  (sending (blit get_example_org))
                                  (accept_all (sending (blit "hello"))) []))))
    by (left; reflexivity).
  exists 80%Z. split; [exact Hin|].
  exact (@forward_dials_port_80 sample_runtime
           (sending (blit get_example_org))
           (accept_all (sending (blit "hello"))) []
           (blit get_example_org) [Eof] eq_refl eq_refl
           (lit "example.org") 80%Z Hin).
Defined.

(** X9, witness: in the tunnel that serves the client's direction first,
    the destination is closed before [pong] goes to the client, and
    nothing is written to the destination after that. *)
Lemma no_write_after_close_witness :
  trace (snd (@session sample_runtime tunnel_client
                       (accept_all (sending (blit "pong"))) []))
  = [ClientWrite (blit established); Dial (lit "example.org") 443%Z; Opened;
     ServerWrite (blit "ping")]
      ++ close_event Server :: [ClientWrite (blit "pong"); ClientClose]
  /\ sent_to Server [ClientWrite (blit "pong"); ClientClose] = [].
Proof.
  split; [reflexivity|].
  exact (@no_write_after_close sample_runtime tunnel_client
           (accept_all (sending (blit "pong"))) [] Server
           [ClientWrite (blit established); Dial (lit "example.org") 443%Z;
            Opened; ServerWrite (blit "ping")]
           [ClientWrite (blit "pong"); ClientClose] eq_refl).
Defined.

(** X10, witness: a client whose first bytes are not UTF-8. *)
Lemma unusable_first_read_closes_witness :
  fst (@session sample_runtime
                {| incoming := [Data binary_payload; Eof]; drains := [] |}
                refuse_all [])
  = Ret tt
  /\ trace (snd (@session sample_runtime
                          {| incoming := [Data binary_payload; Eof];
                             drains := [] |}
                          refuse_all []))
     = [ClientClose].
Proof.
  apply (@unusable_first_read_closes sample_runtime
           {| incoming := [Data binary_payload; Eof]; drains := [] |}
           refuse_all []).
  right. exists binary_payload, [Eof]. split; [reflexivity|].
  right. reflexivity.
Defined.

(** X11, witness: a tunnel whose client sends 5000 bytes in one piece;
    they reach the destination as a piece of 4096 and a piece of 904. *)
Lemma writes_are_bounded_witness :
  sent_to Server
    (trace (snd (@session sample_runtime
                   {| incoming := [Data (blit connect_example_org);
                                   Data (repeat "A"%byte 5000); Eof];
                      drains := [] |}
                   (accept_all (sending (blit "pong"))) [])))
  = [repeat "A"%byte 4096; repeat "A"%byte 904]
  /\ List.length (repeat "A"%byte 4096) <= BUFFER_SIZE.
Proof.
  assert (Hsent :
            sent_to Server
              (trace (snd (@session sample_runtime
                             {| incoming := [Data (blit connect_example_org);
                                             Data (repeat "A"%byte 5000); Eof];
                                drains := [] |}
                             (accept_all (sending (blit "pong"))) [])))
            = [repeat "A"%byte 4096; repeat "A"%byte 904])
    by (vm_compute; reflexivity).
  split; [exact Hsent|].
  apply (@writes_are_bounded sample_runtime
           {| incoming := [Data (blit connect_example_org);
                           Data (repeat "A"%byte 5000); Eof];
              drains := [] |}
           (accept_all (sending (blit "pong"))) [] Server).
  rewrite Hsent. left. reflexivity.
Defined.
